(** * log_retainer: retention of the most recent log entries per level

    A shallow embedding of [log_retainer.py] (classes [LogRetainFilter],
    [LogRetainSuppress] and [LogRetainHandler]) and the properties of its
    retention engine.

    Python integers are [Z].  A Python method that mutates [self] and may
    raise is a function returning the outcome together with the object as
    the call leaves it: an exception does not undo the mutations made
    before it was raised.  Filter objects are shared by reference: they
    live in a heap, and the handler holds their identities. *)

From stdpp Require Import base functions gmap list strings pretty sorting.

Open Scope Z_scope.

(** ** Python runtime: exceptions, lists, ordered dictionaries *)

(** The built-in exceptions the operations of the module raise, and the
    exceptions of any other class, which only a formatter can raise. *)
Inductive Exn :=
  | IndexError | ValueError | KeyError | TypeError | AttributeError
  | Other (cls : string).

Inductive Result (A : Type) :=
  | Ok (a : A)
  | Raise (e : Exn).
Arguments Ok {A} a.
Arguments Raise {A} e.

Definition newline : string := String (Ascii.ascii_of_nat 10) EmptyString.

Definition is_Raise {A} (r : Result A) : Prop :=
  match r with Raise _ => True | Ok _ => False end.

(** Whether a call returned. *)
Definition returns {A} (r : Result A) : bool :=
  match r with Ok _ => true | Raise _ => false end.

Module PyList.

(** [l.pop(0)]: [IndexError] on the empty list. *)
Definition pop0 (l : list Z) : Result (Z * list Z) :=
  match l with
  | [] => Raise IndexError
  | x :: l' => Ok (x, l')
  end.

(** [l.index(x)]: position of the first occurrence, [ValueError] if none. *)
Fixpoint index (x : Z) (l : list Z) : Result nat :=
  match l with
  | [] => Raise ValueError
  | y :: l' =>
      if decide (y = x) then Ok 0%nat
      else match index x l' with
           | Ok i => Ok (S i)
           | Raise e => Raise e
           end
  end.

(** [l.pop(i)] for a non-negative position [i]. *)
Definition pop (i : nat) (l : list Z) : Result (Z * list Z) :=
  match l !! i with
  | Some x => Ok (x, delete i l)
  | None => Raise IndexError
  end.

(** [len(l)] *)
Definition len (l : list Z) : Z := Z.of_nat (length l).

End PyList.

(** [collections.OrderedDict] from sequence numbers to text: an association
    list in insertion order. *)
Module OrderedDict.

(** [d[k] = v]: a present key keeps its place, a new key goes last. *)
Fixpoint setitem (k : Z) (v : string) (d : list (Z * string)) : list (Z * string) :=
  match d with
  | [] => [(k, v)]
  | (k', v') :: d' =>
      if decide (k' = k) then (k, v) :: d' else (k', v') :: setitem k v d'
  end.

(** [d.pop(k)]: [KeyError] when the key is absent. *)
Fixpoint pop (k : Z) (d : list (Z * string)) : Result (string * list (Z * string)) :=
  match d with
  | [] => Raise KeyError
  | (k', v') :: d' =>
      if decide (k' = k) then Ok (v', d')
      else match pop k d' with
           | Ok (v, d'') => Ok (v, (k', v') :: d'')
           | Raise e => Raise e
           end
  end.

(** [d[k]]: [KeyError] when the key is absent. *)
Fixpoint getitem (k : Z) (d : list (Z * string)) : Result string :=
  match d with
  | [] => Raise KeyError
  | (k', v') :: d' => if decide (k' = k) then Ok v' else getitem k d'
  end.

(** [d.keys()] *)
Definition keys (d : list (Z * string)) : list Z := d.*1.

End OrderedDict.

(** ** The [logging] module: levels and records *)

Module logging.

(** The numeric levels of Python's [logging]. *)
Definition DEBUG : Z := 10.
Definition INFO : Z := 20.
Definition WARNING : Z := 30.
Definition ERROR : Z := 40.
Definition CRITICAL : Z := 50.

(** The levels [logging] knows by name. *)
Definition recognized (l : Z) : Prop :=
  l ∈ [DEBUG; INFO; WARNING; ERROR; CRITICAL].

(** The attributes of [logging.LogRecord] the module reads, and the
    message that the formatter renders. *)
Record LogRecord := mkRecord {
  name : string;
  levelno : Z;
  msg : string
}.

(** A formatter that renders every record as its message. *)
Definition plain (record : LogRecord) : Result string := Ok (msg record).

(** A formatter that raises [e] on the records with message [bad] and
    renders the others as their message. *)
Definition failing (bad : string) (e : Exn) (record : LogRecord) : Result string :=
  if decide (msg record = bad) then Raise e else Ok (msg record).

End logging.

Definition DEFAULT_RETAIN : gmap Z Z :=
  {[ logging.DEBUG := 50; logging.INFO := 50; logging.WARNING := 20;
     logging.ERROR := 15; logging.CRITICAL := 15 ]}.

(** ** class LogRetainFilter, class LogRetainSuppress *)

Module LogRetainFilter.

(** [LogRetainSuppress] subclasses [LogRetainFilter] and overrides
    [filter] only: the class is a tag and the attributes are shared. *)
Inductive Class := Retain | Suppress.

(** The state of a filter object. *)
Record t := mk {
  cls : Class;
  name : string;
  level : Z;
  count : Z;
  _index : list Z
}.

(** [LogRetainFilter(name, level, count)] *)
Definition init (name : string) (level count : Z) : t :=
  mk Retain name level count [].

(** [LogRetainSuppress(name, level, count)]: the inherited constructor. *)
Definition init_suppress (name : string) (level count : Z) : t :=
  mk Suppress name level count [].

Definition set_index (l : list Z) (self : t) : t :=
  mk (cls self) (name self) (level self) (count self) l.

(** [rec.name == self.name and rec.levelno == self.level] *)
Definition matches (self : t) (rec : logging.LogRecord) : bool :=
  bool_decide (logging.name rec = name self)
  && bool_decide (logging.levelno rec = level self).

(** [filter(self, logSeq, rec)]: the returned [rm] ([None] or a sequence
    number) and the state of the object as the call leaves it. *)
Definition filter (self : t) (logSeq : Z) (rec : logging.LogRecord)
  : Result (option Z) * t :=
  match cls self with
  | Retain =>
      if matches self rec then
        if bool_decide (count self ≤ PyList.len (_index self)) then
          match PyList.pop0 (_index self) with
          | Raise e => (Raise e, self)
          | Ok (rm, rest) => (Ok (Some rm), set_index (rest ++ [logSeq]) self)
          end
        else (Ok None, set_index (_index self ++ [logSeq]) self)
      else (Ok None, self)
  | Suppress =>
      if matches self rec then (Ok (Some logSeq), self) else (Ok None, self)
  end.

End LogRetainFilter.

(** ** Filter objects and references *)

(** A filter object is known by its identity [Ref].  The heap gives the
    state of every filter object of the program.  [addFilter] receives and
    stores a reference, so an object that is registered twice (or on
    several handlers) is one object with one FIFO, and a call of its
    [filter] method through any reference mutates that one object. *)
Abbreviation Ref := nat (only parsing).
Abbreviation Heap := (Ref → LogRetainFilter.t) (only parsing).

(** Two heaps that hold the same state for every object. *)
Definition same_heap (σ σ' : Heap) : Prop := ∀ l, σ' l = σ l.

(** ** class LogRetainHandler *)

Module LogRetainHandler.

(** The attributes of a handler.  [_index] is the [OrderedDict] of all
    retained entries, [_retain] maps a level to its list of retained
    sequence numbers, [_filters] is the chain of references to filter
    objects, in registration order. *)
Record t := mk {
  retainSetup : gmap Z Z;
  level : Z;
  logSeq : Z;
  _index : list (Z * string);
  _retain : gmap Z (list Z);
  _filters : list Ref
}.

Definition set_logSeq (v : Z) (h : t) : t :=
  mk (retainSetup h) (level h) v (_index h) (_retain h) (_filters h).
Definition set_index (v : list (Z * string)) (h : t) : t :=
  mk (retainSetup h) (level h) (logSeq h) v (_retain h) (_filters h).
Definition set_retain (v : gmap Z (list Z)) (h : t) : t :=
  mk (retainSetup h) (level h) (logSeq h) (_index h) v (_filters h).
Definition set_filters (v : list Ref) (h : t) : t :=
  mk (retainSetup h) (level h) (logSeq h) (_index h) (_retain h) v.

(** [__init__(self, retain, level)].  [for k in retainSetup.keys():
    self._retain[k] = list()] is the fold.  The base constructor of
    [logging.Handler] stores an integer level as it is; nothing in the
    constructor inspects the capacities or the level. *)
Definition init (retain : gmap Z Z) (level : Z) : Result t :=
  Ok (mk retain level 0 []
        (map_fold (λ k _ acc, <[k := []]> acc) ∅ retain) []).

(** How control leaves the body of the [for] loop of [emit]. *)
Inductive Flow := Continue | Return | Throw (e : Exn).

(** Lines 93-97, the removal of [toRemove] from the history:
    [lvlRecs.pop(lvlRecs.index(toRemove))] under a [try] whose [finally]
    clause is [pass] (which lets every exception through), then
    [self._index.pop(toRemove)].  [lvlRecs] is the list object stored in
    [self._retain] under the record's level; it is [None] when the level
    is not a key. *)
Definition evict (lvl toRemove : Z) (h : t) : Result unit * t :=
  match _retain h !! lvl with
  | None => (Raise AttributeError, h)
  | Some lvlRecs =>
      match PyList.index toRemove lvlRecs with
      | Raise e => (Raise e, h)
      | Ok i =>
          match PyList.pop i lvlRecs with
          | Raise e => (Raise e, h)
          | Ok (_, lvlRecs') =>
              let h := set_retain (<[lvl := lvlRecs']> (_retain h)) h in
              match OrderedDict.pop toRemove (_index h) with
              | Raise e => (Raise e, h)
              | Ok (_, d) => (Ok (), set_index d h)
              end
          end
      end
  end.

(** One iteration of [for filter in self._filters] (lines 89-97): the
    call [filter.filter(self.logSeq, record)] on the object that [filter]
    refers to, whose new state goes back to the heap, and what [emit] does
    with the returned [toRemove]. *)
Definition filter_step (record : logging.LogRecord) (filter : Ref) (σ : Heap) (h : t)
  : Flow * Heap * t :=
  let '(toRemove, self) := LogRetainFilter.filter (σ filter) (logSeq h) record in
  let σ := <[filter := self]> σ in
  match toRemove with
  | Raise e => (Throw e, σ, h)
  | Ok None => (Continue, σ, h)
  | Ok (Some toRemove) =>
      if bool_decide (toRemove ≠ 0) then
        if bool_decide (toRemove = logSeq h) then (Return, σ, h)
        else match evict (logging.levelno record) toRemove h with
             | (Raise e, h') => (Throw e, σ, h')
             | (Ok _, h') => (Continue, σ, h')
             end
      else (Continue, σ, h)
  end.

(** The loop over the references still to be visited: the heap and the
    handler as the loop leaves them. *)
Fixpoint run_filters (record : logging.LogRecord) (fs : list Ref) (σ : Heap) (h : t)
  : Flow * Heap * t :=
  match fs with
  | [] => (Continue, σ, h)
  | filter :: rest =>
      match filter_step record filter σ h with
      | (Continue, σ', h') => run_filters record rest σ' h'
      | (fl, σ', h') => (fl, σ', h')
      end
  end.

(** [emit] returns [None] on every path; the outcome names the path:
    the level test failed, the loop was left by [return], or the end of
    the method was reached. *)
Inductive Outcome := Ignored | Suppressed | Retained.

Section Emit.

(** [self.format], the rendering of a record by [logging]: it returns the
    text or raises. *)
Variable format : logging.LogRecord → Result string.

(** [lvlRecs.append(self.logSeq)] (line 102) *)
Definition append_seq (lvl : Z) (lvlRecs : list Z) (h : t) : t :=
  set_retain (<[lvl := lvlRecs ++ [logSeq h]]> (_retain h)) h.

(** Lines 98-102, after the loop.  On line 98 [self.format(record)] is
    evaluated first: when it raises, nothing is stored.  [lvlRecs] was
    bound before the loop to the list object held by [self._retain]; the
    removals of the loop mutated that object, so it is read from
    [_retain] here. *)
Definition retain_record (record : logging.LogRecord) (h : t) : Result Outcome * t :=
  let lvl := logging.levelno record in
  match format record with
  | Raise e => (Raise e, h)
  | Ok text =>
      let h := set_index (OrderedDict.setitem (logSeq h) text (_index h)) h in
      match _retain h !! lvl with
      | None => (Raise TypeError, h)
      | Some lvlRecs =>
          match retainSetup h !! lvl with
          | None => (Raise TypeError, h)
          | Some cap =>
              if bool_decide (cap ≤ PyList.len lvlRecs) then
                match PyList.pop0 lvlRecs with
                | Raise e => (Raise e, h)
                | Ok (rm, lvlRecs') =>
                    let h := set_retain (<[lvl := lvlRecs']> (_retain h)) h in
                    match OrderedDict.pop rm (_index h) with
                    | Raise e => (Raise e, h)
                    | Ok (_, d) => (Ok Retained, append_seq lvl lvlRecs' (set_index d h))
                    end
                end
              else (Ok Retained, append_seq lvl lvlRecs h)
          end
      end
  end.

(** [emit(self, record)]: the outcome, the heap of filter objects and the
    handler as the call leaves them. *)
Definition emit (σ : Heap) (h : t) (record : logging.LogRecord)
  : Result Outcome * Heap * t :=
  if bool_decide (level h ≤ logging.levelno record) then
    let h := set_logSeq (logSeq h + 1) h in
    let '(fl, σ, h) := run_filters record (_filters h) σ h in
    match fl with
    | Throw e => (Raise e, σ, h)
    | Return => (Ok Suppressed, σ, h)
    | Continue => let r := retain_record record h in (r.1, σ, r.2)
    end
  else (Ok Ignored, σ, h).

End Emit.

(** [addFilter(self, filter)]: the reference is appended. *)
Definition addFilter (h : t) (filter : Ref) : t :=
  set_filters (_filters h ++ [filter]) h.

(** [getLogEntries(self)]: the pairs the generator yields, in order. *)
Definition getLogEntries (h : t) : list (Z * string) := _index h.

(** The generator [get(self, data, logger)]: a line [f"{idx}> {text}\n"]
    for every key, newest first, with the text read back by
    [self._index[idx]]. *)
Fixpoint get_lines (d : list (Z * string)) (ks : list Z) : Result (list string) :=
  match ks with
  | [] => Ok []
  | idx :: ks' =>
      match OrderedDict.getitem idx d with
      | Raise e => Raise e
      | Ok txt =>
          match get_lines d ks' with
          | Raise e => Raise e
          | Ok ls => Ok ((pretty idx +:+ "> " +:+ txt +:+ newline) :: ls)
          end
      end
  end.

(** The lines [get] yields; the last one carries the two memory figures
    that [gc] reports after [gc.collect()]. *)
Definition get (mem_alloc mem_free : Z) (h : t) : Result (list string) :=
  match get_lines (_index h) (reverse (OrderedDict.keys (_index h))) with
  | Raise e => Raise e
  | Ok ls =>
      Ok (ls ++ [pretty (Z.of_nat (length (_index h)))
                 +:+ " log items retained. Memory: " +:+ pretty mem_alloc
                 +:+ " alloc, " +:+ pretty mem_free +:+ " free."])
  end.

End LogRetainHandler.

(** ** Runs of the handler *)

(** The calls a client makes on a handler once it is constructed.
    [addFilter] is given a reference to a filter object, which may be in
    any state and may have been registered before. *)
Inductive Op :=
  | Emit (record : logging.LogRecord)
  | AddFilter (filter : Ref).

(** The heap and the handler after one call; a call of [emit] that raises
    leaves them as they were when the exception left the method. *)
Definition apply_op (format : logging.LogRecord → Result string)
    (w : Heap * LogRetainHandler.t) (op : Op) : Heap * LogRetainHandler.t :=
  match op with
  | Emit record =>
      let r := LogRetainHandler.emit format w.1 w.2 record in (r.1.2, r.2)
  | AddFilter filter => (w.1, LogRetainHandler.addFilter w.2 filter)
  end.

Definition exec (format : logging.LogRecord → Result string)
    (ops : list Op) (w : Heap * LogRetainHandler.t) : Heap * LogRetainHandler.t :=
  foldl (apply_op format) w ops.

(** The emitted records of a run, each with the outcome of its call. *)
Fixpoint calls (format : logging.LogRecord → Result string)
    (ops : list Op) (w : Heap * LogRetainHandler.t)
  : list (logging.LogRecord * Result LogRetainHandler.Outcome) :=
  match ops with
  | [] => []
  | Emit record :: ops' =>
      (record, (LogRetainHandler.emit format w.1 w.2 record).1.1)
      :: calls format ops' (apply_op format w (Emit record))
  | AddFilter filter :: ops' => calls format ops' (apply_op format w (AddFilter filter))
  end.

(** The states a handler reaches from its construction, whatever the
    filter objects of the program are. *)
Definition reachable (format : logging.LogRecord → Result string)
    (h : LogRetainHandler.t) : Prop :=
  ∃ retain level h0 σ0 ops,
    LogRetainHandler.init retain level = Ok h0 ∧ h = (exec format ops (σ0, h0)).2.

(** The sequence numbers in the global index and in the per-level queues. *)
Definition index_keys (h : LogRetainHandler.t) : list Z :=
  OrderedDict.keys (LogRetainHandler._index h).

Definition queued (h : LogRetainHandler.t) (s : Z) : Prop :=
  ∃ lvl q, LogRetainHandler._retain h !! lvl = Some q ∧ s ∈ q.

(** Index consistency: the keys of the index are the members of the
    queues, and the index iterates in strictly increasing order. *)
Definition index_consistent (h : LogRetainHandler.t) : Prop :=
  (∀ s, s ∈ index_keys h ↔ queued h s) ∧ StronglySorted Z.lt (index_keys h).

(** Every record emitted by the run has a level that is a key of [retain]. *)
Definition levels_configured (retain : gmap Z Z) (ops : list Op) : Prop :=
  Forall (λ op, match op with
                | Emit record => is_Some (retain !! logging.levelno record)
                | AddFilter _ => True
                end) ops.

(** ** Invariants of the retention engine *)

Import LogRetainHandler.

(** No filter object referred to by [fs] matches the record. *)
Definition none_matches (σ : Heap) (record : logging.LogRecord) (fs : list Ref) : Prop :=
  Forall (λ l, LogRetainFilter.matches (σ l) record = false) fs.

(** What the removals of one call can do to a handler: the configuration,
    the counter and the filter list stay, the index and the queues lose
    entries and keep their order. *)
Definition shrinks (h h' : t) : Prop :=
  retainSetup h' = retainSetup h ∧ level h' = level h ∧
  logSeq h' = logSeq h ∧ _filters h' = _filters h ∧
  dom (_retain h') = dom (_retain h) ∧
  _index h' `sublist_of` _index h ∧
  (∀ lvl q', _retain h' !! lvl = Some q' →
     ∃ q, _retain h !! lvl = Some q ∧ q' `sublist_of` q).

(** What one call can do at most: the configuration stays, and whatever is
    in the index or in a queue afterwards was there before or is [n]. *)
Definition extends_by (n : Z) (h h' : t) : Prop :=
  retainSetup h' = retainSetup h ∧ level h' = level h ∧
  dom (_retain h') = dom (_retain h) ∧
  (∀ s, s ∈ index_keys h' → s ∈ index_keys h ∨ s = n) ∧
  (∀ lvl q', _retain h' !! lvl = Some q' →
     ∃ q, _retain h !! lvl = Some q ∧ ∀ s, s ∈ q' → s ∈ q ∨ s = n).

(** Sequence numbers stay at or below the counter, which starts at 0. *)
Definition bounded (h : t) : Prop :=
  0 ≤ logSeq h ∧
  (∀ s, s ∈ index_keys h → s ≤ logSeq h) ∧
  (∀ lvl q s, _retain h !! lvl = Some q → s ∈ q → s ≤ logSeq h).

(** The capacity invariant: a queue is no longer than the capacity
    configured for its level, when that capacity is at least 1. *)
Definition within_capacity (h : t) : Prop :=
  ∀ lvl q c, _retain h !! lvl = Some q → retainSetup h !! lvl = Some c →
             1 ≤ c → PyList.len q ≤ c.

(** What makes index consistency an invariant: besides it, the keys are
    at most [b], no sequence number is queued twice, the queues are those
    of the configured levels and every capacity is at least 1. *)
Definition coherent (b : Z) (h : t) : Prop :=
  StronglySorted Z.lt (index_keys h) ∧
  (∀ s, s ∈ index_keys h ↔ queued h s) ∧
  (∀ s, s ∈ index_keys h → s ≤ b) ∧
  (∀ lvl q, _retain h !! lvl = Some q → NoDup q) ∧
  (∀ l1 l2 q1 q2 s, _retain h !! l1 = Some q1 → _retain h !! l2 = Some q2 →
                    s ∈ q1 → s ∈ q2 → l1 = l2) ∧
  dom (_retain h) = dom (retainSetup h) ∧
  (∀ lvl c, retainSetup h !! lvl = Some c → 1 ≤ c).

(** An index entry that is in no queue: no later call removes it. *)
Definition stranded (s : Z) (h : t) : Prop :=
  s ∈ index_keys h ∧ ¬ queued h s ∧ s ≤ logSeq h.

(** What holds of the index and the queues in every state, whatever the
    configuration and the filters: the index iterates in strictly
    increasing order with keys at most [b], every queue is in strictly
    increasing order, every queued number is a key of the index, and no
    number is in two queues. *)
Definition orderly (b : Z) (h : t) : Prop :=
  StronglySorted Z.lt (index_keys h) ∧
  (∀ s, queued h s → s ∈ index_keys h) ∧
  (∀ s, s ∈ index_keys h → s ≤ b) ∧
  (∀ lvl q, _retain h !! lvl = Some q → StronglySorted Z.lt q) ∧
  (∀ l1 l2 q1 q2 s, _retain h !! l1 = Some q1 → _retain h !! l2 = Some q2 →
                    s ∈ q1 → s ∈ q2 → l1 = l2).

(** The records of a run that pass the threshold [lvl], each with the
    sequence number [emit] gives it when the counter starts at [n]. *)
Fixpoint accepted (lvl n : Z) (ops : list Op) : list (Z * logging.LogRecord) :=
  match ops with
  | [] => []
  | Emit record :: ops' =>
      if bool_decide (lvl ≤ logging.levelno record)
      then (n + 1, record) :: accepted lvl (n + 1) ops'
      else accepted lvl n ops'
  | AddFilter _ :: ops' => accepted lvl n ops'
  end.

(** The sequence numbers of the accepted records of level [L] that the
    formatter renders, oldest first. *)
Definition level_seqs (format : logging.LogRecord → Result string)
    (L lvl n : Z) (ops : list Op) : list Z :=
  (filter (λ p, logging.levelno p.2 = L ∧ returns (format p.2) = true)
     (accepted lvl n ops)).*1.

(** The last [c] elements of a list (all of it when it is shorter). *)
Definition lastn (c : Z) (l : list Z) : list Z :=
  drop (length l - Z.to_nat c) l.

(** A run that registers no filter. *)
Definition no_addFilter (ops : list Op) : Prop :=
  Forall (λ op, match op with Emit _ => True | AddFilter _ => False end) ops.

(** How often a run registers the filter object [l]. *)
Fixpoint registrations (l : Ref) (ops : list Op) : nat :=
  match ops with
  | [] => 0
  | Emit _ :: ops' => registrations l ops'
  | AddFilter l' :: ops' => ((if decide (l' = l) then 1 else 0) + registrations l ops')%nat
  end.

(** How often a chain refers to the filter object [l]. *)
Definition occurrences (l : Ref) (fs : list Ref) : nat :=
  length (filter (λ l', l' = l) fs).

(** The FIFO of a filter holds at most [count] numbers. *)
Definition fifo_bounded (f : LogRetainFilter.t) : Prop :=
  PyList.len (LogRetainFilter._index f) ≤ Z.max 0 (LogRetainFilter.count f).

(** The queue of a level whose capacity is below 1 is empty. *)
Definition empty_below_one (h : t) : Prop :=
  ∀ lvl q c, _retain h !! lvl = Some q → retainSetup h !! lvl = Some c →
             c ≤ 0 → q = [].

(** The line [f"{idx}> {text}\n"] of [get] for one entry, and its last
    line for [n] entries. *)
Definition dump_line (e : Z * string) : string :=
  pretty e.1 +:+ "> " +:+ e.2 +:+ newline.

Definition dump_summary (n : nat) (mem_alloc mem_free : Z) : string :=
  pretty (Z.of_nat n) +:+ " log items retained. Memory: " +:+ pretty mem_alloc
  +:+ " alloc, " +:+ pretty mem_free +:+ " free.".

(** A filter object over time: the attributes that [filter] never
    assigns. *)
Definition same_key (f f' : LogRetainFilter.t) : Prop :=
  LogRetainFilter.cls f' = LogRetainFilter.cls f ∧
  LogRetainFilter.name f' = LogRetainFilter.name f ∧
  LogRetainFilter.level f' = LogRetainFilter.level f ∧
  LogRetainFilter.count f' = LogRetainFilter.count f.

(** Every retained number of a record of [hist] that has the filter's key
    is in the filter's FIFO. *)
Definition fifo_covers (hist : list (Z * logging.LogRecord))
    (f : LogRetainFilter.t) (h : t) : Prop :=
  ∀ s record q,
    (s, record) ∈ hist → LogRetainFilter.matches f record = true →
    _retain h !! LogRetainFilter.level f = Some q → s ∈ q →
    s ∈ LogRetainFilter._index f.

(** The filter object [l], of class [LogRetainFilter] and with the key of
    [f0], followed through a run whose accepted records so far are
    [hist]. *)
Definition tracks (l : Ref) (f0 : LogRetainFilter.t)
    (hist : list (Z * logging.LogRecord)) (w : Heap * t) : Prop :=
  orderly (logSeq w.2) w.2 ∧
  0 ≤ logSeq w.2 ∧
  (∀ s record, (s, record) ∈ hist → 0 < s ≤ logSeq w.2) ∧
  l ∈ _filters w.2 ∧
  same_key f0 (w.1 l) ∧ fifo_bounded (w.1 l) ∧ fifo_covers hist (w.1 l) w.2.

(** No record of [hist] that has the filter's key is retained. *)
Definition keeps_out (f : LogRetainFilter.t)
    (hist : list (Z * logging.LogRecord)) (h : t) : Prop :=
  ∀ s record, (s, record) ∈ hist → LogRetainFilter.matches f record = true →
              (s ∉ index_keys h) ∧ ¬ queued h s.

(** The sum of the capacities of a retain map (a capacity below 0 counts
    as 0). *)
Definition total_capacity (retain : gmap Z Z) : nat :=
  sum_list_with (λ p, Z.to_nat p.2) (map_to_list retain).

(** The FIFO of a filter is in strictly increasing order, with numbers
    at most [b]. *)
Definition fifo_sorted (b : Z) (f : LogRetainFilter.t) : Prop :=
  StronglySorted Z.lt (LogRetainFilter._index f) ∧
  ∀ s, s ∈ LogRetainFilter._index f → s ≤ b.

(** * Facts about the runtime operations *)

Lemma index_Ok x l i :
  PyList.index x l = Ok i →
  ∃ l1 l2, l = l1 ++ (x :: l2) ∧ (x ∉ l1) ∧ i = length l1 ∧ delete i l = l1 ++ l2.
Proof.
  revert i. induction l as [|y l IH]; intros i; simpl; [done|].
  destruct (decide (y = x)) as [->|Hne].
  - intros [= <-]. exists [], l. split_and!; [done|set_solver|done|done].
  - destruct (PyList.index x l) as [j|] eqn:Hj; [|done].
    intros [= <-]. destruct (IH j eq_refl) as (l1 & l2 & -> & Hn & -> & Hd).
    exists (y :: l1), l2. split_and!; [done|set_solver|done|].
    simpl. by rewrite Hd.
Qed.

Lemma index_Raise x l e :
  PyList.index x l = Raise e → e = ValueError ∧ x ∉ l.
Proof.
  induction l as [|y l IH]; simpl.
  - intros [= <-]. split; [done|set_solver].
  - destruct (decide (y = x)) as [->|Hne]; [done|].
    destruct (PyList.index x l) as [j|e'] eqn:Hj; [done|].
    intros [= <-]. destruct (IH eq_refl) as [-> Hn]. split; [done|set_solver].
Qed.

Lemma index_absent x l : x ∉ l → PyList.index x l = Raise ValueError.
Proof.
  intros Hn. destruct (PyList.index x l) as [i|e] eqn:Hi.
  - apply index_Ok in Hi as (l1 & l2 & -> & _). set_solver.
  - by apply index_Raise in Hi as [-> _].
Qed.

Lemma pop_at_index x l i :
  PyList.index x l = Ok i → PyList.pop i l = Ok (x, delete i l).
Proof.
  intros Hi. destruct (index_Ok _ _ _ Hi) as (l1 & l2 & -> & _ & -> & _).
  unfold PyList.pop. by rewrite list_lookup_middle.
Qed.

Lemma setitem_fresh k v d :
  k ∉ OrderedDict.keys d → OrderedDict.setitem k v d = d ++ [(k, v)].
Proof.
  unfold OrderedDict.keys. induction d as [|[k' v'] d IH]; simpl; [done|].
  intros Hn. destruct (decide (k' = k)) as [->|Hne]; [set_solver|].
  rewrite IH; [done|set_solver].
Qed.

Lemma odpop_Ok k d v d' :
  OrderedDict.pop k d = Ok (v, d') →
  ∃ d1 d2, d = d1 ++ ((k, v) :: d2) ∧ d' = d1 ++ d2 ∧ k ∉ OrderedDict.keys d1.
Proof.
  unfold OrderedDict.keys.
  revert d'. induction d as [|[k' v'] d IH]; intros d'; simpl; [done|].
  destruct (decide (k' = k)) as [->|Hne].
  - intros [= -> ->]. exists [], d'. split_and!; [done|done|set_solver].
  - destruct (OrderedDict.pop k d) as [[v0 d0]|] eqn:Hp; [|done].
    intros [= -> <-]. destruct (IH d0 eq_refl) as (d1 & d2 & -> & -> & Hn).
    exists ((k', v') :: d1), d2. split_and!; [done|done|set_solver].
Qed.

Lemma odpop_Raise k d e :
  OrderedDict.pop k d = Raise e → e = KeyError ∧ k ∉ OrderedDict.keys d.
Proof.
  unfold OrderedDict.keys. induction d as [|[k' v'] d IH]; simpl.
  - intros [= <-]. split; [done|set_solver].
  - destruct (decide (k' = k)) as [->|Hne]; [done|].
    destruct (OrderedDict.pop k d) as [[v0 d0]|e'] eqn:Hp; [done|].
    intros [= <-]. destruct (IH eq_refl) as [-> Hn]. split; [done|set_solver].
Qed.

Lemma odpop_keys_sublist k d v d' :
  OrderedDict.pop k d = Ok (v, d') →
  OrderedDict.keys d' `sublist_of` OrderedDict.keys d.
Proof.
  intros (d1 & d2 & -> & -> & _)%odpop_Ok. unfold OrderedDict.keys.
  rewrite !fmap_app, fmap_cons. apply sublist_app; [done|]. by apply sublist_cons.
Qed.

Lemma init_retain_lookup (retain : gmap Z Z) (k : Z) :
  map_fold (λ k (_ : Z) (acc : gmap Z (list Z)), <[k := []]> acc) ∅ retain !! k
  = (λ _, []) <$> retain !! k.
Proof.
  apply (map_fold_weak_ind (λ acc m, acc !! k = (λ _, []) <$> m !! k)).
  - by rewrite !lookup_empty.
  - intros i x m r Hi IH. rewrite !lookup_insert. case_decide; [done|apply IH].
Qed.

Lemma setitem_keys k v d s :
  s ∈ OrderedDict.keys (OrderedDict.setitem k v d) ↔ s ∈ OrderedDict.keys d ∨ s = k.
Proof.
  unfold OrderedDict.keys. induction d as [|[k' v'] d IH]; simpl.
  - set_solver.
  - destruct (decide (k' = k)) as [->|Hne]; simpl; [set_solver|].
    rewrite !elem_of_cons, IH. tauto.
Qed.

(** * Frame properties of [emit] *)

Lemma shrinks_refl h : shrinks h h.
Proof. unfold shrinks. split_and!; try done. intros lvl q' Hq. by exists q'. Qed.

Lemma shrinks_trans h1 h2 h3 : shrinks h1 h2 → shrinks h2 h3 → shrinks h1 h3.
Proof.
  intros (A1 & A2 & A3 & A4 & A0 & A5 & A6) (B1 & B2 & B3 & B4 & B0 & B5 & B6).
  unfold shrinks. split_and!; try congruence.
  - by etrans.
  - intros lvl q3 H3. destruct (B6 _ _ H3) as (q2 & H2 & S2).
    destruct (A6 _ _ H2) as (q1 & H1 & S1). exists q1. split; [done|by etrans].
Qed.

Lemma shrinks_keys h h' : shrinks h h' → index_keys h' `sublist_of` index_keys h.
Proof.
  intros (_ & _ & _ & _ & _ & Hs & _). unfold index_keys, OrderedDict.keys.
  by apply fmap_sublist.
Qed.

Lemma evict_shrinks lvl x h res h' : evict lvl x h = (res, h') → shrinks h h'.
Proof.
  unfold evict. destruct (_retain h !! lvl) as [q|] eqn:Hq.
  2:{ intros [= _ <-]. apply shrinks_refl. }
  destruct (PyList.index x q) as [i|e] eqn:Hi.
  2:{ intros [= _ <-]. apply shrinks_refl. }
  rewrite (pop_at_index _ _ _ Hi). simpl.
  assert (shrinks h (set_retain (<[lvl:=delete i q]> (_retain h)) h)) as Hs.
  { unfold shrinks; simpl. split_and!; try done.
    - by eapply dom_insert_lookup_L.
    - intros l q'. rewrite lookup_insert. case_decide as Hl.
      + subst l. intros [= <-]. exists q. split; [done|apply sublist_delete].
      + intros Hq'. by exists q'. }
  destruct (OrderedDict.pop x (_index h)) as [[v d]|e] eqn:Hp.
  2:{ by intros [= _ <-]. }
  intros [= _ <-]. eapply shrinks_trans; [exact Hs|].
  unfold shrinks; simpl. split_and!; try done.
  - apply odpop_Ok in Hp as (d1 & d2 & -> & -> & _).
    apply sublist_app; [done|]. by apply sublist_cons.
  - intros l q' Hq'. by exists q'.
Qed.


Lemma filter_step_shrinks record l σ h fl σ' h' :
  filter_step record l σ h = (fl, σ', h') → shrinks h h'.
Proof.
  unfold filter_step.
  destruct (LogRetainFilter.filter (σ l) (logSeq h) record) as [[[x|]|e] f0].
  - case_bool_decide.
    + case_bool_decide.
      * intros [= _ _ <-]. apply shrinks_refl.
      * destruct (evict (logging.levelno record) x h) as [[[]|e] h1] eqn:He;
          intros [= _ _ <-]; by eapply evict_shrinks.
    + intros [= _ _ <-]. apply shrinks_refl.
  - intros [= _ _ <-]. apply shrinks_refl.
  - intros [= _ _ <-]. apply shrinks_refl.
Qed.

Lemma run_filters_shrinks record fs σ h fl σ' h' :
  run_filters record fs σ h = (fl, σ', h') → shrinks h h'.
Proof.
  revert σ h. induction fs as [|l fs IH]; intros σ h; simpl.
  - intros [= _ _ <-]. apply shrinks_refl.
  - destruct (filter_step record l σ h) as [[fl1 σ1] h1] eqn:Hs.
    apply filter_step_shrinks in Hs.
    destruct fl1.
    + intros Hr. eapply shrinks_trans; [exact Hs|]. by eapply IH.
    + by intros [= _ _ <-].
    + by intros [= _ _ <-].
Qed.

Lemma shrinks_extends n h h' : shrinks h h' → extends_by n h h'.
Proof.
  intros Hs. pose proof (shrinks_keys _ _ Hs) as Hk.
  destruct Hs as (A1 & A2 & A3 & A4 & A0 & A5 & A6).
  unfold extends_by. split_and!; try done.
  - intros s Hin. left. by eapply elem_of_sublist.
  - intros lvl q' Hq'. destruct (A6 _ _ Hq') as (q & Hq & Hsub).
    exists q. split; [done|]. intros s Hin. left. by eapply elem_of_sublist.
Qed.

Lemma extends_by_trans n h1 h2 h3 :
  extends_by n h1 h2 → extends_by n h2 h3 → extends_by n h1 h3.
Proof.
  intros (A1 & A2 & A0 & A3 & A4) (B1 & B2 & B0 & B3 & B4).
  unfold extends_by. split_and!; try congruence.
  - intros s Hin. destruct (B3 _ Hin) as [?|?]; [auto|by right].
  - intros lvl q3 H3. destruct (B4 _ _ H3) as (q2 & H2 & S2).
    destruct (A4 _ _ H2) as (q1 & H1 & S1). exists q1. split; [done|].
    intros s Hin. destruct (S2 _ Hin) as [?|?]; [auto|by right].
Qed.

Lemma retain_record_frame format record h res h' :
  retain_record format record h = (res, h') →
  logSeq h' = logSeq h ∧ _filters h' = _filters h.
Proof.
  unfold retain_record, append_seq.
  destruct (format record) as [text|e]; [|by intros [= _ <-]]. simpl.
  destruct (_retain h !! logging.levelno record) as [q|]; [|by intros [= _ <-]].
  destruct (retainSetup h !! logging.levelno record) as [cap|]; [|by intros [= _ <-]].
  case_bool_decide; [|by intros [= _ <-]].
  destruct q as [|rm q]; simpl; [by intros [= _ <-]|].
  destruct (OrderedDict.pop rm _) as [[v d]|e]; by intros [= _ <-].
Qed.

Lemma retain_record_extends format record h res h' :
  retain_record format record h = (res, h') → extends_by (logSeq h) h h'.
Proof.
  assert (∀ text s, s ∈ index_keys (set_index (OrderedDict.setitem (logSeq h)
            text (_index h)) h) → s ∈ index_keys h ∨ s = logSeq h) as Hset.
  { intros text s. unfold index_keys; simpl. by rewrite setitem_keys. }
  unfold retain_record, append_seq.
  destruct (format record) as [text|e].
  2:{ intros [= _ <-]. unfold extends_by. split_and!; try done; [auto|].
      intros lvl q' Hq'. exists q'. auto. }
  specialize (Hset text). simpl.
  destruct (_retain h !! logging.levelno record) as [q|] eqn:Hq.
  2:{ intros [= _ <-]. unfold extends_by; simpl. split_and!; try done.
      intros lvl q' Hq'. exists q'. auto. }
  destruct (retainSetup h !! logging.levelno record) as [cap|].
  2:{ intros [= _ <-]. unfold extends_by; simpl. split_and!; try done.
      intros lvl q' Hq'. exists q'. auto. }
  case_bool_decide.
  - destruct q as [|rm q]; simpl.
    { intros [= _ <-]. unfold extends_by; simpl. split_and!; try done.
      intros lvl q' Hq'. exists q'. auto. }
    destruct (OrderedDict.pop rm _) as [[v d]|e] eqn:Hp.
    + intros [= _ <-]. unfold extends_by; simpl. split_and!; try done.
      * rewrite insert_insert_eq. by eapply dom_insert_lookup_L.
      * intros s Hin. apply Hset. unfold index_keys in *; simpl in *.
        eapply elem_of_sublist; [exact Hin|]. by eapply odpop_keys_sublist.
      * intros lvl q'. rewrite lookup_insert. case_decide as Hl.
        -- subst lvl. intros [= <-]. exists (rm :: q). split; [done|]. set_solver.
        -- rewrite lookup_insert_ne by done. intros Hq'. exists q'. auto.
    + intros [= _ <-]. unfold extends_by; simpl. split_and!; try done.
      * by eapply dom_insert_lookup_L.
      * intros lvl q'. rewrite lookup_insert. case_decide as Hl.
        -- subst lvl. intros [= <-]. exists (rm :: q). split; [done|]. set_solver.
        -- intros Hq'. exists q'. auto.
  - intros [= _ <-]. unfold extends_by; simpl. split_and!; try done.
    + by eapply dom_insert_lookup_L.
    + intros lvl q'. rewrite lookup_insert. case_decide as Hl.
      * subst lvl. intros [= <-]. exists q. split; [done|]. set_solver.
      * intros Hq'. exists q'. auto.
Qed.

(** The handler that [emit] leaves, seen through the loop and lines
    98-102. *)
Lemma emit_handler format σ h record :
  (emit format σ h record).2
  = (if bool_decide (level h ≤ logging.levelno record) then
       let r := run_filters record (_filters h) σ (set_logSeq (logSeq h + 1) h) in
       match r.1.1 with
       | Continue => (retain_record format record r.2).2
       | _ => r.2
       end
     else h).
Proof.
  unfold emit. case_bool_decide; [|done]. cbn [_filters set_logSeq].
  change (mk (retainSetup h) (level h) (logSeq h + 1) (_index h) (_retain h) (_filters h))
    with (set_logSeq (logSeq h + 1) h).
  destruct (run_filters record (_filters h) σ (set_logSeq (logSeq h + 1) h))
    as [[fl σ1] h1].
  by destruct fl.
Qed.

(** The heap that [emit] leaves is the heap that the loop leaves. *)
Lemma emit_heap format σ h record :
  (emit format σ h record).1.2
  = (if bool_decide (level h ≤ logging.levelno record)
     then (run_filters record (_filters h) σ (set_logSeq (logSeq h + 1) h)).1.2
     else σ).
Proof.
  unfold emit. case_bool_decide; [|done]. cbn [_filters set_logSeq].
  change (mk (retainSetup h) (level h) (logSeq h + 1) (_index h) (_retain h) (_filters h))
    with (set_logSeq (logSeq h + 1) h).
  destruct (run_filters record (_filters h) σ (set_logSeq (logSeq h + 1) h))
    as [[fl σ1] h1].
  by destruct fl.
Qed.

(** The outcome of [emit]. *)
Lemma emit_outcome format σ h record :
  (emit format σ h record).1.1
  = (if bool_decide (level h ≤ logging.levelno record) then
       let r := run_filters record (_filters h) σ (set_logSeq (logSeq h + 1) h) in
       match r.1.1 with
       | Continue => (retain_record format record r.2).1
       | Return => Ok Suppressed
       | Throw e => Raise e
       end
     else Ok Ignored).
Proof.
  unfold emit. case_bool_decide; [|done]. cbn [_filters set_logSeq].
  change (mk (retainSetup h) (level h) (logSeq h + 1) (_index h) (_retain h) (_filters h))
    with (set_logSeq (logSeq h + 1) h).
  destruct (run_filters record (_filters h) σ (set_logSeq (logSeq h + 1) h))
    as [[fl σ1] h1].
  by destruct fl.
Qed.

(** [emit] seen from outside: either nothing is added and the counter
    stays, or the counter advances and at most its new value is added. *)
Lemma emit_extends format σ h record :
  let h' := (emit format σ h record).2 in
  (h' = h ∨ extends_by (logSeq h + 1) h h' ∧ logSeq h' = logSeq h + 1).
Proof.
  intros h'. subst h'. rewrite emit_handler. case_bool_decide; [|by left]. right.
  destruct (run_filters record _ _ _) as [[fl σ1] h1] eqn:Hr.
  apply run_filters_shrinks in Hr.
  assert (extends_by (logSeq h + 1) h h1) as Hx.
  { apply (shrinks_extends (logSeq h + 1)) in Hr.
    destruct Hr as (A1 & A2 & A0 & A3 & A4). unfold extends_by. simpl in *. done. }
  assert (logSeq h1 = logSeq h + 1) as Hn.
  { destruct Hr as (_ & _ & A3 & _). simpl in *. done. }
  destruct fl; simpl; [|done|done].
  destruct (retain_record format record h1) as [res h2] eqn:Hrr. simpl.
  pose proof (retain_record_frame _ _ _ _ _ Hrr) as [Hl _].
  apply retain_record_extends in Hrr. rewrite Hn in Hrr.
  split; [by eapply extends_by_trans|]. congruence.
Qed.

Lemma apply_op_extends format w op :
  let h := w.2 in
  let h' := (apply_op format w op).2 in
  ((∀ n, extends_by n h h') ∧ logSeq h' = logSeq h)
  ∨ (extends_by (logSeq h + 1) h h' ∧ logSeq h' = logSeq h + 1).
Proof.
  destruct w as [σ h]. destruct op as [record|l]; cbn [apply_op fst snd].
  - destruct (emit_extends format σ h record) as [->|?]; [left|by right].
    split; [|done]. intros n. apply shrinks_extends, shrinks_refl.
  - left. split; [|done]. intros n. unfold extends_by, index_keys; simpl.
    split_and!; try done; [auto|]. intros lvl q' Hq'. exists q'. auto.
Qed.

(** A property of the handler that [emit] and [addFilter] keep holds
    after every run. *)
Lemma exec_preserves format (P : t → Prop) :
  (∀ σ h record, P h → P (emit format σ h record).2) →
  (∀ h l, P h → P (addFilter h l)) →
  ∀ ops w, P w.2 → P (exec format ops w).2.
Proof.
  intros Hemit Hadd. induction ops as [|op ops IH]; intros [σ h] HP; simpl; [done|].
  apply IH. destruct op as [record|l]; cbn [apply_op fst snd]; auto.
Qed.

(** ** Sequence numbers stay below the counter *)

Lemma apply_op_bounded format w op : bounded w.2 → bounded (apply_op format w op).2.
Proof.
  intros (H0 & Hk & Hq).
  assert (∃ n, n ≤ logSeq (apply_op format w op).2
               ∧ logSeq w.2 ≤ logSeq (apply_op format w op).2
               ∧ extends_by n w.2 (apply_op format w op).2)
    as (n & Hn & Hle & _ & _ & _ & Xk & Xq).
  { destruct (apply_op_extends format w op) as [[Hx Hl]|[Hx Hl]].
    - exists (logSeq w.2). split_and!; [lia|lia|apply Hx].
    - exists (logSeq w.2 + 1). split_and!; [lia|lia|apply Hx]. }
  unfold bounded. split_and!.
  - lia.
  - intros s Hin. destruct (Xk _ Hin) as [?%Hk| ->]; lia.
  - intros lvl q' s Hq' Hin. destruct (Xq _ _ Hq') as (q & Hqq & Hsub).
    destruct (Hsub _ Hin) as [Hs| ->]; [|lia]. pose proof (Hq _ _ _ Hqq Hs). lia.
Qed.

Lemma exec_bounded format ops w : bounded w.2 → bounded (exec format ops w).2.
Proof.
  revert w. induction ops as [|op ops IH]; intros w Hb; simpl; [done|].
  apply IH. by apply apply_op_bounded.
Qed.

Lemma init_bounded retain lvl h0 : init retain lvl = Ok h0 → bounded h0.
Proof.
  intros [= <-]. unfold bounded, index_keys; simpl. split_and!; [done|set_solver|].
  intros l q s. rewrite init_retain_lookup.
  destruct (retain !! l); simpl; [|done]. intros [= <-]. set_solver.
Qed.

Lemma reachable_bounded format h : reachable format h → bounded h.
Proof.
  intros (retain & lvl & h0 & σ0 & ops & Hi & ->).
  apply exec_bounded. by eapply init_bounded.
Qed.

(** Whatever a later state holds was held before or was numbered later. *)
Lemma exec_origin format ops w :
  let h := w.2 in
  let h' := (exec format ops w).2 in
  logSeq h ≤ logSeq h' ∧
  (∀ s, s ∈ index_keys h' → s ∈ index_keys h ∨ logSeq h < s) ∧
  (∀ lvl q' s, _retain h' !! lvl = Some q' → s ∈ q' →
     logSeq h < s ∨ ∃ q, _retain h !! lvl = Some q ∧ s ∈ q).
Proof.
  revert w. induction ops as [|op ops IH]; intros w; simpl.
  - split_and!; [done|auto|]. intros lvl q' s Hq' Hin. right. by exists q'.
  - destruct (IH (apply_op format w op)) as (I1 & I2 & I3).
    assert (logSeq w.2 ≤ logSeq (apply_op format w op).2
            ∧ extends_by (logSeq w.2 + 1) w.2 (apply_op format w op).2)
      as (Hn & _ & _ & _ & Xk & Xq).
    { destruct (apply_op_extends format w op) as [[Hx Hl]|[Hx Hl]];
        (split; [lia|apply Hx]). }
    split_and!.
    + lia.
    + intros s Hin. destruct (I2 _ Hin) as [Hin'|?]; [|right; lia].
      destruct (Xk _ Hin') as [?| ->]; [by left|right; lia].
    + intros lvl q' s Hq' Hin. destruct (I3 _ _ _ Hq' Hin) as [?|(q1 & Hq1 & Hin1)].
      { left. lia. }
      destruct (Xq _ _ Hq1) as (q & Hq & Hsub).
      destruct (Hsub _ Hin1) as [?| ->]; [|left; lia]. right. by exists q.
Qed.

(** * The threshold gate *)

(** C10: a record whose level is strictly below the handler's level is a
    complete no-op for [emit]: the handler that comes out is the handler
    that went in (same counter, same chain, same queues, same index), no
    filter object is consulted or changed, and the call returns
    normally. *)
Theorem emit_below_level_noop format σ h record :
  logging.levelno record < level h →
  emit format σ h record = (Ok Ignored, σ, h).
Proof.
  intros Hlt. unfold emit. rewrite bool_decide_eq_false_2; [done|lia].
Qed.

Lemma emit_below_level_noop_witness :
  let σ : Heap := λ _, LogRetainFilter.init "task" logging.DEBUG 1 in
  let h := mk DEFAULT_RETAIN logging.INFO 3 [(3, "boot")] {[logging.INFO := [3]]} [0%nat] in
  let record := logging.mkRecord "task" logging.DEBUG "tick" in
  logging.levelno record < level h ∧
  emit logging.plain σ h record = (Ok Ignored, σ, h).
Proof.
  split; [reflexivity|]. apply emit_below_level_noop. reflexivity.
Defined.

(** * Construction *)

(** C4 fails as stated: a zero and a negative capacity together with a
    level that [logging] does not know are accepted by the constructor. *)
Lemma init_rejects_bad_config_counterexample :
  let retain : gmap Z Z := {[logging.INFO := 0; logging.WARNING := -3]} in
  (∃ k c, retain !! k = Some c ∧ c ≤ 0) ∧
  ¬ logging.recognized 7 ∧
  ¬ is_Raise (init retain 7).
Proof.
  split_and!.
  - exists logging.INFO, 0. split; [reflexivity|lia].
  - unfold logging.recognized. rewrite !elem_of_cons, elem_of_nil.
    unfold logging.DEBUG, logging.INFO, logging.WARNING, logging.ERROR, logging.CRITICAL.
    lia.
  - simpl. tauto.
Qed.

(** C4, amended: the constructor validates nothing.  For every retain map
    (capacities of any sign) and every integer level it succeeds, and the
    handler it builds has that configuration, counter 0, an empty index,
    no filters and an empty queue for exactly the keys of the map. *)
Theorem init_accepts_any_config (retain : gmap Z Z) (lvl : Z) :
  ∃ h, init retain lvl = Ok h ∧
       retainSetup h = retain ∧ level h = lvl ∧ logSeq h = 0 ∧
       _index h = [] ∧ _filters h = [] ∧
       ∀ k, _retain h !! k = (λ _, []) <$> retain !! k.
Proof.
  eexists. split; [reflexivity|]. simpl. split_and!; try done.
  intros k. apply init_retain_lookup.
Qed.


(** * The capacity invariant *)

Lemma shrinks_capacity h h' : shrinks h h' → within_capacity h → within_capacity h'.
Proof.
  intros (A1 & _ & _ & _ & _ & _ & A6) Hc lvl q' c Hq' Hs Hpos.
  destruct (A6 _ _ Hq') as (q & Hq & Hsub). rewrite A1 in Hs.
  pose proof (Hc _ _ _ Hq Hs Hpos) as Hle.
  apply sublist_length in Hsub. unfold PyList.len in *. lia.
Qed.


Lemma retain_record_capacity format record h :
  within_capacity h → within_capacity (retain_record format record h).2.
Proof.
  intros Hc. unfold retain_record, append_seq.
  destruct (format record) as [text|e]; [|exact Hc]. simpl.
  destruct (_retain h !! logging.levelno record) as [q|] eqn:Hq; [|exact Hc].
  destruct (retainSetup h !! logging.levelno record) as [cap|] eqn:Hcap; [|exact Hc].
  case_bool_decide as Hfull.
  - destruct q as [|rm q]; simpl; [exact Hc|].
    destruct (OrderedDict.pop rm _) as [[v d]|e] eqn:Hp;
      intros lvl q' c; simpl; rewrite ?insert_insert_eq, lookup_insert;
      case_decide as Hl.
    + subst lvl. intros [= <-] Hs Hpos. pose proof (Hc _ _ _ Hq Hs Hpos) as Hle.
      unfold PyList.len in *. rewrite length_app. simpl in *. lia.
    + intros Hq' Hs Hpos. by eapply Hc.
    + subst lvl. intros [= <-] Hs Hpos. pose proof (Hc _ _ _ Hq Hs Hpos) as Hle.
      unfold PyList.len in *. simpl in *. lia.
    + intros Hq' Hs Hpos. by eapply Hc.
  - intros lvl q' c; simpl. rewrite lookup_insert.
    case_decide as Hl.
    + subst lvl. intros [= <-] Hs Hpos.
      assert (c = cap) as -> by congruence.
      unfold PyList.len in *. rewrite length_app. simpl. lia.
    + intros Hq' Hs Hpos. by eapply Hc.
Qed.

Lemma emit_capacity format σ h record :
  within_capacity h → within_capacity (emit format σ h record).2.
Proof.
  intros Hc. rewrite emit_handler. case_bool_decide; [|done].
  destruct (run_filters record _ _ _) as [[fl σ1] h1] eqn:Hr.
  apply run_filters_shrinks in Hr.
  assert (within_capacity h1) as Hc1.
  { apply (shrinks_capacity _ _ Hr). exact Hc. }
  destruct fl; simpl; [|done|done].
  by apply retain_record_capacity.
Qed.

Lemma exec_capacity format ops w :
  within_capacity w.2 → within_capacity (exec format ops w).2.
Proof.
  apply (exec_preserves format within_capacity); [|done].
  intros σ h record. apply emit_capacity.
Qed.

Lemma exec_config format ops w :
  retainSetup (exec format ops w).2 = retainSetup w.2 ∧
  level (exec format ops w).2 = level w.2 ∧
  dom (_retain (exec format ops w).2) = dom (_retain w.2).
Proof.
  revert w. induction ops as [|op ops IH]; intros w; simpl; [done|].
  destruct (IH (apply_op format w op)) as (-> & -> & ->).
  destruct (apply_op_extends format w op) as [[Hx _]|[Hx _]];
    [specialize (Hx 0)|]; by destruct Hx as (-> & -> & -> & _).
Qed.

Lemma init_capacity retain lvl h0 : init retain lvl = Ok h0 → within_capacity h0.
Proof.
  intros [= <-] l q c; simpl. rewrite init_retain_lookup.
  destruct (retain !! l); simpl; [|done]. intros [= <-] _ Hpos.
  unfold PyList.len; simpl. lia.
Qed.


(** C6: for every level [L] of the retain map whose capacity [C] is at
    least 1, after every sequence of calls on a freshly constructed handler
    (records of any level, any formatter, filter objects in any state
    registered at any point and any number of times, calls that raise
    included) the queue of [L] exists and its length is at most [C]. *)
Theorem capacity_invariant format retain lvl h0 σ0 ops L C :
  init retain lvl = Ok h0 →
  retain !! L = Some C →
  1 ≤ C →
  ∃ q, _retain (exec format ops (σ0, h0)).2 !! L = Some q ∧ PyList.len q ≤ C.
Proof.
  intros Hi HL Hpos.
  pose proof (exec_capacity format ops (σ0, h0) (init_capacity _ _ _ Hi)) as Hc.
  destruct (exec_config format ops (σ0, h0)) as (Hs & _ & Hd). simpl in Hs, Hd.
  assert (is_Some (_retain (exec format ops (σ0, h0)).2 !! L)) as [q Hq].
  { apply elem_of_dom. rewrite Hd. apply elem_of_dom.
    injection Hi as <-. simpl. rewrite init_retain_lookup, HL. by eexists. }
  exists q. split; [done|]. apply (Hc L q C Hq); [|done].
  rewrite Hs. injection Hi as <-. done.
Qed.

Lemma capacity_invariant_witness :
  let h0 := mk {[logging.INFO := 2]} logging.INFO 0 [] {[logging.INFO := []]} [] in
  let σ0 : Heap := λ _, LogRetainFilter.init "app" logging.INFO 1 in
  let r := logging.mkRecord "app" logging.INFO "m" in
  let x := logging.mkRecord "other" logging.INFO "m" in
  ∃ q, _retain (exec logging.plain
                  [Emit r; Emit r; Emit r; AddFilter 0%nat; Emit x; Emit r; Emit x; Emit r]
                  (σ0, h0)).2 !! logging.INFO = Some q
       ∧ PyList.len q ≤ 2.
Proof.
  apply (capacity_invariant logging.plain {[logging.INFO := 2]} logging.INFO);
    [reflexivity | reflexivity | lia].
Defined.


(** * The filter chain *)

Lemma filter_nomatch f n record :
  LogRetainFilter.matches f record = false →
  LogRetainFilter.filter f n record = (Ok None, f).
Proof. intros Hm. unfold LogRetainFilter.filter. rewrite Hm. by destruct (LogRetainFilter.cls f). Qed.

Lemma filter_suppress f n record :
  LogRetainFilter.cls f = LogRetainFilter.Suppress →
  LogRetainFilter.matches f record = true →
  LogRetainFilter.filter f n record = (Ok (Some n), f).
Proof. intros Hc Hm. unfold LogRetainFilter.filter. by rewrite Hc, Hm. Qed.

(** A matching filter of class [LogRetainFilter] that returns has appended
    the sequence number to its FIFO. *)
Lemma filter_retain_appends f n record x :
  LogRetainFilter.cls f = LogRetainFilter.Retain →
  LogRetainFilter.matches f record = true →
  (LogRetainFilter.filter f n record).1 = Ok x →
  ∃ pre, LogRetainFilter._index (LogRetainFilter.filter f n record).2 = pre ++ [n].
Proof.
  intros Hc Hm. unfold LogRetainFilter.filter. rewrite Hc, Hm.
  case_bool_decide.
  - destruct (LogRetainFilter._index f) as [|rm rest]; simpl; [done|].
    intros _. by exists rest.
  - intros _. by eexists.
Qed.

Lemma matches_true f record :
  LogRetainFilter.matches f record = true →
  logging.name record = LogRetainFilter.name f ∧
  logging.levelno record = LogRetainFilter.level f.
Proof.
  unfold LogRetainFilter.matches. intros [H1 H2]%andb_true_iff.
  by apply bool_decide_eq_true in H1, H2.
Qed.

Lemma same_key_refl f : same_key f f.
Proof. done. Qed.

Lemma same_key_trans f1 f2 f3 : same_key f1 f2 → same_key f2 f3 → same_key f1 f3.
Proof. unfold same_key. intros (?&?&?&?) (?&?&?&?). split_and!; congruence. Qed.

Lemma matches_same_key f f' record :
  same_key f f' → LogRetainFilter.matches f' record = LogRetainFilter.matches f record.
Proof. intros (_ & Hn & Hl & _). unfold LogRetainFilter.matches. by rewrite Hn, Hl. Qed.

Lemma filter_same_key f n record : same_key f (LogRetainFilter.filter f n record).2.
Proof.
  unfold LogRetainFilter.filter, same_key.
  destruct (LogRetainFilter.cls f) eqn:Hc;
    destruct (LogRetainFilter.matches f record); simpl; try done.
  case_bool_decide; simpl; [|done].
  destruct (LogRetainFilter._index f); simpl; done.
Qed.

(** ** The heap through the loop *)

Lemma same_heap_refl σ : same_heap σ σ.
Proof. done. Qed.

Lemma same_heap_trans σ1 σ2 σ3 : same_heap σ1 σ2 → same_heap σ2 σ3 → same_heap σ1 σ3.
Proof. intros H12 H23 l. by rewrite H23, H12. Qed.

Lemma same_heap_sym σ1 σ2 : same_heap σ1 σ2 → same_heap σ2 σ1.
Proof. intros H12 l. by rewrite H12. Qed.

Lemma same_heap_insert_id (σ : Heap) l : same_heap σ (<[l := σ l]> σ).
Proof.
  intros l'. destruct (decide (l = l')) as [->|Hne].
  - by rewrite fn_lookup_insert.
  - by rewrite fn_lookup_insert_ne.
Qed.

Lemma same_heap_insert (σ σ' : Heap) l f :
  same_heap σ σ' → same_heap (<[l := f]> σ) (<[l := f]> σ').
Proof.
  intros Hs l'. destruct (decide (l = l')) as [->|Hne].
  - by rewrite !fn_lookup_insert.
  - rewrite !fn_lookup_insert_ne by done. apply Hs.
Qed.

Lemma none_matches_same_heap σ σ' record fs :
  same_heap σ σ' → none_matches σ record fs → none_matches σ' record fs.
Proof.
  intros Hs Hno. eapply Forall_impl; [exact Hno|]. intros l Hm. simpl. by rewrite Hs.
Qed.

(** What one iteration does to the heap, and what the flow says about the
    call of [filter]. *)
Lemma filter_step_inv record l σ h fl σ1 h1 :
  filter_step record l σ h = (fl, σ1, h1) →
  let r := LogRetainFilter.filter (σ l) (logSeq h) record in
  σ1 = <[l := r.2]> σ ∧
  match fl with
  | Throw e => True
  | Return => r.1 = Ok (Some (logSeq h)) ∧ h1 = h
  | Continue => ∃ x, r.1 = Ok x
  end.
Proof.
  unfold filter_step.
  destruct (LogRetainFilter.filter (σ l) (logSeq h) record) as [[[x|]|e] f0]; simpl.
  - case_bool_decide.
    + case_bool_decide.
      * intros [= <- <- <-]. subst x. done.
      * destruct (evict _ _ _) as [[[]|?] ?]; intros [= <- <- <-]; split; by eauto.
    + intros [= <- <- <-]. split; by eauto.
  - intros [= <- <- <-]. split; by eauto.
  - by intros [= <- <- <-].
Qed.

Lemma filter_step_heap record l σ h :
  (filter_step record l σ h).1.2
  = <[l := (LogRetainFilter.filter (σ l) (logSeq h) record).2]> σ.
Proof.
  destruct (filter_step record l σ h) as [[fl σ1] h1] eqn:Hs.
  by apply filter_step_inv in Hs as [-> _].
Qed.

Lemma filter_step_nomatch record l σ h :
  LogRetainFilter.matches (σ l) record = false →
  filter_step record l σ h = (Continue, <[l := σ l]> σ, h).
Proof. intros Hm. unfold filter_step. by rewrite (filter_nomatch _ _ _ Hm). Qed.

(** Heaps that hold the same objects make the loop behave the same. *)
Lemma filter_step_proper record l σa σb h :
  same_heap σa σb →
  (filter_step record l σb h).1.1 = (filter_step record l σa h).1.1 ∧
  (filter_step record l σb h).2 = (filter_step record l σa h).2 ∧
  same_heap (filter_step record l σa h).1.2 (filter_step record l σb h).1.2.
Proof.
  intros Hs. rewrite !filter_step_heap. rewrite (Hs l). split_and!.
  - unfold filter_step. rewrite (Hs l).
    destruct (LogRetainFilter.filter (σa l) (logSeq h) record) as [[[x|]|e] f0];
      simpl; try done.
    repeat case_bool_decide; try done. by destruct (evict _ _ _) as [[[]|?] ?].
  - unfold filter_step. rewrite (Hs l).
    destruct (LogRetainFilter.filter (σa l) (logSeq h) record) as [[[x|]|e] f0];
      simpl; try done.
    repeat case_bool_decide; try done. by destruct (evict _ _ _) as [[[]|?] ?].
  - by apply same_heap_insert.
Qed.

Lemma run_filters_proper record fs σa σb h :
  same_heap σa σb →
  (run_filters record fs σb h).1.1 = (run_filters record fs σa h).1.1 ∧
  (run_filters record fs σb h).2 = (run_filters record fs σa h).2 ∧
  same_heap (run_filters record fs σa h).1.2 (run_filters record fs σb h).1.2.
Proof.
  revert σa σb h. induction fs as [|l fs IH]; intros σa σb h Hs; simpl; [done|].
  destruct (filter_step_proper record l σa σb h Hs) as (Hfl & Hh & Hσ).
  destruct (filter_step record l σa h) as [[fla σa1] ha1].
  destruct (filter_step record l σb h) as [[flb σb1] hb1].
  simpl in *. subst flb hb1. destruct fla; simpl; [|done|done].
  by apply IH.
Qed.

Lemma run_filters_app record fs1 fs2 σ h σ1 h1 :
  run_filters record fs1 σ h = (Continue, σ1, h1) →
  run_filters record (fs1 ++ fs2) σ h = run_filters record fs2 σ1 h1.
Proof.
  revert σ h. induction fs1 as [|l fs1 IH]; intros σ h; simpl.
  - by intros [= <- <-].
  - destruct (filter_step record l σ h) as [[fl1 σ0] h0].
    destruct fl1; [|done|done]. apply IH.
Qed.

Lemma run_filters_app_stop record fs1 rest σ h fl σ1 h1 :
  run_filters record fs1 σ h = (fl, σ1, h1) → fl ≠ Continue →
  run_filters record (fs1 ++ rest) σ h = (fl, σ1, h1).
Proof.
  revert σ h. induction fs1 as [|l fs1 IH]; intros σ h; simpl.
  - by intros [= <- <- <-].
  - destruct (filter_step record l σ h) as [[fl1 σ0] h0].
    destruct fl1; [apply IH|done|done].
Qed.

(** The loop passes the objects that do not match without any effect. *)
Lemma run_filters_nomatch record fs σ h :
  none_matches σ record fs →
  ∃ σ', run_filters record fs σ h = (Continue, σ', h) ∧ same_heap σ σ'.
Proof.
  revert σ. induction fs as [|l fs IH]; intros σ Hno; simpl.
  - by exists σ.
  - apply Forall_cons in Hno as [Hm Hno].
    rewrite (filter_step_nomatch _ _ _ _ Hm).
    destruct (IH (<[l := σ l]> σ)) as (σ' & -> & Hs).
    { eapply none_matches_same_heap; [apply same_heap_insert_id|done]. }
    exists σ'. split; [done|]. eapply same_heap_trans; [apply same_heap_insert_id|done].
Qed.

(** The loop changes the objects of its list only, and of an object only
    the FIFO. *)
Lemma run_filters_frame record fs σ h l :
  l ∉ fs → (run_filters record fs σ h).1.2 l = σ l.
Proof.
  revert σ h. induction fs as [|l0 fs IH]; intros σ h Hl; simpl; [done|].
  apply not_elem_of_cons in Hl as [Hne Hl].
  pose proof (filter_step_heap record l0 σ h) as Hσ.
  destruct (filter_step record l0 σ h) as [[fl1 σ1] h1]. simpl in Hσ. subst σ1.
  destruct fl1; simpl.
  - rewrite IH by done. by rewrite fn_lookup_insert_ne.
  - by rewrite fn_lookup_insert_ne.
  - by rewrite fn_lookup_insert_ne.
Qed.

Lemma run_filters_same_key record fs σ h l :
  same_key (σ l) ((run_filters record fs σ h).1.2 l).
Proof.
  revert σ h. induction fs as [|l0 fs IH]; intros σ h; simpl; [done|].
  pose proof (filter_step_heap record l0 σ h) as Hσ.
  destruct (filter_step record l0 σ h) as [[fl1 σ1] h1]. simpl in Hσ.
  assert (same_key (σ l) (σ1 l)) as Hk.
  { subst σ1. destruct (decide (l0 = l)) as [->|Hne].
    - rewrite fn_lookup_insert. apply filter_same_key.
    - by rewrite fn_lookup_insert_ne. }
  destruct fl1; simpl; [|done|done].
  eapply same_key_trans; [exact Hk|apply IH].
Qed.

(** An object that does not match the record is left as it is, wherever
    and however often the chain refers to it. *)
Lemma run_filters_unmatched record fs σ h l :
  LogRetainFilter.matches (σ l) record = false →
  (run_filters record fs σ h).1.2 l = σ l.
Proof.
  revert σ h. induction fs as [|l0 fs IH]; intros σ h Hm; simpl; [done|].
  pose proof (filter_step_heap record l0 σ h) as Hσ.
  destruct (filter_step record l0 σ h) as [[fl1 σ1] h1]. simpl in Hσ.
  assert (σ1 l = σ l) as Hl.
  { subst σ1. destruct (decide (l0 = l)) as [->|Hne].
    - rewrite fn_lookup_insert. by rewrite (filter_nomatch _ _ _ Hm).
    - by rewrite fn_lookup_insert_ne. }
  destruct fl1; simpl; [|done|done].
  rewrite IH; [done|]. by rewrite Hl.
Qed.

(** [emit], given what the loop does. *)
Lemma emit_run format σ h record fl σ1 h1 :
  level h ≤ logging.levelno record →
  run_filters record (_filters h) σ (set_logSeq (logSeq h + 1) h) = (fl, σ1, h1) →
  emit format σ h record
  = match fl with
    | Throw e => (Raise e, σ1, h1)
    | Return => (Ok Suppressed, σ1, h1)
    | Continue => ((retain_record format record h1).1, σ1,
                   (retain_record format record h1).2)
    end.
Proof.
  intros Hle Hr. unfold emit. rewrite bool_decide_eq_true_2 by done.
  cbn [_filters set_logSeq].
  change (mk (retainSetup h) (level h) (logSeq h + 1) (_index h) (_retain h) (_filters h))
    with (set_logSeq (logSeq h + 1) h).
  by rewrite Hr.
Qed.

(** [emit] of a record that no filter object of the chain matches. *)
Lemma emit_nomatch format σ h record :
  level h ≤ logging.levelno record →
  none_matches σ record (_filters h) →
  let r := retain_record format record (set_logSeq (logSeq h + 1) h) in
  ∃ σ', emit format σ h record = (r.1, σ', r.2) ∧ same_heap σ σ'.
Proof.
  intros Hle Hno.
  destruct (run_filters_nomatch record (_filters h) σ (set_logSeq (logSeq h + 1) h) Hno)
    as (σ' & Hr & Hs).
  exists σ'. split; [|done]. by rewrite (emit_run _ _ _ _ _ _ _ Hle Hr).
Qed.

(** When the loop is left by [return], it stopped at a reference whose
    object, in the state the iterations before had left it in, returned
    the current sequence number. *)
Lemma run_filters_Return record fs σ h σ' h' :
  run_filters record fs σ h = (Return, σ', h') →
  ∃ i l σi,
    fs !! i = Some l ∧
    run_filters record (take i fs) σ h = (Continue, σi, h') ∧
    (LogRetainFilter.filter (σi l) (logSeq h) record).1 = Ok (Some (logSeq h)) ∧
    σ' = <[l := (LogRetainFilter.filter (σi l) (logSeq h) record).2]> σi.
Proof.
  revert σ h. induction fs as [|l0 fs IH]; intros σ h; simpl; [done|].
  destruct (filter_step record l0 σ h) as [[fl1 σ1] h1] eqn:Hs.
  pose proof (filter_step_shrinks _ _ _ _ _ _ _ Hs) as (_ & _ & Hn & _).
  destruct fl1.
  - intros Hr. destruct (IH _ _ Hr) as (i & l & σi & Hi & Hpre & Hres & Hσ').
    rewrite Hn in *. exists (S i), l, σi. simpl. rewrite Hs. done.
  - intros [= <- <-]. apply filter_step_inv in Hs as (Hσ1 & Hres & ->).
    exists 0%nat, l0, σ. simpl. done.
  - done.
Qed.

(** After a loop that was not left, every matching object of class
    [LogRetainFilter] that the loop visited has the current sequence
    number at the end of its FIFO. *)
Lemma run_filters_ends_with record fs σ h σ' h' l :
  run_filters record fs σ h = (Continue, σ', h') →
  LogRetainFilter.cls (σ l) = LogRetainFilter.Retain →
  LogRetainFilter.matches (σ l) record = true →
  l ∈ fs ∨ (∃ pre, LogRetainFilter._index (σ l) = pre ++ [logSeq h]) →
  ∃ pre, LogRetainFilter._index (σ' l) = pre ++ [logSeq h].
Proof.
  revert σ h. induction fs as [|l0 fs IH]; intros σ h; simpl.
  - intros [= <- <-] _ _ [Hin|?]; [set_solver|done].
  - destruct (filter_step record l0 σ h) as [[fl1 σ1] h1] eqn:Hs.
    pose proof (filter_step_shrinks _ _ _ _ _ _ _ Hs) as (_ & _ & Hn & _).
    destruct fl1; [|done|done].
    apply filter_step_inv in Hs as (Hσ1 & x & Hx). simpl in Hx.
    intros Hr Hc Hm Hin. rewrite <- Hn. apply (IH _ _ Hr).
    + subst σ1. destruct (decide (l0 = l)) as [->|Hne].
      * rewrite fn_lookup_insert. by destruct (filter_same_key (σ l) (logSeq h) record) as (-> & _).
      * by rewrite fn_lookup_insert_ne.
    + subst σ1. destruct (decide (l0 = l)) as [->|Hne].
      * rewrite fn_lookup_insert.
        by rewrite (matches_same_key _ _ _ (filter_same_key (σ l) (logSeq h) record)).
      * by rewrite fn_lookup_insert_ne.
    + subst σ1. rewrite Hn. destruct (decide (l0 = l)) as [->|Hne].
      * right. rewrite fn_lookup_insert. by eapply filter_retain_appends.
      * rewrite fn_lookup_insert_ne by done.
        destruct Hin as [Hin|?]; [|by right]. left. set_solver.
Qed.

(** * Suppression *)

(** C7: on a reachable handler whose chain holds a reference to a
    matching [LogRetainSuppress] object, with no matching object referred
    to before it, [emit] of a record that passes the threshold only
    advances the counter: the index, every queue, the chain and every
    filter object (those referred to after the suppressing one too,
    whatever they are) are as before, so nothing is evicted and both
    [getLogEntries] and [get] yield what they yielded before.  The
    record's sequence number is in no index and in no queue of any later
    state either. *)
Theorem suppress_filter_discards format σ h record fs1 sup fs2 :
  reachable format h →
  level h ≤ logging.levelno record →
  _filters h = fs1 ++ sup :: fs2 →
  LogRetainFilter.cls (σ sup) = LogRetainFilter.Suppress →
  LogRetainFilter.matches (σ sup) record = true →
  none_matches σ record fs1 →
  let seq := logSeq h + 1 in
  let h' := set_logSeq seq h in
  (∃ σ', emit format σ h record = (Ok Suppressed, σ', h') ∧ same_heap σ σ') ∧
  getLogEntries h' = getLogEntries h ∧
  (∀ mem_alloc mem_free, get mem_alloc mem_free h' = get mem_alloc mem_free h) ∧
  ∀ σ'' ops, (seq ∉ (getLogEntries (exec format ops (σ'', h')).2).*1) ∧
             ¬ queued (exec format ops (σ'', h')).2 seq.
Proof.
  intros Hreach Hle Hfs Hcls Hm Hno seq h'.
  pose proof (reachable_bounded _ _ Hreach) as (H0 & Hk & Hq).
  split_and!; [|done|done|].
  - destruct (run_filters_nomatch record fs1 σ h' Hno) as (σ1 & Hr1 & Hs1).
    exists (<[sup := σ1 sup]> σ1). split.
    + erewrite emit_run; [|done|].
      2:{ rewrite Hfs. rewrite (run_filters_app _ _ _ _ _ _ _ Hr1). simpl.
          unfold filter_step. rewrite (filter_suppress (σ1 sup) (logSeq h') record).
          - simpl. rewrite bool_decide_eq_true_2 by lia.
            rewrite bool_decide_eq_true_2 by done. reflexivity.
          - by rewrite Hs1.
          - by rewrite Hs1. }
      done.
    + eapply same_heap_trans; [exact Hs1|apply same_heap_insert_id].
  - intros σ'' ops. destruct (exec_origin format ops (σ'', h')) as (_ & Ok1 & Oq).
    simpl in Ok1, Oq. split.
    + intros Hin. destruct (Ok1 _ Hin) as [Hin'|Hlt].
      * apply Hk in Hin'. subst seq. lia.
      * subst seq. lia.
    + intros (lvl & q' & Hq' & Hin). destruct (Oq _ _ _ Hq' Hin) as [Hlt|(q & Hqq & Hin')].
      * subst seq. lia.
      * pose proof (Hq _ _ _ Hqq Hin'). subst seq. lia.
Qed.

Lemma suppress_filter_discards_witness :
  let sup := LogRetainFilter.init_suppress "Y" logging.WARNING 10 in
  let after := LogRetainFilter.init "Y" logging.WARNING 1 in
  let σ : Heap := λ l, match l with 0%nat => sup | _ => after end in
  let h0 := mk DEFAULT_RETAIN logging.INFO 0 []
               (map_fold (λ k _ acc, <[k := []]> acc) ∅ DEFAULT_RETAIN) [] in
  let h := (exec logging.plain [AddFilter 0%nat; AddFilter 1%nat; AddFilter 0%nat]
              (σ, h0)).2 in
  let record := logging.mkRecord "Y" logging.WARNING "noise" in
  (∃ σ', emit logging.plain σ h record = (Ok Suppressed, σ', set_logSeq 1 h)
         ∧ same_heap σ σ') ∧
  getLogEntries (set_logSeq 1 h) = getLogEntries h ∧
  (∀ mem_alloc mem_free,
     get mem_alloc mem_free (set_logSeq 1 h) = get mem_alloc mem_free h) ∧
  ∀ σ'' ops, (1 ∉ (getLogEntries (exec logging.plain ops (σ'', set_logSeq 1 h)).2).*1) ∧
             ¬ queued (exec logging.plain ops (σ'', set_logSeq 1 h)).2 1.
Proof.
  intros sup after σ h0 h record.
  apply (suppress_filter_discards logging.plain σ h record [] 0%nat [1%nat; 0%nat]).
  - exists DEFAULT_RETAIN, logging.INFO, h0, σ,
      [AddFilter 0%nat; AddFilter 1%nat; AddFilter 0%nat].
    split; reflexivity.
  - vm_compute. discriminate.
  - reflexivity.
  - reflexivity.
  - reflexivity.
  - constructor.
Defined.

(** C9: when [emit] on a reachable handler leaves by the short-circuit,
    the loop stopped at a reference [l] whose object, in the state that
    the iterations before had left it in, returned the record's own
    sequence number.  The chain is as before and the objects that the loop
    did not reach are untouched.  Every matching object of class
    [LogRetainFilter] referred to before that position ends the call with
    that number as the last entry of its FIFO, while the number is neither
    a key of the index nor a member of any queue. *)
Theorem suppressed_seq_stays_in_earlier_filters format σ h record σ' h' :
  reachable format h →
  emit format σ h record = (Ok Suppressed, σ', h') →
  let seq := logSeq h + 1 in
  ∃ i l σi,
    _filters h !! i = Some l ∧
    (run_filters record (take i (_filters h)) σ (set_logSeq seq h)).1 = (Continue, σi) ∧
    (∀ l', l' ∉ take i (_filters h) → σi l' = σ l') ∧
    (LogRetainFilter.filter (σi l) seq record).1 = Ok (Some seq) ∧
    _filters h' = _filters h ∧
    (∀ l', l' ∉ take (S i) (_filters h) → σ' l' = σ l') ∧
    (∀ j lj, (j < i)%nat → _filters h !! j = Some lj →
       LogRetainFilter.cls (σ lj) = LogRetainFilter.Retain →
       LogRetainFilter.matches (σ lj) record = true →
       ∃ pre, LogRetainFilter._index (σ' lj) = pre ++ [seq] ∧
              seq ∈ LogRetainFilter._index (σ' lj)) ∧
    (seq ∉ index_keys h') ∧ ¬ queued h' seq.
Proof.
  intros Hreach He seq. subst seq.
  pose proof (reachable_bounded _ _ Hreach) as (H0 & Hk & Hq).
  assert (level h ≤ logging.levelno record) as Hle.
  { destruct (decide (level h ≤ logging.levelno record)) as [?|Hn]; [done|].
    unfold emit in He. by rewrite bool_decide_eq_false_2 in He. }
  destruct (run_filters record (_filters h) σ (set_logSeq (logSeq h + 1) h))
    as [[fl σ1] h1] eqn:Hr.
  rewrite (emit_run _ _ _ _ _ _ _ Hle Hr) in He.
  destruct fl; [|injection He as <- <-|done].
  { exfalso. injection He as He _ _. revert He. unfold retain_record, append_seq.
    repeat (case_match; simpl; try done). }
  destruct (run_filters_Return _ _ _ _ _ _ Hr) as (i & l & σi & Hi & Hpre & Hres & Hσ1).
  simpl in Hres, Hσ1.
  apply run_filters_shrinks in Hr as Hs.
  pose proof (shrinks_keys _ _ Hs) as Hsub.
  destruct Hs as (_ & _ & _ & Hfs & _ & _ & Hqs). simpl in *.
  assert (∀ l', l' ∉ take i (_filters h) → σi l' = σ l') as Hframe.
  { intros l' Hl'.
    pose proof (run_filters_frame record _ σ (set_logSeq (logSeq h + 1) h) l' Hl') as Hf.
    by rewrite Hpre in Hf. }
  exists i, l, σi. split_and!; [done|by rewrite Hpre|done|done|done| | | |].
  - intros l' Hl'. rewrite (take_S_r _ _ _ Hi) in Hl'.
    apply not_elem_of_app in Hl' as [Hl1 Hl2].
    rewrite Hσ1, fn_lookup_insert_ne; [by apply Hframe|]. set_solver.
  - intros j lj Hj Hlj Hc Hm.
    assert (∃ pre, LogRetainFilter._index (σi lj) = pre ++ [logSeq h + 1]) as Hend.
    { eapply (run_filters_ends_with record _ σ (set_logSeq (logSeq h + 1) h));
        [exact Hpre|done|done|].
      left. apply list_elem_of_lookup. exists j. by rewrite lookup_take_lt. }
    assert (∃ pre, LogRetainFilter._index (σ1 lj) = pre ++ [logSeq h + 1]) as [pre Hp].
    { rewrite Hσ1. destruct (decide (l = lj)) as [->|Hne].
      - rewrite fn_lookup_insert.
        pose proof (run_filters_same_key record (take i (_filters h)) σ
                      (set_logSeq (logSeq h + 1) h) lj) as Hkey.
        rewrite Hpre in Hkey. simpl in Hkey.
        eapply filter_retain_appends; [| |exact Hres].
        + destruct Hkey as (-> & _). done.
        + by rewrite (matches_same_key _ _ _ Hkey).
      - by rewrite fn_lookup_insert_ne. }
    exists pre. split; [done|]. rewrite Hp. set_solver.
  - intros Hin. unfold index_keys in *. simpl in *.
    pose proof (elem_of_sublist _ _ _ Hin Hsub) as Hin'. apply Hk in Hin'. lia.
  - intros (lvl & q' & Hq' & Hin). simpl in *.
    destruct (Hqs _ _ Hq') as (q & Hqq & Hsubq).
    pose proof (Hq _ _ _ Hqq (elem_of_sublist _ _ _ Hin Hsubq)). lia.
Qed.

Lemma suppressed_seq_stays_in_earlier_filters_witness :
  let keep := LogRetainFilter.init "Y" logging.WARNING 5 in
  let sup := LogRetainFilter.init_suppress "Y" logging.WARNING 10 in
  let σ : Heap := λ l, match l with 0%nat => keep | _ => sup end in
  let h0 := mk DEFAULT_RETAIN logging.INFO 0 []
               (map_fold (λ k _ acc, <[k := []]> acc) ∅ DEFAULT_RETAIN) [] in
  let h := (exec logging.plain [AddFilter 0%nat; AddFilter 0%nat; AddFilter 1%nat]
              (σ, h0)).2 in
  let record := logging.mkRecord "Y" logging.WARNING "noise" in
  let r := emit logging.plain σ h record in
  ∃ i l σi,
    _filters h !! i = Some l ∧
    (run_filters record (take i (_filters h)) σ (set_logSeq 1 h)).1 = (Continue, σi) ∧
    (∀ l', l' ∉ take i (_filters h) → σi l' = σ l') ∧
    (LogRetainFilter.filter (σi l) 1 record).1 = Ok (Some 1) ∧
    _filters r.2 = _filters h ∧
    (∀ l', l' ∉ take (S i) (_filters h) → r.1.2 l' = σ l') ∧
    (∀ j lj, (j < i)%nat → _filters h !! j = Some lj →
       LogRetainFilter.cls (σ lj) = LogRetainFilter.Retain →
       LogRetainFilter.matches (σ lj) record = true →
       ∃ pre, LogRetainFilter._index (r.1.2 lj) = pre ++ [1] ∧
              1 ∈ LogRetainFilter._index (r.1.2 lj)) ∧
    (1 ∉ index_keys r.2) ∧ ¬ queued r.2 1.
Proof.
  intros keep sup σ h0 h record r.
  apply (suppressed_seq_stays_in_earlier_filters logging.plain σ h record r.1.2 r.2).
  - exists DEFAULT_RETAIN, logging.INFO, h0, σ,
      [AddFilter 0%nat; AddFilter 0%nat; AddFilter 1%nat].
    split; reflexivity.
  - reflexivity.
Defined.

(** * Eviction targets that are not retained *)

Lemma odpop_absent k d : k ∉ OrderedDict.keys d → OrderedDict.pop k d = Raise KeyError.
Proof.
  intros Hn. destruct (OrderedDict.pop k d) as [[v d']|e] eqn:Hp.
  - apply odpop_Ok in Hp as (d1 & d2 & -> & _). exfalso. apply Hn.
    unfold OrderedDict.keys. rewrite fmap_app, fmap_cons. set_solver.
  - by apply odpop_Raise in Hp as [-> _].
Qed.

(** C5: what [emit] does when a filter object returns an eviction target
    [x] (not 0, not the record's own number) that the queue of the
    record's level does not hold, the references before it having been
    passed without leaving the loop.  [lvlRecs.index(toRemove)] raises
    [ValueError]; the [try] around it has a [finally: pass] clause and no
    [except] clause, so the exception leaves [emit].  The handler is left
    as the iterations before had left it, with the advanced counter: the
    record is not stored, the references after this one are not visited,
    and the filter object keeps the update of its FIFO. *)
Theorem missing_eviction_target_raises format σ h record fs1 l fs2 σ1 h1 x q :
  level h ≤ logging.levelno record →
  _filters h = fs1 ++ l :: fs2 →
  run_filters record fs1 σ (set_logSeq (logSeq h + 1) h) = (Continue, σ1, h1) →
  (LogRetainFilter.filter (σ1 l) (logSeq h + 1) record).1 = Ok (Some x) →
  x ≠ 0 → x ≠ logSeq h + 1 →
  _retain h1 !! logging.levelno record = Some q →
  x ∉ q →
  emit format σ h record
  = (Raise ValueError,
     <[l := (LogRetainFilter.filter (σ1 l) (logSeq h + 1) record).2]> σ1, h1) ∧
  logSeq h1 = logSeq h + 1 ∧
  _index h1 `sublist_of` _index h ∧
  _filters h1 = _filters h.
Proof.
  intros Hle Hfs Hpre Hf Hx0 Hxn Hq Hmiss.
  pose proof (run_filters_shrinks _ _ _ _ _ _ _ Hpre) as (_ & _ & Hn & Hfs1 & _ & Hsub & _).
  simpl in Hn, Hfs1, Hsub. split; [|done].
  assert (run_filters record (_filters h) σ (set_logSeq (logSeq h + 1) h)
          = (Throw ValueError,
             <[l := (LogRetainFilter.filter (σ1 l) (logSeq h + 1) record).2]> σ1, h1))
    as Hr.
  { rewrite Hfs, (run_filters_app _ _ _ _ _ _ _ Hpre). simpl.
    unfold filter_step. rewrite Hn.
    destruct (LogRetainFilter.filter (σ1 l) (logSeq h + 1) record) as [res f'].
    simpl in Hf. subst res. simpl.
    rewrite bool_decide_eq_true_2 by done.
    rewrite bool_decide_eq_false_2 by done.
    unfold evict. by rewrite Hq, (index_absent _ _ Hmiss). }
  by rewrite (emit_run _ _ _ _ _ _ _ Hle Hr).
Qed.

Lemma missing_eviction_target_raises_witness :
  let σ0 : Heap := λ _, LogRetainFilter.init "a" logging.INFO 2 in
  let h0 := mk {[logging.INFO := 1]} logging.INFO 0 [] {[logging.INFO := []]} [] in
  let r := logging.mkRecord "a" logging.INFO "m" in
  let w := exec logging.plain [AddFilter 0%nat; Emit r; Emit r] (σ0, h0) in
  let h1 := set_logSeq 3 w.2 in
  getLogEntries w.2 = [(2, "m")] ∧
  emit logging.plain w.1 w.2 r
  = (Raise ValueError,
     <[0%nat := (LogRetainFilter.filter (w.1 0%nat) (logSeq w.2 + 1) r).2]> w.1, h1) ∧
  logSeq h1 = logSeq w.2 + 1 ∧
  _index h1 `sublist_of` _index w.2 ∧
  _filters h1 = _filters w.2.
Proof.
  intros σ0 h0 r w h1. split; [reflexivity|].
  apply (missing_eviction_target_raises logging.plain w.1 w.2 r [] 0%nat [] w.1 h1 1 [2]).
  - vm_compute. discriminate.
  - reflexivity.
  - reflexivity.
  - reflexivity.
  - lia.
  - by vm_compute.
  - reflexivity.
  - rewrite list_elem_of_singleton. lia.
Defined.

(** * Evaluating [emit] step by step *)

(** The equations below compute one call on a handler given by its
    fields, for the paths that retain the record. *)

Lemma evict_eval cfg lv n d ret fs lvl x q i q' v d' :
  ret !! lvl = Some q →
  PyList.index x q = Ok i →
  delete i q = q' →
  OrderedDict.pop x d = Ok (v, d') →
  evict lvl x (mk cfg lv n d ret fs) = (Ok (), mk cfg lv n d' (<[lvl := q']> ret) fs).
Proof.
  intros Hq Hi Hd Hp. unfold evict. cbn [_retain]. rewrite Hq, Hi.
  unfold PyList.pop. destruct (index_Ok _ _ _ Hi) as (l1 & l2 & -> & _ & -> & Hdel).
  rewrite list_lookup_middle by done. cbn [set_retain _index retainSetup level logSeq _retain _filters].
  rewrite Hp. cbn [set_index retainSetup level logSeq _retain _filters]. by rewrite Hd.
Qed.

Lemma retain_record_append format cfg lv n d ret fs record q c text d1 :
  format record = Ok text →
  ret !! logging.levelno record = Some q →
  cfg !! logging.levelno record = Some c →
  PyList.len q < c →
  OrderedDict.setitem n text d = d1 →
  retain_record format record (mk cfg lv n d ret fs)
    = (Ok Retained, mk cfg lv n d1 (<[logging.levelno record := q ++ [n]]> ret) fs).
Proof.
  intros Hf Hq Hc Hlt Hd. unfold retain_record, append_seq. rewrite Hf.
  cbn [set_index set_retain retainSetup level logSeq _index _retain _filters].
  rewrite Hq, Hc, Hd. rewrite bool_decide_eq_false_2 by lia. done.
Qed.

Lemma retain_record_rotate format cfg lv n d ret fs record rm q c text d1 v d2 :
  format record = Ok text →
  ret !! logging.levelno record = Some (rm :: q) →
  cfg !! logging.levelno record = Some c →
  c ≤ PyList.len (rm :: q) →
  OrderedDict.setitem n text d = d1 →
  OrderedDict.pop rm d1 = Ok (v, d2) →
  retain_record format record (mk cfg lv n d ret fs)
    = (Ok Retained, mk cfg lv n d2 (<[logging.levelno record := q ++ [n]]> ret) fs).
Proof.
  intros Hf Hq Hc Hle Hd Hp. unfold retain_record, append_seq. rewrite Hf.
  cbn [set_index set_retain retainSetup level logSeq _index _retain _filters].
  rewrite Hq, Hc, Hd. rewrite bool_decide_eq_true_2 by done.
  cbn [PyList.pop0 set_index set_retain retainSetup level logSeq _index _retain _filters].
  rewrite Hp. cbn [set_index set_retain retainSetup level logSeq _index _retain _filters].
  by rewrite insert_insert_eq.
Qed.

(** One call of [emit] on a handler without filters. *)
Lemma emit_append format σ cfg lv n d ret record q c text d1 :
  format record = Ok text →
  lv ≤ logging.levelno record →
  ret !! logging.levelno record = Some q →
  cfg !! logging.levelno record = Some c →
  PyList.len q < c →
  OrderedDict.setitem (n + 1) text d = d1 →
  emit format σ (mk cfg lv n d ret []) record
    = (Ok Retained, σ,
       mk cfg lv (n + 1) d1 (<[logging.levelno record := q ++ [n + 1]]> ret) []).
Proof.
  intros Hf Hle Hq Hc Hlt Hd.
  erewrite emit_run; [|done|reflexivity]. unfold set_logSeq.
  cbn [retainSetup level logSeq _index _retain _filters].
  by erewrite retain_record_append.
Qed.

Lemma emit_rotate format σ cfg lv n d ret record rm q c text d1 v d2 :
  format record = Ok text →
  lv ≤ logging.levelno record →
  ret !! logging.levelno record = Some (rm :: q) →
  cfg !! logging.levelno record = Some c →
  c ≤ PyList.len (rm :: q) →
  OrderedDict.setitem (n + 1) text d = d1 →
  OrderedDict.pop rm d1 = Ok (v, d2) →
  emit format σ (mk cfg lv n d ret []) record
    = (Ok Retained, σ,
       mk cfg lv (n + 1) d2 (<[logging.levelno record := q ++ [n + 1]]> ret) []).
Proof.
  intros Hf Hle Hq Hc Hlt Hd Hp.
  erewrite emit_run; [|done|reflexivity]. unfold set_logSeq.
  cbn [retainSetup level logSeq _index _retain _filters].
  by erewrite retain_record_rotate.
Qed.

(** * Chronological order across levels *)

(** C3: on a fresh handler without filters, with levels [A] and [B] of
    capacity 2 that both pass the threshold, the records A1, B1, A2, B2,
    A3, which the formatter renders, leave the queue of [A] holding the
    numbers of A2 and A3, the queue of [B] those of B1 and B2, and
    [getLogEntries] yields B1 (2), A2 (3), B2 (4), A3 (5), in that
    order. *)
Theorem chronological_order_example format retain lvl h0 σ0 A B
    a1 b1 a2 b2 a3 ta1 tb1 ta2 tb2 ta3 :
  init retain lvl = Ok h0 →
  A ≠ B →
  retain !! A = Some 2 → retain !! B = Some 2 →
  lvl ≤ A → lvl ≤ B →
  Forall (λ r, logging.levelno r = A) [a1; a2; a3] →
  Forall (λ r, logging.levelno r = B) [b1; b2] →
  Forall2 (λ r text, format r = Ok text) [a1; b1; a2; b2; a3] [ta1; tb1; ta2; tb2; ta3] →
  let h := (exec format [Emit a1; Emit b1; Emit a2; Emit b2; Emit a3] (σ0, h0)).2 in
  _retain h !! A = Some [3; 5] ∧
  _retain h !! B = Some [2; 4] ∧
  getLogEntries h = [(2, tb1); (3, ta2); (4, tb2); (5, ta3)].
Proof.
  intros [= <-] Hne HA HB HlA HlB HAs HBs Hfmt.
  apply Forall_cons in HAs as [La1 HAs]. apply Forall_cons in HAs as [La2 HAs].
  apply Forall_cons in HAs as [La3 _].
  apply Forall_cons in HBs as [Lb1 HBs]. apply Forall_cons in HBs as [Lb2 _].
  apply Forall2_cons in Hfmt as [Fa1 Hfmt]. apply Forall2_cons in Hfmt as [Fb1 Hfmt].
  apply Forall2_cons in Hfmt as [Fa2 Hfmt]. apply Forall2_cons in Hfmt as [Fb2 Hfmt].
  apply Forall2_cons in Hfmt as [Fa3 _].
  pose proof (init_retain_lookup retain A) as HA0. rewrite HA in HA0.
  pose proof (init_retain_lookup retain B) as HB0. rewrite HB in HB0.
  simpl in HA0, HB0. set (R0 := map_fold _ _ _) in *. clearbody R0.
  cbn [exec foldl apply_op fst snd].
  rewrite (emit_append format σ0 retain lvl 0 [] R0 a1 [] 2 ta1 [(1, ta1)]);
    [|done|lia|by rewrite La1|by rewrite La1|by vm_compute|done].
  cbn [fst snd]. rewrite La1.
  rewrite (emit_append format σ0 retain lvl (0 + 1) _ _ b1 [] 2 tb1
             [(1, ta1); (2, tb1)]);
    [|done|lia|by rewrite Lb1, lookup_insert_ne|by rewrite Lb1|by vm_compute|done].
  cbn [fst snd]. rewrite Lb1.
  rewrite (emit_append format σ0 retain lvl (0 + 1 + 1) _ _ a2 [1] 2 ta2
             [(1, ta1); (2, tb1); (3, ta2)]);
    [|done|lia|by rewrite La2, lookup_insert_ne, lookup_insert_eq|by rewrite La2
     |by vm_compute|done].
  cbn [fst snd]. rewrite La2.
  rewrite (emit_append format σ0 retain lvl (0 + 1 + 1 + 1) _ _ b2 [2] 2 tb2
             [(1, ta1); (2, tb1); (3, ta2); (4, tb2)]);
    [|done|lia|by rewrite Lb2, lookup_insert_ne, lookup_insert_eq|by rewrite Lb2
     |by vm_compute|done].
  cbn [fst snd]. rewrite Lb2.
  rewrite (emit_rotate format σ0 retain lvl (0 + 1 + 1 + 1 + 1) _ _ a3 1 [3] 2 ta3
             [(1, ta1); (2, tb1); (3, ta2); (4, tb2); (5, ta3)] ta1
             [(2, tb1); (3, ta2); (4, tb2); (5, ta3)]);
    [|done|lia|by rewrite La3, lookup_insert_ne, lookup_insert_eq|by rewrite La3
     |by vm_compute|done|done].
  cbn [fst snd _retain getLogEntries _index]. rewrite La3.
  split_and!.
  - by rewrite lookup_insert_eq.
  - by rewrite lookup_insert_ne, lookup_insert_eq.
  - done.
Qed.

Lemma chronological_order_example_witness :
  let A := logging.INFO in
  let B := logging.ERROR in
  let a n := logging.mkRecord "a" A n in
  let b n := logging.mkRecord "b" B n in
  let retain : gmap Z Z := {[A := 2; B := 2; logging.WARNING := 20]} in
  let h0 := mk retain logging.DEBUG 0 []
               (map_fold (λ k _ acc, <[k := []]> acc) ∅ retain) [] in
  let σ0 : Heap := λ _, LogRetainFilter.init "a" A 1 in
  let h := (exec logging.plain [Emit (a "A1"); Emit (b "B1"); Emit (a "A2");
                                Emit (b "B2"); Emit (a "A3")] (σ0, h0)).2 in
  _retain h !! A = Some [3; 5] ∧
  _retain h !! B = Some [2; 4] ∧
  getLogEntries h = [(2, "B1"); (3, "A2"); (4, "B2"); (5, "A3")].
Proof.
  intros A B a b retain h0 σ0.
  apply (chronological_order_example logging.plain retain logging.DEBUG h0 σ0 A B
           (a "A1") (b "B1") (a "A2") (b "B2") (a "A3") "A1" "B1" "A2" "B2" "A3").
  - reflexivity.
  - vm_compute. discriminate.
  - reflexivity.
  - reflexivity.
  - vm_compute. discriminate.
  - vm_compute. discriminate.
  - repeat constructor.
  - repeat constructor.
  - repeat constructor.
Defined.

(** * The filter of class [LogRetainFilter] *)

Lemma matches_key nm L c fifo record :
  logging.name record = nm → logging.levelno record = L →
  LogRetainFilter.matches (LogRetainFilter.mk LogRetainFilter.Retain nm L c fifo) record
    = true.
Proof.
  intros Hn Hl. unfold LogRetainFilter.matches. simpl.
  by rewrite !bool_decide_eq_true_2.
Qed.

(** A handler whose chain refers once to an object of capacity 1 that
    holds the only entry of the level's queue and of the index: the first
    matching record is appended everywhere. *)
Lemma emit_filter_first format (σ : Heap) retain lvl n ret nm L C l record text :
  σ l = LogRetainFilter.mk LogRetainFilter.Retain nm L 1 [] →
  format record = Ok text →
  logging.name record = nm → logging.levelno record = L →
  lvl ≤ L → retain !! L = Some C → 1 ≤ C →
  ret !! L = Some [] →
  emit format σ (mk retain lvl n [] ret [l]) record
  = (Ok Retained,
     <[l := LogRetainFilter.mk LogRetainFilter.Retain nm L 1 [n + 1]]> σ,
     mk retain lvl (n + 1) [(n + 1, text)] (<[L := [n + 1]]> ret) [l]).
Proof.
  intros Hσ Hf Hn Hl Hle HC Hpos Hq.
  erewrite emit_run; [|simpl; lia|].
  2:{ simpl. unfold filter_step, LogRetainFilter.filter. rewrite Hσ. simpl.
      rewrite (matches_key nm L 1 [] record Hn Hl). simpl. reflexivity. }
  unfold set_logSeq. cbn [retainSetup level logSeq _index _retain _filters].
  erewrite (retain_record_append _ _ _ _ _ _ _ _ [] C text [(n + 1, text)]);
    [|done|by rewrite Hl|by rewrite Hl|unfold PyList.len; simpl; lia|done].
  simpl. by rewrite Hl.
Qed.

(** The next matching record takes the place of the entry [x] everywhere. *)
Lemma emit_filter_capacity_one format (σ : Heap) retain lvl n x v ret nm L C l record text :
  σ l = LogRetainFilter.mk LogRetainFilter.Retain nm L 1 [x] →
  format record = Ok text →
  logging.name record = nm → logging.levelno record = L →
  lvl ≤ L → retain !! L = Some C → 1 ≤ C →
  x ≠ 0 → x ≠ n + 1 →
  ret !! L = Some [x] →
  emit format σ (mk retain lvl n [(x, v)] ret [l]) record
  = (Ok Retained,
     <[l := LogRetainFilter.mk LogRetainFilter.Retain nm L 1 [n + 1]]> σ,
     mk retain lvl (n + 1) [(n + 1, text)] (<[L := [n + 1]]> ret) [l]).
Proof.
  intros Hσ Hf Hn Hl Hle HC Hpos Hx0 Hxn Hq.
  erewrite emit_run; [|simpl; lia|].
  2:{ unfold set_logSeq. cbn [retainSetup level logSeq _index _retain _filters run_filters].
      unfold filter_step, LogRetainFilter.filter. rewrite Hσ.
      cbn [LogRetainFilter.cls LogRetainFilter.count LogRetainFilter._index logSeq].
      rewrite (matches_key nm L 1 [x] record Hn Hl).
      rewrite bool_decide_eq_true_2 by (unfold PyList.len; simpl; lia).
      cbn [PyList.pop0 app].
      rewrite bool_decide_eq_true_2 by done. rewrite bool_decide_eq_false_2 by done.
      rewrite Hl.
      rewrite (evict_eval _ _ _ _ _ _ _ _ [x] 0%nat [] v []); [reflexivity|done| |done|].
      - simpl. by rewrite decide_True.
      - simpl. by rewrite decide_True. }
  unfold set_logSeq. cbn [retainSetup level logSeq _index _retain _filters].
  erewrite (retain_record_append _ _ _ _ _ _ _ _ [] C text [(n + 1, text)]);
    [|done|by rewrite Hl, lookup_insert_eq|by rewrite Hl|unfold PyList.len; simpl; lia|done].
  simpl. rewrite Hl. by rewrite insert_insert_eq.
Qed.

(** C8 fails as stated for a capacity below 1: the FIFO of a new filter of
    capacity 0 already holds "at least capacity" entries, yet on a matching
    record [filter] neither returns an entry nor appends the number; it
    raises [IndexError] at [self._index.pop(0)]. *)
Lemma retain_filter_zero_capacity_counterexample :
  let f := LogRetainFilter.init "X" logging.INFO 0 in
  let record := logging.mkRecord "X" logging.INFO "m" in
  LogRetainFilter.matches f record = true ∧
  LogRetainFilter.count f ≤ PyList.len (LogRetainFilter._index f) ∧
  LogRetainFilter.filter f 1 record = (Raise IndexError, f).
Proof. split_and!; [reflexivity|by vm_compute|reflexivity]. Qed.

(** C8, amended.  A filter of class [LogRetainFilter] returns nothing on a
    record that does not match and leaves its FIFO as it is.  On a
    matching record, when its capacity is at least 1 or its FIFO is not
    empty, it returns the oldest buffered number exactly when the FIFO
    holds at least [count] entries (that entry is removed), nothing
    otherwise, and in both cases the record's number is appended after the
    test.  Consequently, on a fresh handler with one reference to a new
    such filter of capacity 1 and a level capacity of at least 1, three
    matching records, which the formatter renders, leave only the third
    retained. *)
Theorem retain_filter_semantics :
  (∀ f n record,
     LogRetainFilter.cls f = LogRetainFilter.Retain →
     LogRetainFilter.matches f record = false →
     LogRetainFilter.filter f n record = (Ok None, f)) ∧
  (∀ f n record,
     LogRetainFilter.cls f = LogRetainFilter.Retain →
     LogRetainFilter.matches f record = true →
     1 ≤ LogRetainFilter.count f ∨ LogRetainFilter._index f ≠ [] →
     let fifo := LogRetainFilter._index f in
     let full := bool_decide (LogRetainFilter.count f ≤ PyList.len fifo) in
     LogRetainFilter.filter f n record
       = (Ok (if full then head fifo else None),
          LogRetainFilter.set_index ((if full then tail fifo else fifo) ++ [n]) f) ∧
     (full = true → is_Some (head fifo))) ∧
  (∀ format retain lvl h0 (σ0 : Heap) l nm L C r1 r2 r3 t1 t2 t3,
     init retain lvl = Ok h0 →
     σ0 l = LogRetainFilter.init nm L 1 →
     retain !! L = Some C → 1 ≤ C → lvl ≤ L →
     Forall (λ r, logging.name r = nm ∧ logging.levelno r = L) [r1; r2; r3] →
     Forall2 (λ r text, format r = Ok text) [r1; r2; r3] [t1; t2; t3] →
     let w := exec format [AddFilter l; Emit r1; Emit r2; Emit r3] (σ0, h0) in
     getLogEntries w.2 = [(3, t3)] ∧ _retain w.2 !! L = Some [3] ∧
     LogRetainFilter._index (w.1 l) = [3]).
Proof.
  split_and!.
  - intros f n record _ Hm. by apply filter_nomatch.
  - intros f n record Hc Hm Hcap fifo full. subst fifo full.
    unfold LogRetainFilter.filter. rewrite Hc, Hm.
    case_bool_decide as Hfull.
    + destruct (LogRetainFilter._index f) as [|x rest] eqn:Hi.
      * exfalso. unfold PyList.len in Hfull. simpl in Hfull.
        destruct Hcap as [?|?]; [lia|done].
      * simpl. split; [done|]. intros _. by eexists.
    + split; [done|]. intros [=].
  - intros format retain lvl h0 σ0 l nm L C r1 r2 r3 t1 t2 t3 [= <-] Hσ HC Hpos Hle Hrs Hfmt.
    apply Forall_cons in Hrs as [[N1 L1] Hrs].
    apply Forall_cons in Hrs as [[N2 L2] Hrs].
    apply Forall_cons in Hrs as [[N3 L3] _].
    apply Forall2_cons in Hfmt as [F1 Hfmt]. apply Forall2_cons in Hfmt as [F2 Hfmt].
    apply Forall2_cons in Hfmt as [F3 _].
    pose proof (init_retain_lookup retain L) as H0. rewrite HC in H0. simpl in H0.
    set (R0 := map_fold _ _ _) in *. clearbody R0.
    cbn [exec foldl apply_op fst snd].
    change (addFilter (mk retain lvl 0 [] R0 []) l) with (mk retain lvl 0 [] R0 [l]).
    rewrite (emit_filter_first format σ0 retain lvl 0 R0 nm L C l r1 t1); try done.
    cbn [fst snd].
    rewrite (emit_filter_capacity_one format _ retain lvl (0 + 1) (0 + 1) t1
               _ nm L C l r2 t2);
      [|by rewrite fn_lookup_insert|done|done|done|done|done|done|lia|lia
       |by rewrite lookup_insert_eq].
    cbn [fst snd].
    rewrite (emit_filter_capacity_one format _ retain lvl (0 + 1 + 1) (0 + 1 + 1) t2
               _ nm L C l r3 t3);
      [|by rewrite fn_lookup_insert|done|done|done|done|done|done|lia|lia
       |by rewrite lookup_insert_eq].
    cbn [fst snd getLogEntries _index _retain].
    split_and!; [done|by rewrite lookup_insert_eq|by rewrite fn_lookup_insert].
Qed.

Lemma retain_filter_semantics_witness :
  let f := LogRetainFilter.mk LogRetainFilter.Retain "X" logging.INFO 1 [4] in
  let record := logging.mkRecord "X" logging.INFO "m" in
  let retain : gmap Z Z := {[logging.INFO := 50]} in
  let h0 := mk retain logging.INFO 0 [] {[logging.INFO := []]} [] in
  let σ0 : Heap := λ _, LogRetainFilter.init "X" logging.INFO 1 in
  let w := exec logging.plain [AddFilter 7%nat; Emit record; Emit record; Emit record]
             (σ0, h0) in
  LogRetainFilter.filter f 5 record = (Ok (Some 4), LogRetainFilter.set_index [5] f) ∧
  getLogEntries w.2 = [(3, "m")] ∧ _retain w.2 !! logging.INFO = Some [3] ∧
  LogRetainFilter._index (w.1 7%nat) = [3].
Proof.
  intros f record retain h0 σ0 w.
  destruct retain_filter_semantics as (_ & Hmatch & Hscen).
  split.
  - apply (Hmatch f 5 record); [reflexivity|reflexivity|left; simpl; lia].
  - apply (Hscen logging.plain retain logging.INFO h0 σ0 7%nat "X" logging.INFO 50
             record record record "m" "m" "m");
      [reflexivity|reflexivity|reflexivity|lia|reflexivity|repeat constructor
      |repeat constructor].
Defined.

(** * Index consistency *)

Lemma StronglySorted_sublist (l1 l2 : list Z) :
  l1 `sublist_of` l2 → StronglySorted Z.lt l2 → StronglySorted Z.lt l1.
Proof.
  induction 1 as [|x l1 l2 Hs IH|x l1 l2 Hs IH]; [done| |].
  - rewrite !StronglySorted_cons. intros [Hx Hl]. split; [|by apply IH].
    rewrite Forall_forall in *. intros y Hy. apply Hx. by eapply elem_of_sublist.
  - rewrite StronglySorted_cons. intros [_ Hl]. by apply IH.
Qed.

Lemma StronglySorted_lt_NoDup (l : list Z) : StronglySorted Z.lt l → NoDup l.
Proof.
  induction l as [|x l IH]; [constructor|].
  rewrite StronglySorted_cons, NoDup_cons, Forall_forall.
  intros [Hx Hl]. split; [|by apply IH]. intros Hin. specialize (Hx _ Hin). lia.
Qed.

Lemma StronglySorted_snoc (l : list Z) (n : Z) :
  StronglySorted Z.lt l → (∀ s, s ∈ l → s < n) → StronglySorted Z.lt (l ++ [n]).
Proof.
  intros Hl Hn. apply StronglySorted_app. split_and!; [|done|repeat constructor].
  intros x1 x2 H1 ->%list_elem_of_singleton. by apply Hn.
Qed.

Lemma elem_of_app_middle (l1 l2 : list Z) (x s : Z) :
  NoDup (l1 ++ x :: l2) → (s ∈ l1 ++ l2 ↔ s ∈ l1 ++ x :: l2 ∧ s ≠ x).
Proof.
  rewrite NoDup_app, NoDup_cons. intros (_ & H1 & H2 & _).
  rewrite !elem_of_app, elem_of_cons. split.
  - intros [Hin|Hin]; (split; [tauto|]); intros ->; [|done].
    apply (H1 x Hin). by left.
  - intros [[?|[?|?]] ?]; tauto.
Qed.

Lemma odpop_app_l k d v d' e :
  OrderedDict.pop k d = Ok (v, d') → OrderedDict.pop k (d ++ e) = Ok (v, d' ++ e).
Proof.
  revert d'. induction d as [|[k' v'] d IH]; intros d'; simpl; [done|].
  destruct (decide (k' = k)) as [->|Hne]; [by intros [= -> ->]|].
  destruct (OrderedDict.pop k d) as [[v0 d0]|] eqn:Hp; [|done].
  intros [= -> <-]. by rewrite (IH d0 eq_refl).
Qed.

Lemma odpop_present k d :
  k ∈ OrderedDict.keys d → ∃ v d', OrderedDict.pop k d = Ok (v, d').
Proof.
  intros Hin. destruct (OrderedDict.pop k d) as [[v d']|e] eqn:Hp; [by eauto|].
  by apply odpop_Raise in Hp as [_ ?].
Qed.

(** A property of the handler that every removal keeps is kept by the loop
    over the filters. *)
Lemma run_filters_preserves (P : t → Prop) record fs σ h :
  (∀ lvl x h0, P h0 → P (evict lvl x h0).2) →
  P h → P (run_filters record fs σ h).2.
Proof.
  intros Hev. revert σ h. induction fs as [|l fs IH]; intros σ h HP; simpl; [done|].
  assert (P (filter_step record l σ h).2) as HP1.
  { unfold filter_step.
    destruct (LogRetainFilter.filter (σ l) (logSeq h) record) as [[[x|]|e] f0]; simpl;
      [|done|done].
    repeat case_bool_decide; simpl; try done.
    specialize (Hev (logging.levelno record) x h HP).
    by destruct (evict _ _ _) as [[[]|?] ?]. }
  destruct (filter_step record l σ h) as [[fl1 σ1] h1]. simpl in HP1.
  destruct fl1; [|done|done]. by apply IH.
Qed.

(** Removing a queued number from its queue and from the index. *)
Lemma evict_coherent b lvl x h : coherent b h → coherent b (evict lvl x h).2.
Proof.
  intros (C1 & C2 & C3 & C4 & C5 & C6 & C7). unfold evict.
  destruct (_retain h !! lvl) as [q|] eqn:Hq; [|done].
  destruct (PyList.index x q) as [i|e] eqn:Hi; [|done].
  rewrite (pop_at_index _ _ _ Hi). simpl.
  destruct (index_Ok _ _ _ Hi) as (l1 & l2 & -> & Hx1 & -> & Hdel). rewrite Hdel.
  assert (x ∈ index_keys h) as Hxk.
  { apply C2. exists lvl, (l1 ++ x :: l2). split; [done|set_solver]. }
  destruct (OrderedDict.pop x (_index h)) as [[v d]|e] eqn:Hp.
  2:{ apply odpop_Raise in Hp as [_ ?]. done. }
  simpl. apply odpop_Ok in Hp as (d1 & d2 & Hidx & -> & Hxd1).
  assert (index_keys h = d1.*1 ++ x :: d2.*1) as Hkeys.
  { unfold index_keys, OrderedDict.keys. by rewrite Hidx, fmap_app, fmap_cons. }
  pose proof (StronglySorted_lt_NoDup _ C1) as Hnd. rewrite Hkeys in Hnd.
  pose proof (C4 _ _ Hq) as Hndq.
  assert (∀ s, s ∈ (d1 ++ d2).*1 ↔ s ∈ index_keys h ∧ s ≠ x) as Hk'.
  { intros s. rewrite fmap_app, Hkeys. by apply elem_of_app_middle. }
  assert (∀ s, s ∈ l1 ++ l2 ↔ s ∈ l1 ++ x :: l2 ∧ s ≠ x) as Hq'.
  { intros s. by apply elem_of_app_middle. }
  unfold coherent, index_keys, OrderedDict.keys, queued; simpl. split_and!.
  - eapply StronglySorted_sublist; [|exact C1]. rewrite Hkeys, fmap_app.
    apply sublist_app; [done|]. by apply sublist_cons.
  - intros s. rewrite Hk', C2. unfold queued. split.
    + intros [(l0 & q0 & Hq0 & Hin) Hne]. destruct (decide (l0 = lvl)) as [->|Hl].
      * rewrite Hq in Hq0. injection Hq0 as <-.
        exists lvl, (l1 ++ l2). rewrite lookup_insert_eq. split; [done|].
        apply Hq'. done.
      * exists l0, q0. by rewrite lookup_insert_ne.
    + intros (l0 & q0 & Hq0 & Hin). rewrite lookup_insert in Hq0.
      case_decide as Hl.
      * subst l0. injection Hq0 as <-. apply Hq' in Hin as [Hin Hne].
        split; [|done]. by exists lvl, (l1 ++ x :: l2).
      * split; [by exists l0, q0|]. intros ->. apply Hl.
        apply (C5 lvl l0 (l1 ++ x :: l2) q0 x); [done|done| |done]. set_solver.
  - intros s [Hin _]%Hk'. by apply C3.
  - intros l0 q0. rewrite lookup_insert. case_decide as Hl.
    + intros [= <-]. eapply sublist_NoDup; [exact Hndq|].
      apply sublist_app; [done|]. by apply sublist_cons.
    + apply C4.
  - assert (∀ l0 q0 s, <[lvl:=l1 ++ l2]> (_retain h) !! l0 = Some q0 → s ∈ q0 →
              ∃ q1, _retain h !! l0 = Some q1 ∧ s ∈ q1) as Hold.
    { intros l0 q0 s. rewrite lookup_insert. case_decide as Hl.
      - subst l0. intros [= <-] [Hin _]%Hq'. by exists (l1 ++ x :: l2).
      - intros Hq0 Hin. by exists q0. }
    intros la lb qa qb s Ha Hb Hina Hinb.
    destruct (Hold _ _ _ Ha Hina) as (qa' & Ha' & Hina').
    destruct (Hold _ _ _ Hb Hinb) as (qb' & Hb' & Hinb').
    by eapply (C5 la lb qa' qb' s).
  - rewrite <- C6. by eapply dom_insert_lookup_L.
  - done.
Qed.

Lemma coherent_mono b b' h : b ≤ b' → coherent b h → coherent b' h.
Proof.
  intros Hb (C1 & C2 & C3 & C4 & C5 & C6 & C7). unfold coherent.
  split_and!; try done. intros s Hin. specialize (C3 s Hin). lia.
Qed.

(** Storing the next number at the end of the index and of one queue. *)
Lemma add_coherent lvl q v h :
  coherent (logSeq h - 1) h →
  _retain h !! lvl = Some q →
  coherent (logSeq h)
    (append_seq lvl q (set_index (_index h ++ [(logSeq h, v)]) h)).
Proof.
  intros (C1 & C2 & C3 & C4 & C5 & C6 & C7) Hq.
  assert (∀ q0 l0, _retain h !! l0 = Some q0 → logSeq h ∉ q0) as Hfresh.
  { intros q0 l0 Hq0 Hin.
    assert (logSeq h ∈ index_keys h) as Hk by (apply C2; by exists l0, q0).
    specialize (C3 _ Hk). lia. }
  unfold coherent, append_seq, index_keys, OrderedDict.keys, queued; simpl.
  rewrite fmap_app. simpl. split_and!.
  - apply StronglySorted_snoc; [done|]. intros s Hin. specialize (C3 s Hin). lia.
  - intros s. rewrite elem_of_app, list_elem_of_singleton. split.
    + intros [Hin| ->].
      * apply C2 in Hin as (l0 & q0 & Hq0 & Hin). destruct (decide (l0 = lvl)) as [->|Hl].
        -- exists lvl, (q ++ [logSeq h]). rewrite lookup_insert_eq. split; [done|].
           rewrite Hq in Hq0. injection Hq0 as <-. set_solver.
        -- exists l0, q0. by rewrite lookup_insert_ne.
      * exists lvl, (q ++ [logSeq h]). rewrite lookup_insert_eq. split; [done|set_solver].
    + intros (l0 & q0 & Hq0 & Hin). rewrite lookup_insert in Hq0.
      case_decide as Hl.
      * subst l0. injection Hq0 as <-.
        apply elem_of_app in Hin as [Hin| ->%list_elem_of_singleton]; [|by right].
        left. apply C2. by exists lvl, q.
      * left. apply C2. by exists l0, q0.
  - intros s [Hin| ->%list_elem_of_singleton]%elem_of_app; [|done].
    specialize (C3 s Hin). lia.
  - intros l0 q0. rewrite lookup_insert. case_decide as Hl.
    + intros [= <-]. apply NoDup_app. split_and!; [by eapply C4| |repeat constructor; set_solver].
      intros s Hin ->%list_elem_of_singleton. by eapply Hfresh.
    + apply C4.
  - intros la lb qa qb s. rewrite !lookup_insert.
    repeat case_decide; subst; try done.
    + intros [= <-] Hb [Hin| ->%list_elem_of_singleton]%elem_of_app Hinb.
      * by eapply (C5 la lb q qb s).
      * exfalso. by eapply Hfresh.
    + intros Ha [= <-] Hina [Hin| ->%list_elem_of_singleton]%elem_of_app.
      * by eapply (C5 la lb qa q s).
      * exfalso. by eapply Hfresh.
    + apply C5.
  - rewrite <- C6. by eapply dom_insert_lookup_L.
  - done.
Qed.

(** Under the invariant, with a configured level, lines 98-102
    re-establish the invariant for the advanced counter, whether the
    formatter returns or raises. *)
Lemma retain_record_coherent format record h :
  coherent (logSeq h - 1) h →
  is_Some (retainSetup h !! logging.levelno record) →
  coherent (logSeq h) (retain_record format record h).2.
Proof.
  intros Hcoh [cap Hcap].
  pose proof Hcoh as (C1 & C2 & C3 & C4 & C5 & C6 & C7).
  assert (is_Some (_retain h !! logging.levelno record)) as [q Hq].
  { apply elem_of_dom. rewrite C6. apply elem_of_dom. by eexists. }
  assert (logSeq h ∉ OrderedDict.keys (_index h)) as Hfresh.
  { intros Hin. specialize (C3 _ Hin). lia. }
  unfold retain_record. destruct (format record) as [text|e].
  2:{ simpl. apply (coherent_mono (logSeq h - 1)); [lia|done]. }
  simpl. rewrite (setitem_fresh _ _ _ Hfresh), Hq, Hcap.
  case_bool_decide as Hfull.
  - destruct q as [|rm q'].
    { specialize (C7 _ _ Hcap). unfold PyList.len in Hfull. simpl in Hfull. lia. }
    simpl.
    assert (rm ∈ index_keys h) as Hrm.
    { apply C2. exists (logging.levelno record), (rm :: q'). split; [done|set_solver]. }
    destruct (odpop_present _ _ Hrm) as (v' & d' & Hp).
    rewrite (odpop_app_l _ _ _ _ _ Hp). simpl.
    pose proof (evict_coherent _ (logging.levelno record) rm h Hcoh) as Hev.
    unfold evict in Hev. rewrite Hq in Hev. simpl in Hev.
    rewrite decide_True in Hev by done. unfold PyList.pop in Hev. simpl in Hev.
    rewrite Hp in Hev. simpl in Hev.
    refine (add_coherent (logging.levelno record) q' text
              (set_index d' (set_retain (<[logging.levelno record:=q']> (_retain h)) h))
              Hev _).
    simpl. by rewrite lookup_insert_eq.
  - exact (add_coherent (logging.levelno record) q text h Hcoh Hq).
Qed.

Lemma emit_coherent format σ h record :
  coherent (logSeq h) h →
  (level h ≤ logging.levelno record →
   is_Some (retainSetup h !! logging.levelno record)) →
  coherent (logSeq (emit format σ h record).2) (emit format σ h record).2.
Proof.
  intros Hcoh Hcfg. rewrite emit_handler. case_bool_decide as Hle; [|done].
  specialize (Hcfg Hle).
  pose proof (run_filters_preserves (coherent (logSeq h)) record (_filters h) σ
                (set_logSeq (logSeq h + 1) h)
                (λ lvl x h0, evict_coherent (logSeq h) lvl x h0) Hcoh) as Hrun.
  destruct (run_filters record (_filters h) σ (set_logSeq (logSeq h + 1) h))
    as [[fl σ1] h1] eqn:Hr.
  apply run_filters_shrinks in Hr as (Hs & _ & Hn & _). simpl in Hrun, Hs, Hn.
  destruct fl; simpl.
  - destruct (retain_record format record h1) as [res h2] eqn:Hrr.
    pose proof (retain_record_frame _ _ _ _ _ Hrr) as [Hn2 _].
    pose proof (retain_record_coherent format record h1) as Hc2.
    rewrite Hrr in Hc2. simpl in *. rewrite Hn2. apply Hc2.
    + rewrite Hn. by replace (logSeq h + 1 - 1) with (logSeq h) by lia.
    + by rewrite Hs.
  - rewrite Hn. by apply (coherent_mono (logSeq h)); [lia|].
  - rewrite Hn. by apply (coherent_mono (logSeq h)); [lia|].
Qed.

Lemma exec_coherent format ops w :
  coherent (logSeq w.2) w.2 →
  levels_configured (retainSetup w.2) ops →
  coherent (logSeq (exec format ops w).2) (exec format ops w).2.
Proof.
  revert w. induction ops as [|op ops IH]; intros w Hcoh Hcfg; simpl; [done|].
  apply Forall_cons in Hcfg as [Hop Hcfg].
  assert (retainSetup (apply_op format w op).2 = retainSetup w.2) as Hs.
  { destruct (apply_op_extends format w op) as [[Hx _]|[Hx _]];
      [specialize (Hx 0)|]; by destruct Hx as (-> & _). }
  apply IH; [|by rewrite Hs].
  destruct w as [σ h]. destruct op as [record|l]; cbn [apply_op fst snd].
  - apply emit_coherent; [done|]. by intros _.
  - exact Hcoh.
Qed.

Lemma init_dom (retain : gmap Z Z) :
  dom (map_fold (λ k (_ : Z) (acc : gmap Z (list Z)), <[k := []]> acc) ∅ retain)
  = dom retain.
Proof.
  apply set_eq. intros k. rewrite !elem_of_dom, init_retain_lookup.
  destruct (retain !! k); simpl; split; intros [? ?]; by eauto.
Qed.

Lemma init_coherent retain lvl h0 :
  init retain lvl = Ok h0 →
  (∀ k c, retain !! k = Some c → 1 ≤ c) →
  coherent (logSeq h0) h0.
Proof.
  intros [= <-] Hcaps.
  assert (∀ l q, map_fold (λ k (_ : Z) (acc : gmap Z (list Z)), <[k := []]> acc) ∅ retain
                   !! l = Some q → q = []) as Hempty.
  { intros l q. rewrite init_retain_lookup. destruct (retain !! l); simpl; congruence. }
  unfold coherent, index_keys, queued; simpl. split_and!.
  - constructor.
  - intros s. split; [set_solver|].
    intros (l & q & Hq & Hin). apply Hempty in Hq as ->. set_solver.
  - set_solver.
  - intros l q Hq. apply Hempty in Hq as ->. constructor.
  - intros la lb qa qb s Ha _ Hin. apply Hempty in Ha as ->. set_solver.
  - apply init_dom.
  - exact Hcaps.
Qed.

(** C2 fails as stated for a capacity below 1: with capacity 0 for INFO,
    one INFO record (a configured level, no filters) is stored in the
    index, then [lvlRecs.pop(0)] raises on the empty queue; the index
    holds sequence number 1 and no queue does. *)
Lemma index_consistency_counterexample :
  let retain : gmap Z Z := {[logging.INFO := 0]} in
  let h0 := mk retain logging.INFO 0 [] {[logging.INFO := []]} [] in
  let σ0 : Heap := λ _, LogRetainFilter.init "x" logging.INFO 1 in
  let ops := [Emit (logging.mkRecord "app" logging.INFO "m")] in
  init retain logging.INFO = Ok h0 ∧
  levels_configured retain ops ∧
  ¬ index_consistent (exec logging.plain ops (σ0, h0)).2.
Proof.
  split_and!.
  - reflexivity.
  - repeat constructor. by eexists.
  - intros [Hk _]. destruct (proj1 (Hk 1)) as (l & q & Hq & Hin).
    { vm_compute. left. }
    change (_retain _) with ({[logging.INFO := []]} : gmap Z (list Z)) in Hq.
    apply lookup_singleton_Some in Hq as [_ <-]. set_solver.
Qed.

(** C2, amended: when every configured capacity is at least 1, at every
    state reached from a fresh handler by calls of [emit] whose records
    all have configured levels (and by [addFilter], whatever the filter
    objects and their keys, and however often an object is registered),
    raising calls included, the keys of the index are exactly the members
    of the queues and the index iterates in strictly increasing order of
    sequence number. *)
Theorem index_consistency format retain lvl h0 σ0 ops :
  init retain lvl = Ok h0 →
  (∀ k c, retain !! k = Some c → 1 ≤ c) →
  levels_configured retain ops →
  index_consistent (exec format ops (σ0, h0)).2.
Proof.
  intros Hi Hcaps Hcfg.
  pose proof (init_coherent _ _ _ Hi Hcaps) as Hc0.
  assert (retainSetup h0 = retain) as Hs by (by injection Hi as <-).
  rewrite <- Hs in Hcfg.
  destruct (exec_coherent format ops (σ0, h0) Hc0 Hcfg) as (C1 & C2 & _).
  by split.
Qed.

Lemma index_consistency_witness :
  let retain : gmap Z Z := {[logging.INFO := 1; logging.ERROR := 2]} in
  let h0 := mk retain logging.INFO 0 []
               (map_fold (λ k _ acc, <[k := []]> acc) ∅ retain) [] in
  let σ0 : Heap := λ _, LogRetainFilter.init "a" logging.INFO 2 in
  let r := logging.mkRecord "a" logging.INFO "m" in
  let e := logging.mkRecord "a" logging.ERROR "e" in
  let bad := logging.mkRecord "a" logging.ERROR "%d" in
  index_consistent
    (exec (logging.failing "%d" TypeError)
       [AddFilter 0%nat; Emit r; Emit e; AddFilter 0%nat; Emit r; Emit bad; Emit r]
       (σ0, h0)).2.
Proof.
  intros retain h0 σ0 r e bad.
  apply (index_consistency (logging.failing "%d" TypeError) retain logging.INFO h0).
  - reflexivity.
  - intros k c Hk. unfold retain in Hk.
    apply lookup_insert_Some in Hk as [[_ <-]|[_ Hk]]; [lia|].
    apply lookup_singleton_Some in Hk as [_ <-]. lia.
  - repeat constructor; by eexists.
Defined.

(** * Levels without a configured capacity *)

Lemma reachable_dom format h :
  reachable format h → dom (_retain h) = dom (retainSetup h).
Proof.
  intros (retain & lvl & h0 & σ0 & ops & [= <-] & ->).
  destruct (exec_config format ops
              (σ0, mk retain lvl 0 []
                  (map_fold (λ k (_ : Z) (acc : gmap Z (list Z)), <[k := []]> acc) ∅ retain) []))
    as (-> & _ & ->).
  apply init_dom.
Qed.

Lemma odpop_keeps k d v d' s :
  OrderedDict.pop k d = Ok (v, d') →
  s ∈ OrderedDict.keys d → s ≠ k → s ∈ OrderedDict.keys d'.
Proof.
  intros (d1 & d2 & -> & -> & _)%odpop_Ok. unfold OrderedDict.keys.
  rewrite !fmap_app, fmap_cons, !elem_of_app, elem_of_cons. simpl. tauto.
Qed.

Lemma evict_stranded s lvl x h : stranded s h → stranded s (evict lvl x h).2.
Proof.
  intros (Hin & Hnq & Hle).
  destruct (evict lvl x h) as [res h'] eqn:He.
  pose proof (evict_shrinks _ _ _ _ _ He) as (_ & _ & Hn & _ & _ & _ & Hqs).
  simpl. unfold stranded. split_and!.
  - revert He. unfold evict.
    destruct (_retain h !! lvl) as [q|] eqn:Hq; [|by intros [= _ <-]].
    destruct (PyList.index x q) as [i|e] eqn:Hi; [|by intros [= _ <-]].
    rewrite (pop_at_index _ _ _ Hi). simpl.
    destruct (OrderedDict.pop x (_index h)) as [[v d]|e] eqn:Hp; [|by intros [= _ <-]].
    intros [= _ <-]. unfold index_keys. simpl. eapply odpop_keeps; [exact Hp|exact Hin|].
    intros ->. apply Hnq. exists lvl, q. split; [done|].
    apply index_Ok in Hi as (l1 & l2 & -> & _). set_solver.
  - intros (l & q' & Hq' & Hin'). destruct (Hqs _ _ Hq') as (q & Hq & Hsub).
    apply Hnq. exists l, q. split; [done|]. by eapply elem_of_sublist.
  - by rewrite Hn.
Qed.

Lemma retain_record_stranded format record s h :
  stranded s h → s < logSeq h → stranded s (retain_record format record h).2.
Proof.
  intros (Hin & Hnq & Hle) Hlt.
  destruct (retain_record format record h) as [res h'] eqn:Hr.
  pose proof (retain_record_frame _ _ _ _ _ Hr) as [Hn _].
  pose proof (retain_record_extends _ _ _ _ _ Hr) as (_ & _ & _ & _ & Xq).
  simpl. unfold stranded. split_and!.
  - revert Hr. unfold retain_record, append_seq.
    destruct (format record) as [text|e]; [|by intros [= _ <-]].
    assert (s ∈ OrderedDict.keys
              (OrderedDict.setitem (logSeq h) text (_index h))) as Hin1.
    { apply setitem_keys. by left. }
    simpl.
    destruct (_retain h !! logging.levelno record) as [q|] eqn:Hq; [|by intros [= _ <-]].
    destruct (retainSetup h !! logging.levelno record) as [cap|]; [|by intros [= _ <-]].
    case_bool_decide; [|by intros [= _ <-]].
    destruct q as [|rm q]; simpl; [by intros [= _ <-]|].
    destruct (OrderedDict.pop rm _) as [[v d]|e] eqn:Hp; [|by intros [= _ <-]].
    intros [= _ <-]. unfold index_keys. simpl. eapply odpop_keeps; [exact Hp|exact Hin1|].
    intros ->. apply Hnq. exists (logging.levelno record), (rm :: q).
    split; [done|set_solver].
  - intros (l & q' & Hq' & Hin'). destruct (Xq _ _ Hq') as (q & Hq & Hsub).
    destruct (Hsub _ Hin') as [Hold| ->]; [|lia]. apply Hnq. by exists l, q.
  - rewrite Hn. done.
Qed.

Lemma emit_stranded format s σ h record :
  stranded s h → stranded s (emit format σ h record).2.
Proof.
  intros Hs. rewrite emit_handler. case_bool_decide; [|done].
  assert (stranded s (set_logSeq (logSeq h + 1) h)) as Hs1.
  { destruct Hs as (? & ? & ?). unfold stranded. simpl. split_and!; [done|done|lia]. }
  pose proof (run_filters_preserves (stranded s) record (_filters h) σ _
                (evict_stranded s) Hs1) as Hrun.
  destruct (run_filters record (_filters h) σ _) as [[fl σ1] h1] eqn:Hr.
  apply run_filters_shrinks in Hr as (_ & _ & Hn & _). simpl in Hrun, Hn.
  destruct fl; simpl; [|done|done].
  apply retain_record_stranded; [done|]. rewrite Hn.
  destruct Hs as (_ & _ & ?). lia.
Qed.

Lemma exec_stranded format s ops w : stranded s w.2 → stranded s (exec format ops w).2.
Proof.
  apply (exec_preserves format (stranded s)); [|done].
  intros σ h record. apply emit_stranded.
Qed.

(** C1: what [emit] does on a reachable handler with a record whose level
    passes the threshold but is not a key of the retain map, when no
    filter object of the chain matches the record and the formatter
    renders it: the counter advances, the rendered text is stored in the
    index under the new sequence number, and the call then raises
    [TypeError] (at [len(lvlRecs)], [lvlRecs] being [None]).  No queue and
    no filter object changes, and the entry stays in the index, hence in
    what [getLogEntries] yields, after every later sequence of calls. *)
Theorem emit_unconfigured_level_raises format σ h record text :
  reachable format h →
  level h ≤ logging.levelno record →
  retainSetup h !! logging.levelno record = None →
  none_matches σ record (_filters h) →
  format record = Ok text →
  let seq := logSeq h + 1 in
  ∃ σ' h', emit format σ h record = (Raise TypeError, σ', h') ∧
        same_heap σ σ' ∧
        logSeq h' = seq ∧
        _index h' = _index h ++ [(seq, text)] ∧
        _retain h' = _retain h ∧
        ∀ σ'' ops, seq ∈ (getLogEntries (exec format ops (σ'', h')).2).*1.
Proof.
  intros Hreach Hle Hcfg Hno Hfmt seq.
  pose proof (reachable_bounded _ _ Hreach) as (H0 & Hk & Hq).
  assert (_retain h !! logging.levelno record = None) as Hnone.
  { apply not_elem_of_dom. rewrite (reachable_dom _ _ Hreach). by apply not_elem_of_dom. }
  assert (seq ∉ OrderedDict.keys (_index h)) as Hfresh.
  { intros Hin. apply Hk in Hin. subst seq. lia. }
  destruct (emit_nomatch format σ h record Hle Hno) as (σ' & -> & Hσ).
  unfold retain_record. rewrite Hfmt. simpl. rewrite Hnone, (setitem_fresh _ _ _ Hfresh).
  exists σ'. eexists. split; [reflexivity|]. simpl. split_and!; try done.
  intros σ'' ops. apply (exec_stranded format seq ops (σ'', _)).
  unfold stranded, index_keys, OrderedDict.keys. simpl.
  split_and!; [|..|done].
  - rewrite fmap_app. set_solver.
  - intros (l & q & Hql & Hin). specialize (Hq _ _ _ Hql Hin). subst seq. lia.
Qed.

Lemma emit_unconfigured_level_raises_witness :
  let retain : gmap Z Z := {[logging.INFO := 50]} in
  let h := mk retain logging.INFO 0 [] {[logging.INFO := []]} [] in
  let σ : Heap := λ _, LogRetainFilter.init "x" logging.INFO 1 in
  let record := logging.mkRecord "app" logging.WARNING "disk full" in
  ∃ σ' h', emit logging.plain σ h record = (Raise TypeError, σ', h') ∧
        same_heap σ σ' ∧
        logSeq h' = 1 ∧
        _index h' = [(1, "disk full")] ∧
        _retain h' = _retain h ∧
        ∀ σ'' ops, 1 ∈ (getLogEntries (exec logging.plain ops (σ'', h')).2).*1.
Proof.
  intros retain h σ record.
  apply (emit_unconfigured_level_raises logging.plain σ h record "disk full").
  - exists retain, logging.INFO, h, σ, []. split; reflexivity.
  - vm_compute. discriminate.
  - reflexivity.
  - constructor.
  - reflexivity.
Defined.

(** * Order and membership in every reachable state *)

Lemma orderly_mono b b' h : b ≤ b' → orderly b h → orderly b' h.
Proof.
  intros Hb (O1 & O2 & O3 & O4 & O5). unfold orderly.
  split_and!; try done. intros s Hin. specialize (O3 s Hin). lia.
Qed.

Lemma evict_orderly b lvl x h : orderly b h → orderly b (evict lvl x h).2.
Proof.
  intros (O1 & O2 & O3 & O4 & O5). unfold evict.
  destruct (_retain h !! lvl) as [q|] eqn:Hq; [|done].
  destruct (PyList.index x q) as [i|e] eqn:Hi; [|done].
  rewrite (pop_at_index _ _ _ Hi). simpl.
  destruct (index_Ok _ _ _ Hi) as (l1 & l2 & -> & Hx1 & -> & Hdel). rewrite Hdel.
  assert (x ∈ index_keys h) as Hxk.
  { apply O2. exists lvl, (l1 ++ x :: l2). split; [done|set_solver]. }
  destruct (OrderedDict.pop x (_index h)) as [[v d]|e] eqn:Hp.
  2:{ apply odpop_Raise in Hp as [_ ?]. done. }
  simpl. apply odpop_Ok in Hp as (d1 & d2 & Hidx & -> & Hxd1).
  assert (index_keys h = d1.*1 ++ x :: d2.*1) as Hkeys.
  { unfold index_keys, OrderedDict.keys. by rewrite Hidx, fmap_app, fmap_cons. }
  pose proof (StronglySorted_lt_NoDup _ O1) as Hnd. rewrite Hkeys in Hnd.
  pose proof (StronglySorted_lt_NoDup _ (O4 _ _ Hq)) as Hndq.
  assert (∀ s, s ∈ (d1 ++ d2).*1 ↔ s ∈ index_keys h ∧ s ≠ x) as Hk'.
  { intros s. rewrite fmap_app, Hkeys. by apply elem_of_app_middle. }
  assert (∀ s, s ∈ l1 ++ l2 ↔ s ∈ l1 ++ x :: l2 ∧ s ≠ x) as Hq'.
  { intros s. by apply elem_of_app_middle. }
  assert (∀ l0 q0 s, <[lvl:=l1 ++ l2]> (_retain h) !! l0 = Some q0 → s ∈ q0 →
            s ≠ x ∧ ∃ q1, _retain h !! l0 = Some q1 ∧ s ∈ q1) as Hold.
  { intros l0 q0 s. rewrite lookup_insert. case_decide as Hl.
    - subst l0. intros [= <-] [Hin Hne]%Hq'. split; [done|]. by exists (l1 ++ x :: l2).
    - intros Hq0 Hin. split; [|by exists q0]. intros ->. apply Hl.
      apply (O5 lvl l0 (l1 ++ x :: l2) q0 x); [done|done| |done]. set_solver. }
  unfold orderly, index_keys, OrderedDict.keys, queued; simpl. split_and!.
  - eapply StronglySorted_sublist; [|exact O1]. rewrite Hkeys, fmap_app.
    apply sublist_app; [done|]. by apply sublist_cons.
  - intros s (l0 & q0 & Hq0 & Hin).
    destruct (Hold _ _ _ Hq0 Hin) as (Hne & q1 & Hq1 & Hin1).
    apply Hk'. split; [|done]. apply O2. by exists l0, q1.
  - intros s [Hin _]%Hk'. by apply O3.
  - intros l0 q0. rewrite lookup_insert. case_decide as Hl.
    + intros [= <-]. eapply StronglySorted_sublist; [|exact (O4 _ _ Hq)].
      apply sublist_app; [done|]. by apply sublist_cons.
    + apply O4.
  - intros la lb qa qb s Ha Hb Hina Hinb.
    destruct (Hold _ _ _ Ha Hina) as (_ & qa' & Ha' & Hina').
    destruct (Hold _ _ _ Hb Hinb) as (_ & qb' & Hb' & Hinb').
    by eapply (O5 la lb qa' qb' s).
Qed.

(** Storing the next number in the index only. *)
Lemma add_index_orderly v h :
  orderly (logSeq h - 1) h →
  orderly (logSeq h) (set_index (_index h ++ [(logSeq h, v)]) h).
Proof.
  intros (O1 & O2 & O3 & O4 & O5).
  unfold orderly, index_keys, OrderedDict.keys, queued; simpl.
  rewrite fmap_app. simpl. split_and!; [| | |done|done].
  - apply StronglySorted_snoc; [done|]. intros s Hin. specialize (O3 s Hin). lia.
  - intros s Hs. apply elem_of_app. left. by apply O2.
  - intros s [Hin| ->%list_elem_of_singleton]%elem_of_app; [|done].
    specialize (O3 s Hin). lia.
Qed.

(** Storing the next number in the index and at the end of one queue. *)
Lemma add_orderly lvl q v h :
  orderly (logSeq h - 1) h →
  _retain h !! lvl = Some q →
  orderly (logSeq h)
    (append_seq lvl q (set_index (_index h ++ [(logSeq h, v)]) h)).
Proof.
  intros (O1 & O2 & O3 & O4 & O5) Hq.
  assert (∀ q0 l0 s, _retain h !! l0 = Some q0 → s ∈ q0 → s < logSeq h) as Hold.
  { intros q0 l0 s Hq0 Hin.
    assert (s ∈ index_keys h) as Hk by (apply O2; by exists l0, q0).
    specialize (O3 _ Hk). lia. }
  unfold orderly, append_seq, index_keys, OrderedDict.keys, queued; simpl.
  rewrite fmap_app. simpl. split_and!.
  - apply StronglySorted_snoc; [done|]. intros s Hin. specialize (O3 s Hin). lia.
  - intros s (l0 & q0 & Hq0 & Hin). rewrite lookup_insert in Hq0.
    rewrite elem_of_app, list_elem_of_singleton. case_decide as Hl.
    + subst l0. injection Hq0 as <-.
      apply elem_of_app in Hin as [Hin| ->%list_elem_of_singleton]; [|by right].
      left. apply O2. by exists lvl, q.
    + left. apply O2. by exists l0, q0.
  - intros s [Hin| ->%list_elem_of_singleton]%elem_of_app; [|done].
    specialize (O3 s Hin). lia.
  - intros l0 q0. rewrite lookup_insert. case_decide as Hl.
    + intros [= <-]. apply StronglySorted_snoc; [by eapply O4|].
      intros s Hin. by eapply Hold.
    + apply O4.
  - intros la lb qa qb s. rewrite !lookup_insert.
    repeat case_decide; subst; try done.
    + intros [= <-] Hb [Hin| ->%list_elem_of_singleton]%elem_of_app Hinb.
      * by eapply (O5 la lb q qb s).
      * exfalso. pose proof (Hold _ _ _ Hb Hinb). lia.
    + intros Ha [= <-] Hina [Hin| ->%list_elem_of_singleton]%elem_of_app.
      * by eapply (O5 la lb qa q s).
      * exfalso. pose proof (Hold _ _ _ Ha Hina). lia.
    + apply O5.
Qed.

Lemma retain_record_orderly format record h :
  orderly (logSeq h - 1) h →
  orderly (logSeq h) (retain_record format record h).2.
Proof.
  intros Hord. pose proof Hord as (O1 & O2 & O3 & O4 & O5).
  assert (logSeq h ∉ OrderedDict.keys (_index h)) as Hfresh.
  { intros Hin. specialize (O3 _ Hin). lia. }
  unfold retain_record. destruct (format record) as [text|e].
  2:{ simpl. apply (orderly_mono (logSeq h - 1)); [lia|done]. }
  pose proof (add_index_orderly text h Hord) as Hidx.
  simpl. rewrite (setitem_fresh _ _ _ Hfresh).
  destruct (_retain h !! logging.levelno record) as [q|] eqn:Hq; [|exact Hidx].
  destruct (retainSetup h !! logging.levelno record) as [cap|] eqn:Hcap; [|exact Hidx].
  case_bool_decide as Hfull.
  - destruct q as [|rm q']; [exact Hidx|]. simpl.
    assert (rm ∈ index_keys h) as Hrm.
    { apply O2. exists (logging.levelno record), (rm :: q'). split; [done|set_solver]. }
    destruct (odpop_present _ _ Hrm) as (v' & d' & Hp).
    rewrite (odpop_app_l _ _ _ _ _ Hp). simpl.
    pose proof (evict_orderly _ (logging.levelno record) rm h Hord) as Hev.
    unfold evict in Hev. rewrite Hq in Hev. simpl in Hev.
    rewrite decide_True in Hev by done. unfold PyList.pop in Hev. simpl in Hev.
    rewrite Hp in Hev. simpl in Hev.
    refine (add_orderly (logging.levelno record) q' text
              (set_index d' (set_retain (<[logging.levelno record:=q']> (_retain h)) h))
              Hev _).
    simpl. by rewrite lookup_insert_eq.
  - exact (add_orderly (logging.levelno record) q text h Hord Hq).
Qed.

(** The handler that the loop over the filters hands to lines 98-102. *)
Lemma run_filters_orderly record σ h fl σ1 h1 :
  orderly (logSeq h) h →
  run_filters record (_filters h) σ (set_logSeq (logSeq h + 1) h) = (fl, σ1, h1) →
  orderly (logSeq h) h1 ∧ orderly (logSeq h1 - 1) h1 ∧ logSeq h1 = logSeq h + 1.
Proof.
  intros Hord Hr.
  pose proof (run_filters_preserves (orderly (logSeq h)) record (_filters h) σ
                (set_logSeq (logSeq h + 1) h)
                (λ lvl x h0, evict_orderly (logSeq h) lvl x h0) Hord) as Hrun.
  rewrite Hr in Hrun. apply run_filters_shrinks in Hr as (_ & _ & Hn & _).
  simpl in *. rewrite Hn. split_and!; [done| |done].
  by replace (logSeq h + 1 - 1) with (logSeq h) by lia.
Qed.

Lemma emit_orderly format σ h record :
  orderly (logSeq h) h →
  orderly (logSeq (emit format σ h record).2) (emit format σ h record).2.
Proof.
  intros Hord. rewrite emit_handler. case_bool_decide as Hle; [|done].
  destruct (run_filters record (_filters h) σ (set_logSeq (logSeq h + 1) h))
    as [[fl σ1] h1] eqn:Hr.
  destruct (run_filters_orderly _ _ _ _ _ _ Hord Hr) as (Hc1 & Hc2 & Hn).
  destruct fl; simpl.
  - destruct (retain_record format record h1) as [res h2] eqn:Hres.
    pose proof (retain_record_frame _ _ _ _ _ Hres) as [Hn2 _].
    pose proof (retain_record_orderly format record h1 Hc2) as Hrr.
    rewrite Hres in Hrr. simpl in *. by rewrite Hn2.
  - rewrite Hn. by apply (orderly_mono (logSeq h)); [lia|].
  - rewrite Hn. by apply (orderly_mono (logSeq h)); [lia|].
Qed.

Lemma exec_orderly format ops w :
  orderly (logSeq w.2) w.2 → orderly (logSeq (exec format ops w).2) (exec format ops w).2.
Proof.
  apply (exec_preserves format (λ h, orderly (logSeq h) h)); [|done].
  intros σ h record. apply emit_orderly.
Qed.

Lemma init_orderly retain lvl h0 : init retain lvl = Ok h0 → orderly (logSeq h0) h0.
Proof.
  intros [= <-].
  assert (∀ l q, map_fold (λ k (_ : Z) (acc : gmap Z (list Z)), <[k := []]> acc) ∅ retain
                   !! l = Some q → q = []) as Hempty.
  { intros l q. rewrite init_retain_lookup. destruct (retain !! l); simpl; congruence. }
  unfold orderly, index_keys, queued; simpl. split_and!.
  - constructor.
  - intros s (l & q & Hq & Hin). apply Hempty in Hq as ->. set_solver.
  - set_solver.
  - intros l q Hq. apply Hempty in Hq as ->. constructor.
  - intros la lb qa qb s Ha _ Hin. apply Hempty in Ha as ->. set_solver.
Qed.

Lemma reachable_orderly format h : reachable format h → orderly (logSeq h) h.
Proof.
  intros (retain & lvl & h0 & σ0 & ops & Hi & ->).
  apply exec_orderly. by eapply init_orderly.
Qed.

(** X1: in every reachable state, whatever the configuration, the levels
    of the records, the formatter and the filter objects, [getLogEntries]
    yields its entries in strictly increasing order of sequence number. *)
Theorem entries_strictly_increasing format h :
  reachable format h → StronglySorted Z.lt (getLogEntries h).*1.
Proof. intros Hr. by destruct (reachable_orderly _ _ Hr) as (O1 & _). Qed.

Lemma entries_strictly_increasing_witness :
  let h0 := mk {[logging.INFO := 0; logging.ERROR := 1]} logging.DEBUG 0 []
               {[logging.INFO := []; logging.ERROR := []]} [] in
  let σ0 : Heap := λ _, LogRetainFilter.init "a" logging.ERROR 1 in
  let r l := logging.mkRecord "a" l "m" in
  StronglySorted Z.lt
    (getLogEntries
       (exec logging.plain
          [Emit (r logging.INFO); Emit (r logging.WARNING); Emit (r logging.ERROR);
           AddFilter 0%nat; AddFilter 0%nat;
           Emit (r logging.ERROR); Emit (r logging.ERROR)] (σ0, h0)).2).*1.
Proof.
  intros h0 σ0 r. apply (entries_strictly_increasing logging.plain).
  exists (retainSetup h0), logging.DEBUG, h0, σ0. eexists. split; reflexivity.
Defined.

(** X2: in every reachable state each per-level queue is in strictly
    increasing order of sequence number, so [lvlRecs.pop(0)] removes the
    oldest entry of the level, and no sequence number is in the queues of
    two levels. *)
Theorem queues_oldest_first format h :
  reachable format h →
  (∀ lvl q, _retain h !! lvl = Some q → StronglySorted Z.lt q) ∧
  (∀ l1 l2 q1 q2 s, _retain h !! l1 = Some q1 → _retain h !! l2 = Some q2 →
                    s ∈ q1 → s ∈ q2 → l1 = l2).
Proof. intros Hr. by destruct (reachable_orderly _ _ Hr) as (_ & _ & _ & O4 & O5). Qed.

Lemma queues_oldest_first_witness :
  let h0 := mk {[logging.INFO := 2; logging.ERROR := 1]} logging.DEBUG 0 []
               {[logging.INFO := []; logging.ERROR := []]} [] in
  let σ0 : Heap := λ _, LogRetainFilter.init "a" logging.INFO 1 in
  let r l := logging.mkRecord "a" l "m" in
  let h := (exec logging.plain
              [Emit (r logging.INFO); Emit (r logging.ERROR); Emit (r logging.INFO);
               Emit (r logging.INFO)] (σ0, h0)).2 in
  (∀ lvl q, _retain h !! lvl = Some q → StronglySorted Z.lt q) ∧
  (∀ l1 l2 q1 q2 s, _retain h !! l1 = Some q1 → _retain h !! l2 = Some q2 →
                    s ∈ q1 → s ∈ q2 → l1 = l2).
Proof.
  intros h0 σ0 r h. apply (queues_oldest_first logging.plain).
  exists (retainSetup h0), logging.DEBUG, h0, σ0. eexists. split; reflexivity.
Defined.

(** X3: in every reachable state every sequence number held by a queue is
    a key of the index: the text of a queued record can always be
    retrieved. *)
Theorem queued_has_entry format h s :
  reachable format h → queued h s → ∃ text, (s, text) ∈ getLogEntries h.
Proof.
  intros Hr Hq. destruct (reachable_orderly _ _ Hr) as (_ & O2 & _).
  apply O2 in Hq. unfold index_keys, OrderedDict.keys in Hq.
  apply list_elem_of_fmap in Hq as ([k v] & -> & Hin). by exists v.
Qed.

Lemma queued_has_entry_witness :
  let h0 := mk {[logging.INFO := 2]} logging.DEBUG 0 [] {[logging.INFO := []]} [] in
  let σ0 : Heap := λ _, LogRetainFilter.init "a" logging.INFO 1 in
  let h := (exec logging.plain [Emit (logging.mkRecord "a" logging.INFO "m")] (σ0, h0)).2 in
  ∃ text, (1, text) ∈ getLogEntries h.
Proof.
  intros h0 σ0 h. apply (queued_has_entry logging.plain).
  - exists (retainSetup h0), logging.DEBUG, h0, σ0. eexists. split; reflexivity.
  - exists logging.INFO, [1]. split; [reflexivity|]. by apply list_elem_of_singleton.
Defined.

(** * Sequence numbers and texts *)

Lemma emit_logSeq format σ h record :
  logSeq (emit format σ h record).2
  = (if bool_decide (level h ≤ logging.levelno record) then logSeq h + 1 else logSeq h)
  ∧ level (emit format σ h record).2 = level h
  ∧ _filters (emit format σ h record).2 = _filters h.
Proof.
  rewrite emit_handler. case_bool_decide as Hle; [|done].
  destruct (run_filters record _ _ _) as [[fl σ1] h1] eqn:Hr.
  apply run_filters_shrinks in Hr as (_ & Hl & Hn & Hfs & _). simpl in *.
  destruct fl; simpl; [|done|done].
  destruct (retain_record format record h1) as [res h2] eqn:Hrr. simpl.
  pose proof (retain_record_frame _ _ _ _ _ Hrr) as [Hn2 Hfs2].
  apply retain_record_extends in Hrr as (_ & Hl2 & _). split_and!; congruence.
Qed.

(** X4: whatever happens in the calls, the counter after a run has
    advanced by the number of emitted records at or above the threshold
    (suppressed records and records whose call raises included), and these
    records are numbered consecutively from the old counter plus 1. *)
Theorem counter_counts_accepted format ops w :
  let acc := accepted (level w.2) (logSeq w.2) ops in
  logSeq (exec format ops w).2 = logSeq w.2 + Z.of_nat (length acc) ∧
  level (exec format ops w).2 = level w.2 ∧
  acc.*1 = seqZ (logSeq w.2 + 1) (Z.of_nat (length acc)).
Proof.
  revert w. induction ops as [|op ops IH]; intros [σ h]; simpl.
  - split_and!; [lia|done|done].
  - destruct op as [record|l]; cbn [apply_op fst snd].
    + destruct (emit_logSeq format σ h record) as (Hn & Hl & _).
      destruct (IH ((emit format σ h record).1.2, (emit format σ h record).2))
        as (I1 & I2 & I3).
      cbn [fst snd] in I1, I2, I3. rewrite Hl, Hn in *. case_bool_decide.
      * cbn [length fmap list_fmap fst]. split_and!; [lia|done|].
        rewrite (seqZ_cons (logSeq h + 1)) by lia. f_equal.
        change (list_fmap _ _ fst ?l) with (l.*1). rewrite I3.
        f_equal; lia.
      * done.
    + apply (IH (σ, addFilter h l)).
Qed.

Lemma setitem_entries k v d e :
  e ∈ OrderedDict.setitem k v d → e ∈ d ∨ e = (k, v).
Proof.
  induction d as [|[k' v'] d IH]; simpl.
  - intros ->%list_elem_of_singleton. by right.
  - destruct (decide (k' = k)) as [->|Hne]; rewrite !elem_of_cons; [tauto|].
    intros [->|Hin]; [by left; left|]. destruct (IH Hin); [left; by right|by right].
Qed.

Lemma odpop_sublist k d v d' : OrderedDict.pop k d = Ok (v, d') → d' `sublist_of` d.
Proof.
  intros (d1 & d2 & -> & -> & _)%odpop_Ok. apply sublist_app; [done|]. by apply sublist_cons.
Qed.

Lemma retain_record_entries format record h e :
  e ∈ _index (retain_record format record h).2 →
  e ∈ _index h ∨ ∃ text, format record = Ok text ∧ e = (logSeq h, text).
Proof.
  unfold retain_record, append_seq. destruct (format record) as [text|e0]; [|by left].
  simpl. intros Hin.
  assert (e ∈ OrderedDict.setitem (logSeq h) text (_index h)) as Hset.
  { revert Hin.
    destruct (_retain h !! logging.levelno record) as [q|]; [|done].
    destruct (retainSetup h !! logging.levelno record) as [cap|]; [|done].
    case_bool_decide; [|done].
    destruct q as [|rm q]; simpl; [done|].
    destruct (OrderedDict.pop rm _) as [[v d]|e'] eqn:Hp; simpl; [|done].
    intros Hin. eapply elem_of_sublist; [exact Hin|]. by eapply odpop_sublist. }
  apply setitem_entries in Hset as [?| ->]; [by left|]. right. by exists text.
Qed.

Lemma emit_entry_origin format σ h record e :
  e ∈ _index (emit format σ h record).2 →
  e ∈ _index h ∨
  (level h ≤ logging.levelno record ∧ e.1 = logSeq h + 1 ∧ format record = Ok e.2).
Proof.
  rewrite emit_handler. case_bool_decide as Hle; [|by left].
  destruct (run_filters record _ _ _) as [[fl σ1] h1] eqn:Hr.
  apply run_filters_shrinks in Hr as (_ & _ & Hn & _ & _ & Hsub & _). simpl in Hn, Hsub.
  destruct fl; simpl.
  - intros [Hin|(text & Hf & ->)]%retain_record_entries; simpl in *.
    + left. by eapply elem_of_sublist.
    + right. by rewrite Hn.
  - intros Hin. left. by eapply elem_of_sublist.
  - intros Hin. left. by eapply elem_of_sublist.
Qed.

Lemma exec_entry_origin format ops w e :
  e ∈ _index (exec format ops w).2 →
  e ∈ _index w.2 ∨
  ∃ record, (e.1, record) ∈ accepted (level w.2) (logSeq w.2) ops ∧ format record = Ok e.2.
Proof.
  revert w. induction ops as [|op ops IH]; intros [σ h]; simpl; [by left|].
  intros Hin. destruct (IH _ Hin) as [Hin1|(r & Hr & Ht)].
  - destruct op as [record|l]; cbn [apply_op fst snd] in Hin1; [|by left].
    destruct (emit_entry_origin _ _ _ _ _ Hin1) as [?|(Hle & -> & Hf)]; [by left|].
    right. exists record. rewrite bool_decide_eq_true_2 by done.
    split; [by left|done].
  - right. exists r. split; [|done]. destruct op as [record|l]; cbn [apply_op fst snd] in Hr.
    + destruct (emit_logSeq format σ h record) as (Hn & Hl & _). rewrite Hl, Hn in Hr.
      case_bool_decide; [by right|done].
    + exact Hr.
Qed.

(** X5: the text stored under a sequence number is the rendering of the
    record that was given this number: every entry [(s, text)] that
    [getLogEntries] yields after a run on a fresh handler belongs to an
    emitted record at or above the threshold that was numbered [s] and
    that the formatter rendered as [text]. *)
Theorem entry_text_is_rendering format retain lvl h0 σ0 ops s text :
  init retain lvl = Ok h0 →
  (s, text) ∈ getLogEntries (exec format ops (σ0, h0)).2 →
  ∃ record, (s, record) ∈ accepted lvl 0 ops ∧ format record = Ok text.
Proof.
  intros [= <-] Hin. apply exec_entry_origin in Hin as [Hin|Hin]; [|exact Hin].
  simpl in Hin. set_solver.
Qed.

Lemma entry_text_is_rendering_witness :
  let h0 := mk {[logging.INFO := 2]} logging.INFO 0 [] {[logging.INFO := []]} [] in
  let σ0 : Heap := λ _, LogRetainFilter.init "a" logging.INFO 1 in
  let ops := [Emit (logging.mkRecord "a" logging.DEBUG "low");
              Emit (logging.mkRecord "b" logging.INFO "%d");
              Emit (logging.mkRecord "b" logging.INFO "kept")] in
  ∃ record, (2, record) ∈ accepted logging.INFO 0 ops
            ∧ logging.failing "%d" TypeError record = Ok "kept".
Proof.
  intros h0 σ0 ops.
  apply (entry_text_is_rendering (logging.failing "%d" TypeError)
           {[logging.INFO := 2]} logging.INFO h0 σ0 ops).
  - reflexivity.
  - vm_compute. left.
Defined.

(** * The dump *)

Lemma getitem_NoDup k v d :
  NoDup d.*1 → (k, v) ∈ d → OrderedDict.getitem k d = Ok v.
Proof.
  induction d as [|[k' v'] d IH]; simpl; [set_solver|].
  rewrite NoDup_cons, elem_of_cons. intros [Hk Hnd] [[= -> ->]|Hin].
  - by rewrite decide_True.
  - rewrite decide_False; [by apply IH|]. intros ->. apply Hk.
    apply list_elem_of_fmap. by exists (k, v).
Qed.

Lemma get_lines_entries d l :
  NoDup d.*1 → (∀ e, e ∈ l → e ∈ d) →
  get_lines d l.*1 = Ok (dump_line <$> l).
Proof.
  intros Hnd. induction l as [|[k v] l IH]; intros Hsub; [done|].
  rewrite !fmap_cons. cbn [get_lines fst].
  rewrite (getitem_NoDup k v d Hnd) by (apply Hsub; by left).
  rewrite IH; [done|]. intros e He. apply Hsub. by right.
Qed.

(** X6: on every reachable handler [get] does not raise at
    [self._index[idx]]: it yields one line per retained entry, in the
    reverse of the order of [getLogEntries] (newest first), each made of
    the entry's own number and text, and then one summary line that
    reports the number of entries and the two memory figures. *)
Theorem get_yields_reversed_entries format h mem_alloc mem_free :
  reachable format h →
  get mem_alloc mem_free h
  = Ok ((dump_line <$> reverse (getLogEntries h))
        ++ [dump_summary (length (getLogEntries h)) mem_alloc mem_free]).
Proof.
  intros Hr. destruct (reachable_orderly _ _ Hr) as (O1 & _).
  apply StronglySorted_lt_NoDup in O1. unfold index_keys, OrderedDict.keys in O1.
  unfold get, getLogEntries, OrderedDict.keys. rewrite <- fmap_reverse.
  rewrite (get_lines_entries _ _ O1); [reflexivity|].
  intros e He. by rewrite elem_of_reverse in He.
Qed.


Lemma get_yields_reversed_entries_witness :
  let h0 := mk {[logging.INFO := 2]} logging.INFO 0 [] {[logging.INFO := []]} [] in
  let σ0 : Heap := λ _, LogRetainFilter.init "a" logging.INFO 1 in
  let h := (exec logging.plain [Emit (logging.mkRecord "a" logging.INFO "one");
                                Emit (logging.mkRecord "a" logging.INFO "two")]
              (σ0, h0)).2 in
  get 100 200 h
  = Ok ((dump_line <$> reverse (getLogEntries h))
        ++ [dump_summary (length (getLogEntries h)) 100 200]).
Proof.
  intros h0 σ0 h. apply (get_yields_reversed_entries logging.plain).
  exists (retainSetup h0), logging.INFO, h0, σ0. eexists. split; reflexivity.
Defined.

(** * Levels do not disturb each other *)

Lemma run_filters_preserves_at (P : t → Prop) record fs σ h :
  (∀ x h0, P h0 → P (evict (logging.levelno record) x h0).2) →
  P h → P (run_filters record fs σ h).2.
Proof.
  intros Hev. revert σ h. induction fs as [|l fs IH]; intros σ h HP; simpl; [done|].
  assert (P (filter_step record l σ h).2) as HP1.
  { unfold filter_step.
    destruct (LogRetainFilter.filter (σ l) (logSeq h) record) as [[[x|]|e] f0]; simpl;
      [|done|done].
    repeat case_bool_decide; simpl; try done.
    specialize (Hev x h HP).
    by destruct (evict _ _ _) as [[[]|?] ?]. }
  destruct (filter_step record l σ h) as [[fl1 σ1] h1]. simpl in HP1.
  destruct fl1; [|done|done]. by apply IH.
Qed.

Lemma odpop_keeps_entry k d v d' e :
  OrderedDict.pop k d = Ok (v, d') → e ∈ d → e.1 ≠ k → e ∈ d'.
Proof.
  intros (d1 & d2 & -> & -> & _)%odpop_Ok.
  rewrite !elem_of_app, elem_of_cons. intros [?|[->|?]] Hne; [tauto|done|tauto].
Qed.

(** An entry of the index whose number is queued at level [l]. *)
Lemma evict_keeps_other b l lvl x h q e :
  lvl ≠ l →
  orderly b h ∧ _retain h !! l = Some q ∧ e.1 ∈ q ∧ e ∈ _index h →
  let h' := (evict lvl x h).2 in
  orderly b h' ∧ _retain h' !! l = Some q ∧ e.1 ∈ q ∧ e ∈ _index h'.
Proof.
  intros Hl (Hord & Hq & Hin & He). intros h'.
  split; [by apply evict_orderly|]. subst h'.
  destruct Hord as (_ & _ & _ & _ & O5). unfold evict.
  destruct (_retain h !! lvl) as [ql|] eqn:Hql; [|done].
  destruct (PyList.index x ql) as [i|e0] eqn:Hi; [|done].
  rewrite (pop_at_index _ _ _ Hi). simpl.
  assert (e.1 ≠ x) as Hne.
  { intros <-. apply Hl. apply (O5 lvl l ql q e.1); [done|done| |done].
    apply index_Ok in Hi as (l1 & l2 & -> & _). set_solver. }
  destruct (OrderedDict.pop x (_index h)) as [[v d]|e0] eqn:Hp; simpl.
  - rewrite lookup_insert_ne by done. split_and!; [done|done|].
    by eapply odpop_keeps_entry.
  - rewrite lookup_insert_ne by done. done.
Qed.

Lemma retain_record_keeps_other format record l h q e :
  logging.levelno record ≠ l →
  orderly (logSeq h - 1) h → _retain h !! l = Some q → e.1 ∈ q → e ∈ _index h →
  e ∈ _index (retain_record format record h).2.
Proof.
  intros Hl Hord Hq Hin He. pose proof Hord as (_ & _ & O3 & _ & O5).
  assert (logSeq h ∉ OrderedDict.keys (_index h)) as Hfresh.
  { intros Hk. specialize (O3 _ Hk). lia. }
  unfold retain_record, append_seq. destruct (format record) as [text|e0]; [|done].
  simpl. rewrite (setitem_fresh _ _ _ Hfresh).
  assert (e ∈ _index h ++ [(logSeq h, text)]) as He1 by set_solver.
  destruct (_retain h !! logging.levelno record) as [ql|] eqn:Hql; [|done].
  destruct (retainSetup h !! logging.levelno record) as [cap|]; [|done].
  case_bool_decide; [|done].
  destruct ql as [|rm ql]; simpl; [done|].
  assert (e.1 ≠ rm) as Hne.
  { intros <-. apply Hl.
    apply (O5 (logging.levelno record) l (e.1 :: ql) q e.1); [done|done|set_solver|done]. }
  destruct (OrderedDict.pop rm _) as [[v d]|e0] eqn:Hp; simpl; [|done].
  by eapply odpop_keeps_entry.
Qed.

Lemma evict_retain_other lvl l x h :
  lvl ≠ l → _retain (evict lvl x h).2 !! l = _retain h !! l.
Proof.
  intros Hl. unfold evict.
  destruct (_retain h !! lvl) as [q|]; [|done].
  destruct (PyList.index x q) as [i|e] eqn:Hi; [|done].
  rewrite (pop_at_index _ _ _ Hi). simpl.
  destruct (OrderedDict.pop x (_index h)) as [[v d]|e]; simpl;
    by rewrite lookup_insert_ne.
Qed.

Lemma retain_record_retain_other format record l h :
  logging.levelno record ≠ l →
  _retain (retain_record format record h).2 !! l = _retain h !! l.
Proof.
  intros Hl. unfold retain_record, append_seq.
  destruct (format record) as [text|e0]; [|done]. simpl.
  destruct (_retain h !! logging.levelno record) as [q|]; [|done].
  destruct (retainSetup h !! logging.levelno record) as [cap|]; [|done].
  case_bool_decide.
  - destruct q as [|rm q]; simpl; [done|].
    destruct (OrderedDict.pop rm _) as [[v d]|e]; simpl;
      by rewrite ?lookup_insert_ne.
  - simpl. by rewrite lookup_insert_ne.
Qed.

Lemma emit_retain_other format σ h record l :
  logging.levelno record ≠ l →
  _retain (emit format σ h record).2 !! l = _retain h !! l.
Proof.
  intros Hl. rewrite emit_handler. case_bool_decide; [|done].
  pose proof (run_filters_preserves_at (λ h1, _retain h1 !! l = _retain h !! l)
                record (_filters h) σ (set_logSeq (logSeq h + 1) h)) as Hrun.
  destruct (run_filters record (_filters h) σ (set_logSeq (logSeq h + 1) h))
    as [[fl σ1] h1].
  assert (_retain h1 !! l = _retain h !! l) as H1.
  { apply Hrun; [|done]. intros x h0 H0. by rewrite evict_retain_other. }
  destruct fl; simpl; [|done|done].
  by rewrite retain_record_retain_other.
Qed.

(** X7: a call of [emit] for a record of one level leaves the queue of
    every other level exactly as it is (empty, absent or not), and the
    entries of the index that are queued at another level stay in the
    index with their text: records of one level never move records of
    another level out. *)
Theorem other_levels_untouched format σ h record l :
  reachable format h →
  l ≠ logging.levelno record →
  let h' := (emit format σ h record).2 in
  _retain h' !! l = _retain h !! l ∧
  ∀ s text q, _retain h !! l = Some q → s ∈ q → (s, text) ∈ getLogEntries h →
              (s, text) ∈ getLogEntries h'.
Proof.
  intros Hreach Hl h'. subst h'. split; [by apply emit_retain_other|].
  intros s text q Hq Hin He. pose proof (reachable_orderly _ _ Hreach) as Hord.
  rewrite emit_handler. case_bool_decide; [|done].
  pose proof (run_filters_preserves_at
    (λ h1, orderly (logSeq h) h1 ∧ _retain h1 !! l = Some q ∧ (s, text).1 ∈ q
           ∧ (s, text) ∈ _index h1)
    record (_filters h) σ (set_logSeq (logSeq h + 1) h)
    (λ x h0, evict_keeps_other (logSeq h) l (logging.levelno record) x h0 q (s, text)
               (not_eq_sym Hl))) as Hrun.
  destruct (run_filters record (_filters h) σ (set_logSeq (logSeq h + 1) h))
    as [[fl σ1] h1] eqn:Hr.
  pose proof (run_filters_shrinks _ _ _ _ _ _ _ Hr) as (_ & _ & Hn & _). simpl in Hn.
  specialize (Hrun (conj Hord (conj Hq (conj Hin He)))).
  destruct Hrun as (Hord1 & Hq1 & _ & He1). simpl in *.
  destruct fl; simpl; [|done|done].
  apply (retain_record_keeps_other format record l h1 q (s, text)); try done.
  all: try by apply not_eq_sym.
  all: rewrite Hn; by replace (logSeq h + 1 - 1) with (logSeq h) by lia.
Qed.

Lemma other_levels_untouched_witness :
  let h0 := mk {[logging.INFO := 1; logging.ERROR := 1; logging.WARNING := 3]}
               logging.INFO 0 []
               {[logging.INFO := []; logging.ERROR := []; logging.WARNING := []]} [] in
  let σ0 : Heap := λ _, LogRetainFilter.init "a" logging.INFO 1 in
  let h := (exec logging.plain [Emit (logging.mkRecord "a" logging.ERROR "bad");
                                Emit (logging.mkRecord "a" logging.INFO "ok")]
              (σ0, h0)).2 in
  let h' := (emit logging.plain σ0 h (logging.mkRecord "b" logging.INFO "fine")).2 in
  _retain h' !! logging.ERROR = _retain h !! logging.ERROR ∧
  ∀ s text q, _retain h !! logging.ERROR = Some q → s ∈ q →
              (s, text) ∈ getLogEntries h → (s, text) ∈ getLogEntries h'.
Proof.
  intros h0 σ0 h.
  apply (other_levels_untouched logging.plain σ0 h _ logging.ERROR).
  - exists (retainSetup h0), logging.INFO, h0, σ0. eexists. split; reflexivity.
  - vm_compute. discriminate.
Defined.

(** * What a retained record looks like *)

(** Lines 98-102 on a level with a capacity of at least 1, for a record
    that the formatter renders: the record is retained, at the end of the
    index and of its level's queue, which first loses its oldest number
    when it is full. *)
Lemma retain_record_level format record h q C text :
  orderly (logSeq h - 1) h →
  _retain h !! logging.levelno record = Some q →
  retainSetup h !! logging.levelno record = Some C →
  1 ≤ C →
  format record = Ok text →
  ∃ h', retain_record format record h = (Ok Retained, h') ∧
        _retain h' !! logging.levelno record
          = Some ((if bool_decide (C ≤ PyList.len q) then tail q else q) ++ [logSeq h]) ∧
        (∀ l, l ≠ logging.levelno record → _retain h' !! l = _retain h !! l) ∧
        last (_index h') = Some (logSeq h, text) ∧
        _filters h' = _filters h ∧ logSeq h' = logSeq h.
Proof.
  intros (O1 & O2 & O3 & O4 & O5) Hq Hcap Hpos Hf.
  assert (logSeq h ∉ OrderedDict.keys (_index h)) as Hfresh.
  { intros Hin. specialize (O3 _ Hin). lia. }
  unfold retain_record, append_seq. rewrite Hf. simpl.
  rewrite (setitem_fresh _ _ _ Hfresh), Hq, Hcap.
  case_bool_decide as Hfull.
  - destruct q as [|rm q'].
    { unfold PyList.len in Hfull. simpl in Hfull. lia. }
    simpl.
    assert (rm ∈ index_keys h) as Hrm.
    { apply O2. exists (logging.levelno record), (rm :: q'). split; [done|set_solver]. }
    destruct (odpop_present _ _ Hrm) as (v' & d' & Hp).
    rewrite (odpop_app_l _ _ _ _ _ Hp). eexists. split; [reflexivity|]. simpl.
    split_and!; try done.
    + by rewrite lookup_insert_eq.
    + intros l Hl. by rewrite !lookup_insert_ne.
    + by rewrite last_snoc.
  - eexists. split; [reflexivity|]. simpl. split_and!; try done.
    + by rewrite lookup_insert_eq.
    + intros l Hl. by rewrite lookup_insert_ne.
    + by rewrite last_snoc.
Qed.

Lemma retain_record_Retained format record h h' :
  orderly (logSeq h - 1) h →
  retain_record format record h = (Ok Retained, h') →
  (∃ text, format record = Ok text ∧ last (_index h') = Some (logSeq h, text)) ∧
  (∃ q, _retain h' !! logging.levelno record = Some q ∧ last q = Some (logSeq h)) ∧
  logSeq h' = logSeq h.
Proof.
  intros (O1 & O2 & O3 & O4 & O5).
  assert (logSeq h ∉ OrderedDict.keys (_index h)) as Hfresh.
  { intros Hin. specialize (O3 _ Hin). lia. }
  unfold retain_record, append_seq. destruct (format record) as [text|e0]; [|done].
  simpl. rewrite (setitem_fresh _ _ _ Hfresh).
  destruct (_retain h !! logging.levelno record) as [q|] eqn:Hq; [|done].
  destruct (retainSetup h !! logging.levelno record) as [cap|]; [|done].
  case_bool_decide.
  - destruct q as [|rm q']; [done|]. simpl.
    assert (rm ∈ index_keys h) as Hrm.
    { apply O2. exists (logging.levelno record), (rm :: q'). split; [done|set_solver]. }
    destruct (odpop_present _ _ Hrm) as (v' & d' & Hp).
    rewrite (odpop_app_l _ _ _ _ _ Hp). intros [= <-]. simpl.
    split_and!; [exists text; by rewrite last_snoc| |done].
    eexists. rewrite lookup_insert_eq. split; [done|by rewrite last_snoc].
  - intros [= <-]. simpl. split_and!; [exists text; by rewrite last_snoc| |done].
    eexists. rewrite lookup_insert_eq. split; [done|by rewrite last_snoc].
Qed.

(** X8: when [emit] on a reachable handler retains the record (it reaches
    the end of the method), the formatter has rendered the record and the
    record is the newest entry: the last pair that [getLogEntries] yields
    is the record's new sequence number with the rendered text, and that
    number is the last of its level's queue. *)
Theorem retained_record_is_newest format σ h record σ' h' :
  reachable format h →
  emit format σ h record = (Ok Retained, σ', h') →
  logSeq h' = logSeq h + 1 ∧
  (∃ text, format record = Ok text ∧
           last (getLogEntries h') = Some (logSeq h + 1, text)) ∧
  ∃ q, _retain h' !! logging.levelno record = Some q ∧ last q = Some (logSeq h + 1).
Proof.
  intros Hreach He. pose proof (reachable_orderly _ _ Hreach) as Hord.
  assert (level h ≤ logging.levelno record) as Hle.
  { destruct (decide (level h ≤ logging.levelno record)) as [?|Hn]; [done|].
    unfold emit in He. by rewrite bool_decide_eq_false_2 in He. }
  destruct (run_filters record (_filters h) σ (set_logSeq (logSeq h + 1) h))
    as [[fl σ1] h1] eqn:Hr.
  destruct (run_filters_orderly _ _ _ _ _ _ Hord Hr) as (_ & Hord1 & Hn).
  rewrite (emit_run _ _ _ _ _ _ _ Hle Hr) in He.
  destruct fl; [|done|done].
  destruct (retain_record format record h1) as [res h2] eqn:Hrr.
  injection He as -> _ ->.
  destruct (retain_record_Retained _ _ _ _ Hord1 Hrr) as (Hl & Hq & Hn').
  rewrite Hn in *. done.
Qed.

Lemma retained_record_is_newest_witness :
  let h0 := mk {[logging.INFO := 1]} logging.INFO 0 [] {[logging.INFO := []]} [] in
  let σ0 : Heap := λ _, LogRetainFilter.init "b" logging.INFO 1 in
  let h := (exec logging.plain [AddFilter 0%nat; Emit (logging.mkRecord "a" logging.INFO "old")]
              (σ0, h0)).2 in
  let record := logging.mkRecord "a" logging.INFO "new" in
  let r := emit logging.plain σ0 h record in
  logSeq r.2 = logSeq h + 1 ∧
  (∃ text, logging.plain record = Ok text ∧
           last (getLogEntries r.2) = Some (logSeq h + 1, text)) ∧
  ∃ q, _retain r.2 !! logging.levelno record = Some q ∧ last q = Some (logSeq h + 1).
Proof.
  intros h0 σ0 h record r.
  apply (retained_record_is_newest logging.plain σ0 h record r.1.2 r.2).
  - exists (retainSetup h0), logging.INFO, h0, σ0. eexists. split; reflexivity.
  - reflexivity.
Defined.

(** X9: on a reachable handler, a record that passes the threshold, that
    no filter object of the chain matches, that the formatter renders and
    whose level has a capacity of at least 1 is always retained: [emit]
    does not raise, the chain and the filter objects are as before, the
    record's number is appended to its level's queue after the oldest
    number was dropped from a full queue, the other queues are unchanged
    and the rendered text is the last entry. *)
Theorem unmatched_record_is_retained format σ h record C text :
  reachable format h →
  none_matches σ record (_filters h) →
  level h ≤ logging.levelno record →
  retainSetup h !! logging.levelno record = Some C →
  1 ≤ C →
  format record = Ok text →
  ∃ q σ' h', _retain h !! logging.levelno record = Some q ∧
    emit format σ h record = (Ok Retained, σ', h') ∧
    same_heap σ σ' ∧
    _retain h' !! logging.levelno record
      = Some ((if bool_decide (C ≤ PyList.len q) then tail q else q) ++ [logSeq h + 1]) ∧
    (∀ l, l ≠ logging.levelno record → _retain h' !! l = _retain h !! l) ∧
    last (getLogEntries h') = Some (logSeq h + 1, text) ∧
    _filters h' = _filters h.
Proof.
  intros Hreach Hno Hle Hcap Hpos Hf.
  pose proof (reachable_orderly _ _ Hreach) as Hord.
  assert (is_Some (_retain h !! logging.levelno record)) as [q Hq].
  { apply elem_of_dom. rewrite (reachable_dom _ _ Hreach). apply elem_of_dom. by eexists. }
  destruct (emit_nomatch format σ h record Hle Hno) as (σ' & -> & Hσ).
  destruct (retain_record_level format record (set_logSeq (logSeq h + 1) h) q C text)
    as (h' & -> & Hq' & Hother & Hlast & Hfs & _); try done.
  { simpl. by replace (logSeq h + 1 - 1) with (logSeq h) by lia. }
  exists q, σ', h'. done.
Qed.

Lemma unmatched_record_is_retained_witness :
  let h0 := mk {[logging.INFO := 1]} logging.INFO 0 [] {[logging.INFO := []]} [] in
  let σ0 : Heap := λ _, LogRetainFilter.init "b" logging.INFO 1 in
  let h := (exec logging.plain [AddFilter 0%nat; AddFilter 0%nat;
                                Emit (logging.mkRecord "a" logging.INFO "old")]
              (σ0, h0)).2 in
  let record := logging.mkRecord "a" logging.INFO "new" in
  ∃ q σ' h', _retain h !! logging.levelno record = Some q ∧
    emit logging.plain σ0 h record = (Ok Retained, σ', h') ∧
    same_heap σ0 σ' ∧
    _retain h' !! logging.levelno record
      = Some ((if bool_decide (1 ≤ PyList.len q) then tail q else q) ++ [logSeq h + 1]) ∧
    (∀ l, l ≠ logging.levelno record → _retain h' !! l = _retain h !! l) ∧
    last (getLogEntries h') = Some (logSeq h + 1, "new") ∧
    _filters h' = _filters h.
Proof.
  intros h0 σ0 h record.
  apply (unmatched_record_is_retained logging.plain σ0 h record 1 "new").
  - exists (retainSetup h0), logging.INFO, h0, σ0. eexists. split; reflexivity.
  - repeat constructor.
  - vm_compute. discriminate.
  - reflexivity.
  - lia.
  - reflexivity.
Defined.

(** * Capacities below 1 *)

Lemma shrinks_empty_below h h' : shrinks h h' → empty_below_one h → empty_below_one h'.
Proof.
  intros (A1 & _ & _ & _ & _ & _ & A6) He lvl q' c Hq' Hs Hc.
  destruct (A6 _ _ Hq') as (q & Hq & Hsub). rewrite A1 in Hs.
  rewrite (He _ _ _ Hq Hs Hc) in Hsub. by apply sublist_nil_r in Hsub.
Qed.

Lemma retain_record_empty_below format record h :
  empty_below_one h → empty_below_one (retain_record format record h).2.
Proof.
  intros He. unfold retain_record, append_seq.
  destruct (format record) as [text|e0]; [|exact He]. simpl.
  destruct (_retain h !! logging.levelno record) as [q|] eqn:Hq; [|exact He].
  destruct (retainSetup h !! logging.levelno record) as [cap|] eqn:Hcap; [|exact He].
  case_bool_decide as Hfull.
  - destruct q as [|rm q]; simpl; [exact He|].
    assert (0 < cap) as Hpos.
    { destruct (decide (cap ≤ 0)) as [Hc|?]; [|lia]. by specialize (He _ _ _ Hq Hcap Hc). }
    destruct (OrderedDict.pop rm _) as [[v d]|e] eqn:Hp; simpl;
      intros lvl q' c; simpl; rewrite ?insert_insert_eq, lookup_insert;
      case_decide as Hl.
    + subst lvl. intros _ Hs Hc. rewrite Hcap in Hs. injection Hs as <-. lia.
    + intros Hq' Hs Hc. by eapply He.
    + subst lvl. intros _ Hs Hc. rewrite Hcap in Hs. injection Hs as <-. lia.
    + intros Hq' Hs Hc. by eapply He.
  - intros lvl q' c; simpl. rewrite lookup_insert. case_decide as Hl.
    + subst lvl. intros _ Hs Hc. rewrite Hcap in Hs. injection Hs as <-.
      unfold PyList.len in Hfull. lia.
    + intros Hq' Hs Hc. by eapply He.
Qed.

Lemma emit_empty_below format σ h record :
  empty_below_one h → empty_below_one (emit format σ h record).2.
Proof.
  intros He. rewrite emit_handler. case_bool_decide; [|done].
  destruct (run_filters record _ _ _) as [[fl σ1] h1] eqn:Hr.
  apply run_filters_shrinks in Hr.
  assert (empty_below_one h1) as He1.
  { apply (shrinks_empty_below _ _ Hr). exact He. }
  destruct fl; simpl; [|done|done]. by apply retain_record_empty_below.
Qed.

Lemma reachable_empty_below format h : reachable format h → empty_below_one h.
Proof.
  intros (retain & lvl & h0 & σ0 & ops & [= <-] & ->).
  apply (exec_preserves format empty_below_one); [apply emit_empty_below|done|].
  intros l q c; simpl. rewrite init_retain_lookup.
  destruct (retain !! l); simpl; congruence.
Qed.

(** X10: a level configured with a capacity of 0 or less never holds
    anything in its queue, and every record of that level that passes the
    threshold, that no filter object of the chain matches and that the
    formatter renders makes [emit] raise [IndexError] (at
    [lvlRecs.pop(0)]) after the text was stored: the entry is in the
    index, in no queue, and stays in what [getLogEntries] yields after
    every later sequence of calls. *)
Theorem capacity_below_one_raises format σ h record c text :
  reachable format h →
  none_matches σ record (_filters h) →
  level h ≤ logging.levelno record →
  retainSetup h !! logging.levelno record = Some c →
  c ≤ 0 →
  format record = Ok text →
  let seq := logSeq h + 1 in
  _retain h !! logging.levelno record = Some [] ∧
  ∃ σ' h', emit format σ h record = (Raise IndexError, σ', h') ∧
        same_heap σ σ' ∧
        _index h' = _index h ++ [(seq, text)] ∧
        _retain h' = _retain h ∧
        ∀ σ'' ops, seq ∈ (getLogEntries (exec format ops (σ'', h')).2).*1.
Proof.
  intros Hreach Hno Hle Hcap Hc Hf seq.
  pose proof (reachable_bounded _ _ Hreach) as (H0 & Hk & Hqb).
  assert (is_Some (_retain h !! logging.levelno record)) as [q Hq].
  { apply elem_of_dom. rewrite (reachable_dom _ _ Hreach). apply elem_of_dom. by eexists. }
  pose proof (reachable_empty_below _ _ Hreach _ _ _ Hq Hcap Hc) as ->.
  split; [done|].
  assert (seq ∉ OrderedDict.keys (_index h)) as Hfresh.
  { intros Hin. apply Hk in Hin. subst seq. lia. }
  destruct (emit_nomatch format σ h record Hle Hno) as (σ' & -> & Hσ).
  unfold retain_record. rewrite Hf. simpl. rewrite Hq, Hcap, (setitem_fresh _ _ _ Hfresh).
  rewrite bool_decide_eq_true_2 by (unfold PyList.len; simpl; lia). simpl.
  exists σ'. eexists. split; [reflexivity|]. simpl. split_and!; try done.
  intros σ'' ops. apply (exec_stranded format seq ops (σ'', _)).
  unfold stranded, index_keys, OrderedDict.keys. simpl.
  split_and!; [|..|done].
  - rewrite fmap_app. set_solver.
  - intros (l & q' & Hql & Hin). specialize (Hqb _ _ _ Hql Hin). subst seq. lia.
Qed.

Lemma capacity_below_one_raises_witness :
  let h := mk {[logging.INFO := 0]} logging.INFO 0 [] {[logging.INFO := []]} [] in
  let σ : Heap := λ _, LogRetainFilter.init "x" logging.INFO 1 in
  let record := logging.mkRecord "a" logging.INFO "m" in
  _retain h !! logging.levelno record = Some [] ∧
  ∃ σ' h', emit logging.plain σ h record = (Raise IndexError, σ', h') ∧
        same_heap σ σ' ∧
        _index h' = _index h ++ [(logSeq h + 1, "m")] ∧
        _retain h' = _retain h ∧
        ∀ σ'' ops, logSeq h + 1 ∈ (getLogEntries (exec logging.plain ops (σ'', h')).2).*1.
Proof.
  intros h σ record. apply (capacity_below_one_raises logging.plain σ h record 0 "m").
  - exists (retainSetup h), logging.INFO, h, σ, []. split; reflexivity.
  - constructor.
  - vm_compute. discriminate.
  - reflexivity.
  - lia.
  - reflexivity.
Defined.

(** * A formatter that raises *)

(** X21: when [self.format(record)] raises on line 98, the record is never
    stored: [emit] does not reach its end, the counter has advanced, the
    index has gained nothing, and the record's sequence number is in no
    index and in no queue of any later state.  When no filter object of
    the chain matches the record, the exception of the formatter is the
    one that leaves [emit], and only the counter has changed. *)
Theorem format_error_stores_nothing format σ h record e :
  reachable format h →
  level h ≤ logging.levelno record →
  format record = Raise e →
  let seq := logSeq h + 1 in
  let r := emit format σ h record in
  r.1.1 ≠ Ok Retained ∧
  logSeq r.2 = seq ∧
  _index r.2 `sublist_of` _index h ∧
  (none_matches σ record (_filters h) →
   r.1.1 = Raise e ∧ r.2 = set_logSeq seq h ∧ same_heap σ r.1.2) ∧
  ∀ σ'' ops, (seq ∉ (getLogEntries (exec format ops (σ'', r.2)).2).*1) ∧
             ¬ queued (exec format ops (σ'', r.2)).2 seq.
Proof.
  intros Hreach Hle Hf seq r. subst seq r.
  pose proof (reachable_bounded _ _ Hreach) as (H0 & Hk & Hq).
  destruct (run_filters record (_filters h) σ (set_logSeq (logSeq h + 1) h))
    as [[fl σ1] h1] eqn:Hr.
  assert (retain_record format record h1 = (Raise e, h1)) as Hrr.
  { unfold retain_record. by rewrite Hf. }
  assert ((emit format σ h record).2 = h1) as Hh.
  { rewrite (emit_run _ _ _ _ _ _ _ Hle Hr). destruct fl; [by rewrite Hrr|done|done]. }
  pose proof (run_filters_shrinks _ _ _ _ _ _ _ Hr) as Hs.
  pose proof (shrinks_keys _ _ Hs) as Hsubk.
  destruct Hs as (_ & _ & Hn & _ & _ & Hsub & Hqs). simpl in Hn, Hsub, Hqs, Hsubk.
  rewrite Hh. split_and!; [|done|done| |].
  - rewrite (emit_run _ _ _ _ _ _ _ Hle Hr). destruct fl; [by rewrite Hrr|done|done].
  - intros Hno. destruct (emit_nomatch format σ h record Hle Hno) as (σ' & He & Hσ).
    pose proof (f_equal (λ x, x.2) He) as He2. simpl in He2. rewrite Hh in He2.
    rewrite He. simpl. unfold retain_record. rewrite Hf. simpl.
    split_and!; [done| |done]. rewrite He2. unfold retain_record. by rewrite Hf.
  - intros σ'' ops. destruct (exec_origin format ops (σ'', h1)) as (_ & Ok1 & Oq).
    simpl in Ok1, Oq. split.
    + intros Hin. destruct (Ok1 _ Hin) as [Hin'|Hlt]; [|lia].
      pose proof (elem_of_sublist _ _ _ Hin' Hsubk) as Hin0. apply Hk in Hin0. lia.
    + intros (lvl & q' & Hq' & Hin). destruct (Oq _ _ _ Hq' Hin) as [Hlt|(q1 & Hq1 & Hin1)];
        [lia|].
      destruct (Hqs _ _ Hq1) as (q & Hqq & Hsubq).
      pose proof (Hq _ _ _ Hqq (elem_of_sublist _ _ _ Hin1 Hsubq)). lia.
Qed.

Lemma format_error_stores_nothing_witness :
  let h0 := mk {[logging.INFO := 2]} logging.INFO 0 [] {[logging.INFO := []]} [] in
  let σ0 : Heap := λ _, LogRetainFilter.init "a" logging.INFO 2 in
  let format := logging.failing "x %d" TypeError in
  let h := (exec format [AddFilter 0%nat; Emit (logging.mkRecord "a" logging.INFO "ok")]
              (σ0, h0)).2 in
  let r := emit format σ0 h (logging.mkRecord "b" logging.INFO "x %d") in
  r.1.1 ≠ Ok Retained ∧
  logSeq r.2 = logSeq h + 1 ∧
  _index r.2 `sublist_of` _index h ∧
  (none_matches σ0 (logging.mkRecord "b" logging.INFO "x %d") (_filters h) →
   r.1.1 = Raise TypeError ∧ r.2 = set_logSeq (logSeq h + 1) h ∧ same_heap σ0 r.1.2) ∧
  ∀ σ'' ops, (logSeq h + 1 ∉ (getLogEntries (exec format ops (σ'', r.2)).2).*1) ∧
             ¬ queued (exec format ops (σ'', r.2)).2 (logSeq h + 1).
Proof.
  intros h0 σ0 format h r.
  apply (format_error_stores_nothing format σ0 h _ TypeError).
  - exists (retainSetup h0), logging.INFO, h0, σ0. eexists. split; reflexivity.
  - vm_compute. discriminate.
  - reflexivity.
Defined.

(** * The memory of a filter *)

Lemma filter_fifo_bounded f n record :
  fifo_bounded f → fifo_bounded (LogRetainFilter.filter f n record).2.
Proof.
  unfold fifo_bounded, LogRetainFilter.filter, PyList.len. intros Hb.
  destruct (LogRetainFilter.cls f); [|by destruct (LogRetainFilter.matches f record)].
  destruct (LogRetainFilter.matches f record); [|done].
  case_bool_decide as Hfull.
  - destruct (LogRetainFilter._index f) as [|x rest] eqn:Hi; simpl in *.
    + rewrite Hi. simpl. lia.
    + rewrite length_app. simpl. lia.
  - simpl. rewrite length_app. simpl. lia.
Qed.

Lemma run_filters_fifo_bounded record fs σ h l :
  fifo_bounded (σ l) → fifo_bounded ((run_filters record fs σ h).1.2 l).
Proof.
  revert σ h. induction fs as [|l0 fs IH]; intros σ h Hb; simpl; [done|].
  pose proof (filter_step_heap record l0 σ h) as Hσ.
  destruct (filter_step record l0 σ h) as [[fl1 σ1] h1]. simpl in Hσ.
  assert (fifo_bounded (σ1 l)) as Hb1.
  { subst σ1. destruct (decide (l0 = l)) as [->|Hne].
    - rewrite fn_lookup_insert. by apply filter_fifo_bounded.
    - by rewrite fn_lookup_insert_ne. }
  destruct fl1; simpl; [by apply IH|done|done].
Qed.

(** A property of the heap that the loop over the filters keeps holds
    after every run. *)
Lemma exec_heap_preserves format (P : Heap → Prop) :
  (∀ record fs σ h, P σ → P (run_filters record fs σ h).1.2) →
  ∀ ops w, P w.1 → P (exec format ops w).1.
Proof.
  intros Hrun. induction ops as [|op ops IH]; intros [σ h] HP; simpl; [done|].
  apply IH. destruct op as [record|l]; cbn [apply_op fst snd]; [|done].
  rewrite emit_heap. case_bool_decide; [|done]. by apply Hrun.
Qed.

(** X11: the FIFO of a filter object stays within the filter's capacity:
    an object that holds at most [max(0, count)] numbers (a new filter
    holds none) still does after every run, whatever the records and the
    outcomes of the calls, and however often it is registered. *)
Theorem filter_fifos_bounded format ops σ h l :
  fifo_bounded (σ l) → fifo_bounded ((exec format ops (σ, h)).1 l).
Proof.
  intros Hb.
  apply (exec_heap_preserves format (λ σ1, fifo_bounded (σ1 l))
           (λ record fs σ1 h1, run_filters_fifo_bounded record fs σ1 h1 l) ops (σ, h) Hb).
Qed.

Lemma filter_fifos_bounded_witness :
  let h0 := mk {[logging.INFO := 5]} logging.INFO 0 [] {[logging.INFO := []]} [] in
  let σ0 : Heap := λ _, LogRetainFilter.init "a" logging.INFO 2 in
  let r := logging.mkRecord "a" logging.INFO "m" in
  fifo_bounded
    ((exec logging.plain
        [AddFilter 0%nat; Emit r; AddFilter 0%nat; Emit r; Emit r; Emit r] (σ0, h0)).1 0%nat).
Proof.
  intros h0 σ0 r.
  apply (filter_fifos_bounded logging.plain).
  unfold fifo_bounded. simpl. by vm_compute.
Defined.

(** * The most recent records of a level *)

Lemma level_seqs_emit format L lvl n record ops :
  level_seqs format L lvl n (Emit record :: ops)
  = (if bool_decide (lvl ≤ logging.levelno record)
     then (if decide (logging.levelno record = L ∧ returns (format record) = true)
           then [n + 1] else [])
          ++ level_seqs format L lvl (n + 1) ops
     else level_seqs format L lvl n ops).
Proof.
  unfold level_seqs. simpl. case_bool_decide; [|done].
  rewrite filter_cons. simpl. by case_decide.
Qed.

Lemma lastn_short c (l : list Z) : (length l ≤ Z.to_nat c)%nat → lastn c l = l.
Proof.
  intros Hl. unfold lastn. by replace (length l - Z.to_nat c)%nat with 0%nat by lia.
Qed.

Lemma lastn_rotate c (q : list Z) x rest :
  1 ≤ c → (length q ≤ Z.to_nat c)%nat →
  lastn c (((if bool_decide (c ≤ PyList.len q) then tail q else q) ++ [x]) ++ rest)
  = lastn c (q ++ x :: rest).
Proof.
  intros Hc Hl. unfold PyList.len. case_bool_decide as Hfull.
  - destruct q as [|x0 t]; simpl in *; [lia|].
    unfold lastn. rewrite <- !app_assoc. simpl.
    rewrite !length_app. simpl.
    replace (length t + S (length rest) - Z.to_nat c)%nat with (length rest) by lia.
    replace (S (length t + S (length rest)) - Z.to_nat c)%nat
      with (S (length rest)) by lia.
    done.
  - by rewrite <- app_assoc.
Qed.

Lemma emit_no_filters format σ h record :
  _filters h = [] →
  level h ≤ logging.levelno record →
  emit format σ h record
  = ((retain_record format record (set_logSeq (logSeq h + 1) h)).1, σ,
     (retain_record format record (set_logSeq (logSeq h + 1) h)).2).
Proof.
  intros Hfs Hle.
  rewrite (emit_run format σ h record Continue σ (set_logSeq (logSeq h + 1) h) Hle); [done|].
  by rewrite Hfs.
Qed.

Lemma exec_queue_recent format ops σ h L C q :
  _filters h = [] →
  orderly (logSeq h) h →
  retainSetup h !! L = Some C → 1 ≤ C →
  _retain h !! L = Some q → (length q ≤ Z.to_nat C)%nat →
  no_addFilter ops →
  _retain (exec format ops (σ, h)).2 !! L
  = Some (lastn C (q ++ level_seqs format L (level h) (logSeq h) ops)).
Proof.
  intros Hfs Hord Hcap Hpos Hq Hlen Hops. revert σ h q Hfs Hord Hcap Hq Hlen.
  induction Hops as [|op ops Hop _ IH]; intros σ h q Hfs Hord Hcap Hq Hlen; simpl.
  - unfold level_seqs. simpl. rewrite app_nil_r, Hq. by rewrite lastn_short.
  - destruct op as [record|l]; [|done]. cbn [apply_op fst snd].
    destruct (emit_logSeq format σ h record) as (Hn & Hl & Hfs').
    pose proof (emit_orderly format σ h record Hord) as Hord1.
    assert (retainSetup (emit format σ h record).2 = retainSetup h) as Hs1.
    { destruct (emit_extends format σ h record) as [->|[(-> & _) _]]; done. }
    rewrite Hfs in Hfs'. rewrite <- Hs1 in Hcap.
    rewrite level_seqs_emit.
    destruct (bool_decide (level h ≤ logging.levelno record)) eqn:Hle.
    2:{ rewrite (IH _ _ q Hfs' Hord1 Hcap); [by rewrite Hl, Hn| |done].
        rewrite emit_handler, Hle. done. }
    apply bool_decide_eq_true in Hle.
    destruct (decide (logging.levelno record = L)) as [HL|HL].
    2:{ rewrite decide_False by tauto.
        rewrite (IH _ _ q Hfs' Hord1 Hcap); [by rewrite Hl, Hn| |done].
        by rewrite emit_retain_other. }
    destruct (format record) as [text|e] eqn:Hf.
    + rewrite decide_True by done.
      assert (_retain (emit format σ h record).2 !! L
              = Some ((if bool_decide (C ≤ PyList.len q) then tail q else q)
                      ++ [logSeq h + 1])) as Hq'.
      { rewrite (emit_no_filters _ _ _ _ Hfs Hle). subst L. rewrite Hs1 in Hcap.
        destruct (retain_record_level format record (set_logSeq (logSeq h + 1) h) q C text)
          as (h' & -> & Hq' & _); try done.
        simpl. by replace (logSeq h + 1 - 1) with (logSeq h) by lia. }
      rewrite (IH _ _ _ Hfs' Hord1 Hcap Hq').
      * rewrite Hl, Hn. f_equal. by apply lastn_rotate.
      * unfold PyList.len. rewrite length_app. simpl.
        destruct (bool_decide (C ≤ Z.of_nat (length q))) eqn:Hb.
        -- apply bool_decide_eq_true in Hb. destruct q as [|x0 t]; simpl in *; lia.
        -- apply bool_decide_eq_false in Hb. lia.
    + rewrite decide_False by (simpl; intros [_ ?]; done).
      rewrite (IH _ _ q Hfs' Hord1 Hcap); [by rewrite Hl, Hn| |done].
      rewrite (emit_no_filters _ _ _ _ Hfs Hle). unfold retain_record. by rewrite Hf.
Qed.

(** X12: on a handler without filters, the queue of a level with a
    capacity [C] of at least 1 holds, after every run, exactly the
    sequence numbers of the [C] most recent accepted records of that level
    that the formatter rendered (of all of them while there are fewer),
    oldest first; records of other levels, of unconfigured levels, below
    the threshold, or on which the formatter raises do not change
    this. *)
Theorem queue_holds_most_recent format retain lvl h0 σ0 ops L C :
  init retain lvl = Ok h0 →
  retain !! L = Some C →
  1 ≤ C →
  no_addFilter ops →
  _retain (exec format ops (σ0, h0)).2 !! L
  = Some (lastn C (level_seqs format L lvl 0 ops)).
Proof.
  intros Hi HC Hpos Hops.
  pose proof (init_orderly _ _ _ Hi) as Hord.
  injection Hi as <-.
  rewrite (exec_queue_recent format ops _ _ L C []); try done.
  - simpl. by rewrite init_retain_lookup, HC.
  - simpl. lia.
Qed.

Lemma queue_holds_most_recent_witness :
  let retain : gmap Z Z := {[logging.INFO := 2; logging.ERROR := 1]} in
  let h0 := mk retain logging.INFO 0 []
               (map_fold (λ k _ acc, <[k := []]> acc) ∅ retain) [] in
  let σ0 : Heap := λ _, LogRetainFilter.init "a" logging.INFO 1 in
  let r l := Emit (logging.mkRecord "a" l "m") in
  let bad := Emit (logging.mkRecord "a" logging.INFO "x %d") in
  let ops := [r logging.INFO; r logging.ERROR; r logging.DEBUG; r logging.INFO;
              bad; r logging.WARNING; r logging.INFO; bad] in
  _retain (exec (logging.failing "x %d" TypeError) ops (σ0, h0)).2 !! logging.INFO
  = Some (lastn 2 (level_seqs (logging.failing "x %d" TypeError)
                     logging.INFO logging.INFO 0 ops)).
Proof.
  intros retain h0 σ0 r bad ops.
  apply (queue_holds_most_recent (logging.failing "x %d" TypeError)
           retain logging.INFO h0 σ0 ops logging.INFO 2).
  - reflexivity.
  - reflexivity.
  - lia.
  - repeat constructor.
Defined.

Lemma accepted_gt lvl n ops s record : (s, record) ∈ accepted lvl n ops → n < s.
Proof.
  revert n. induction ops as [|op ops IH]; intros n; simpl; [set_solver|].
  destruct op as [r|f]; [|apply IH]. case_bool_decide; [|apply IH].
  rewrite elem_of_cons. intros [[= -> ->]|Hin]; [lia|]. apply IH in Hin. lia.
Qed.

Lemma accepted_functional lvl n ops s r1 r2 :
  (s, r1) ∈ accepted lvl n ops → (s, r2) ∈ accepted lvl n ops → r1 = r2.
Proof.
  revert n. induction ops as [|op ops IH]; intros n; simpl; [set_solver|].
  destruct op as [r|f]; [|apply IH]. case_bool_decide; [|apply IH].
  rewrite !elem_of_cons. intros [H1|H1] [H2|H2].
  - congruence.
  - injection H1 as -> ->. apply accepted_gt in H2. lia.
  - injection H2 as -> ->. apply accepted_gt in H1. lia.
  - by eapply IH.
Qed.

Lemma level_seqs_elem format L lvl n ops s :
  s ∈ level_seqs format L lvl n ops ↔
  ∃ record, (s, record) ∈ accepted lvl n ops ∧ logging.levelno record = L
            ∧ returns (format record) = true.
Proof.
  unfold level_seqs. rewrite list_elem_of_fmap. split.
  - intros ([s' r] & -> & [[Hl Hf] Hin]%list_elem_of_filter). by exists r.
  - intros (r & Hin & Hl & Hf). exists (s, r). split; [done|]. by apply list_elem_of_filter.
Qed.

(** X13: without filters, with every capacity at least 1 and every emitted
    record at a configured level, what [getLogEntries] yields after a run
    on a fresh handler is exactly this: the pairs of sequence number and
    rendered text of the accepted records that the formatter rendered and
    that are among the [C] most recent such records of their own level,
    [C] being the capacity of that level. *)
Theorem entries_are_most_recent_per_level format retain lvl h0 σ0 ops s text :
  init retain lvl = Ok h0 →
  (∀ k c, retain !! k = Some c → 1 ≤ c) →
  levels_configured retain ops →
  no_addFilter ops →
  (s, text) ∈ getLogEntries (exec format ops (σ0, h0)).2 ↔
  ∃ record C,
    (s, record) ∈ accepted lvl 0 ops ∧ format record = Ok text ∧
    retain !! logging.levelno record = Some C ∧
    s ∈ lastn C (level_seqs format (logging.levelno record) lvl 0 ops).
Proof.
  intros Hi Hcaps Hcfg Hops.
  pose proof (init_orderly _ _ _ Hi) as Hord0.
  pose proof (init_coherent _ _ _ Hi Hcaps) as Hc0.
  assert (retainSetup h0 = retain ∧ level h0 = lvl ∧ logSeq h0 = 0 ∧ _filters h0 = []
          ∧ ∀ L, _retain h0 !! L = (λ _, []) <$> retain !! L) as (Hs & Hl & Hn & Hfs & Hr0).
  { injection Hi as <-. simpl. split_and!; try done. intros L. apply init_retain_lookup. }
  assert (∀ L C, retain !! L = Some C →
            _retain (exec format ops (σ0, h0)).2 !! L
            = Some (lastn C (level_seqs format L lvl 0 ops)))
    as Hqueue.
  { intros L C HC.
    rewrite (exec_queue_recent format ops σ0 h0 L C []); try done.
    - by rewrite Hl, Hn.
    - by rewrite Hs.
    - by apply Hcaps in HC.
    - by rewrite Hr0, HC.
    - simpl. lia. }
  rewrite <- Hs in Hcfg.
  destruct (exec_coherent format ops (σ0, h0) Hc0 Hcfg) as (_ & C2 & _ & _ & _ & C6 & _).
  destruct (exec_config format ops (σ0, h0)) as (Hs' & _ & _). simpl in Hs'.
  unfold getLogEntries. split.
  - intros Hin.
    destruct (exec_entry_origin _ _ _ _ Hin) as [Hin0|(record & Hacc & Ht)].
    { injection Hi as <-. simpl in Hin0. set_solver. }
    simpl in Hacc, Ht. rewrite Hl, Hn in Hacc.
    assert (s ∈ index_keys (exec format ops (σ0, h0)).2) as Hk.
    { unfold index_keys, OrderedDict.keys. apply list_elem_of_fmap. by exists (s, text). }
    apply C2 in Hk as (L & q & Hq & Hsq).
    assert (is_Some (retain !! L)) as [C HC].
    { rewrite <- Hs, <- Hs'. apply elem_of_dom. rewrite <- C6. apply elem_of_dom. by eexists. }
    rewrite (Hqueue _ _ HC) in Hq. injection Hq as <-.
    assert (s ∈ level_seqs format L lvl 0 ops) as Hlv.
    { eapply elem_of_sublist; [exact Hsq|]. unfold lastn. apply sublist_drop. }
    apply level_seqs_elem in Hlv as (r' & Hacc' & HL & _).
    rewrite (accepted_functional _ _ _ _ _ _ Hacc' Hacc) in HL. subst L.
    by exists record, C.
  - intros (record & C & Hacc & Hf & HC & Hsq).
    assert (queued (exec format ops (σ0, h0)).2 s) as Hqd.
    { exists (logging.levelno record),
        (lastn C (level_seqs format (logging.levelno record) lvl 0 ops)).
      split; [by apply Hqueue|done]. }
    apply C2 in Hqd. unfold index_keys, OrderedDict.keys in Hqd.
    apply list_elem_of_fmap in Hqd as ([s' text'] & -> & Hin). simpl in *.
    destruct (exec_entry_origin _ _ _ _ Hin) as [Hin0|(r' & Hacc' & Ht)].
    { injection Hi as <-. simpl in Hin0. set_solver. }
    simpl in Hacc', Ht. rewrite Hl, Hn in Hacc'.
    rewrite (accepted_functional _ _ _ _ _ _ Hacc' Hacc) in Ht.
    rewrite Hf in Ht. by injection Ht as ->.
Qed.

Lemma entries_are_most_recent_per_level_witness :
  let retain : gmap Z Z := {[logging.INFO := 1]} in
  let h0 := mk retain logging.INFO 0 []
               (map_fold (λ k _ acc, <[k := []]> acc) ∅ retain) [] in
  let σ0 : Heap := λ _, LogRetainFilter.init "a" logging.INFO 1 in
  let format := logging.failing "x %d" TypeError in
  let ops := [Emit (logging.mkRecord "a" logging.INFO "old");
              Emit (logging.mkRecord "a" logging.INFO "new");
              Emit (logging.mkRecord "a" logging.INFO "x %d")] in
  (2, "new") ∈ getLogEntries (exec format ops (σ0, h0)).2 ↔
  ∃ record C,
    (2, record) ∈ accepted logging.INFO 0 ops ∧ format record = Ok "new" ∧
    retain !! logging.levelno record = Some C ∧
    2 ∈ lastn C (level_seqs format (logging.levelno record) logging.INFO 0 ops).
Proof.
  intros retain h0 σ0 format ops.
  apply (entries_are_most_recent_per_level format retain logging.INFO h0 σ0 ops).
  - reflexivity.
  - intros k c Hk. unfold retain in Hk.
    apply lookup_singleton_Some in Hk as [_ <-]. lia.
  - repeat constructor; by eexists.
  - repeat constructor.
Defined.

(** * Filters for other keys *)

Lemma evict_set_filters g lvl x h :
  evict lvl x (set_filters g h) = ((evict lvl x h).1, set_filters g (evict lvl x h).2).
Proof.
  unfold evict. simpl.
  destruct (_retain h !! lvl) as [q|]; [|done].
  destruct (PyList.index x q) as [i|e]; [|done].
  destruct (PyList.pop i q) as [[y q']|e]; [|done]. simpl.
  by destruct (OrderedDict.pop x (_index h)) as [[v d]|e].
Qed.

Lemma filter_step_set_filters g record l σ h :
  filter_step record l σ (set_filters g h)
  = ((filter_step record l σ h).1, set_filters g (filter_step record l σ h).2).
Proof.
  unfold filter_step. simpl.
  destruct (LogRetainFilter.filter (σ l) (logSeq h) record) as [[[x|]|e] f0]; [|done|done].
  repeat case_bool_decide; try done.
  rewrite evict_set_filters. by destruct (evict _ _ h) as [[[]|?] ?].
Qed.

Lemma run_filters_set_filters g record fs σ h :
  run_filters record fs σ (set_filters g h)
  = ((run_filters record fs σ h).1, set_filters g (run_filters record fs σ h).2).
Proof.
  revert σ h. induction fs as [|l fs IH]; intros σ h; simpl; [done|].
  rewrite filter_step_set_filters.
  destruct (filter_step record l σ h) as [[fl1 σ1] h1]. simpl.
  destruct fl1; [|done|done]. apply IH.
Qed.

Lemma retain_record_set_filters format g record h :
  retain_record format record (set_filters g h)
  = ((retain_record format record h).1,
     set_filters g (retain_record format record h).2).
Proof.
  unfold retain_record, append_seq. destruct (format record) as [text|e0]; [|done].
  simpl.
  destruct (_retain h !! logging.levelno record) as [q|]; [|done].
  destruct (retainSetup h !! logging.levelno record) as [cap|]; [|done].
  case_bool_decide; [|done].
  destruct q as [|rm q]; simpl; [done|].
  by destruct (OrderedDict.pop rm _) as [[v d]|e].
Qed.

(** The loop passes a reference to an object that does not match without
    any effect. *)
Lemma run_filters_skip record fs1 l fs2 σ h :
  LogRetainFilter.matches (σ l) record = false →
  (run_filters record (fs1 ++ l :: fs2) σ h).1.1
  = (run_filters record (fs1 ++ fs2) σ h).1.1 ∧
  (run_filters record (fs1 ++ l :: fs2) σ h).2
  = (run_filters record (fs1 ++ fs2) σ h).2 ∧
  same_heap (run_filters record (fs1 ++ fs2) σ h).1.2
            (run_filters record (fs1 ++ l :: fs2) σ h).1.2.
Proof.
  revert σ h. induction fs1 as [|l1 fs1 IH]; intros σ h Hm; simpl.
  - rewrite (filter_step_nomatch _ _ _ _ Hm).
    apply run_filters_proper, same_heap_insert_id.
  - pose proof (filter_step_heap record l1 σ h) as Hσ.
    destruct (filter_step record l1 σ h) as [[fl1 σ1] h1]. simpl in Hσ.
    destruct fl1; simpl; [|done|done].
    apply IH. subst σ1. destruct (decide (l1 = l)) as [->|Hne].
    + rewrite fn_lookup_insert. by rewrite (filter_nomatch _ _ _ Hm).
    + by rewrite fn_lookup_insert_ne.
Qed.

(** [emit] on a handler given by its chain. *)
Lemma emit_set_filters format g σ h record :
  emit format σ (set_filters g h) record
  = (if bool_decide (level h ≤ logging.levelno record) then
       let r := run_filters record g σ (set_logSeq (logSeq h + 1) h) in
       match r.1.1 with
       | Throw e => (Raise e, r.1.2, set_filters g r.2)
       | Return => (Ok Suppressed, r.1.2, set_filters g r.2)
       | Continue => ((retain_record format record r.2).1, r.1.2,
                      set_filters g (retain_record format record r.2).2)
       end
     else (Ok Ignored, σ, set_filters g h)).
Proof.
  unfold emit. simpl. case_bool_decide; [|done].
  pose proof (run_filters_set_filters g record g σ (set_logSeq (logSeq h + 1) h)) as E.
  change (set_logSeq (logSeq h + 1) (set_filters g h))
    with (set_filters g (set_logSeq (logSeq h + 1) h)).
  rewrite E. clear E.
  destruct (run_filters record g σ _) as [[fl σ1] h1]. simpl.
  destruct fl; [|done|done].
  by rewrite retain_record_set_filters.
Qed.

(** X14: a reference to a filter object that does not match a record
    (another name or another level, whatever its class and its state)
    makes no difference to what [emit] does with this record: the outcome,
    the counter, the index and the queues are those of the same call on
    the chain without this reference, every filter object ends in the same
    state, and the object itself is unchanged. *)
Theorem unmatched_filter_is_transparent format σ h record fs1 l fs2 :
  LogRetainFilter.matches (σ l) record = false →
  let without := emit format σ (set_filters (fs1 ++ fs2) h) record in
  let with_f := emit format σ (set_filters (fs1 ++ l :: fs2) h) record in
  with_f.1.1 = without.1.1 ∧
  logSeq with_f.2 = logSeq without.2 ∧
  _index with_f.2 = _index without.2 ∧
  _retain with_f.2 = _retain without.2 ∧
  same_heap without.1.2 with_f.1.2 ∧
  with_f.1.2 l = σ l ∧
  _filters with_f.2 = fs1 ++ l :: fs2.
Proof.
  intros Hm. cbv zeta. rewrite !emit_set_filters. case_bool_decide; [|done].
  destruct (run_filters_skip record fs1 l fs2 σ (set_logSeq (logSeq h + 1) h) Hm)
    as (Hfl & Hh & Hσ).
  pose proof (run_filters_unmatched record (fs1 ++ l :: fs2) σ
                (set_logSeq (logSeq h + 1) h) l Hm) as Hl.
  destruct (run_filters record (fs1 ++ l :: fs2) σ _) as [[fla σa] ha].
  destruct (run_filters record (fs1 ++ fs2) σ _) as [[flb σb] hb].
  simpl in *. subst flb hb. destruct fla; simpl; done.
Qed.

Lemma unmatched_filter_is_transparent_witness :
  let h := mk {[logging.INFO := 1]} logging.INFO 1 [(1, "old")] {[logging.INFO := [1]]} [] in
  let record := logging.mkRecord "a" logging.INFO "new" in
  let keep := LogRetainFilter.mk LogRetainFilter.Retain "a" logging.INFO 5 [1] in
  let other := LogRetainFilter.init_suppress "b" logging.INFO 10 in
  let σ : Heap := λ l, match l with 0%nat => keep | _ => other end in
  let without := emit logging.plain σ (set_filters ([0%nat] ++ [1%nat]) h) record in
  let with_f := emit logging.plain σ (set_filters ([0%nat] ++ 1%nat :: [1%nat]) h) record in
  with_f.1.1 = without.1.1 ∧
  logSeq with_f.2 = logSeq without.2 ∧
  _index with_f.2 = _index without.2 ∧
  _retain with_f.2 = _retain without.2 ∧
  same_heap without.1.2 with_f.1.2 ∧
  with_f.1.2 1%nat = σ 1%nat ∧
  _filters with_f.2 = [0%nat] ++ 1%nat :: [1%nat].
Proof.
  intros h record keep other σ.
  apply (unmatched_filter_is_transparent logging.plain σ h record [0%nat] 1%nat [1%nat]).
  reflexivity.
Defined.

(** * A filter object over a run *)

Lemma covers_shrinks hist f h h' : shrinks h h' → fifo_covers hist f h → fifo_covers hist f h'.
Proof.
  intros (_ & _ & _ & _ & _ & _ & A6) Hc s r q' Hs Hm Hq' Hin.
  destruct (A6 _ _ Hq') as (q & Hq & Hsub).
  apply (Hc s r q Hs Hm Hq). by eapply elem_of_sublist.
Qed.

Lemma filter_step_preserves (P : t → Prop) record l σ h :
  (∀ lvl x h0, P h0 → P (evict lvl x h0).2) → P h → P (filter_step record l σ h).2.
Proof.
  intros Hev HP. unfold filter_step.
  destruct (LogRetainFilter.filter (σ l) (logSeq h) record) as [[[x|]|e] f0]; simpl; try done.
  repeat case_bool_decide; try done.
  specialize (Hev (logging.levelno record) x h HP).
  by destruct (evict _ _ _) as [[[]|?] ?].
Qed.

(** One visit of the followed filter object. *)
Lemma filter_step_tracks b hist record l σ h fl σ' h' :
  orderly b h →
  (∀ s r, (s, r) ∈ hist → 0 < s < logSeq h) →
  LogRetainFilter.cls (σ l) = LogRetainFilter.Retain →
  fifo_covers hist (σ l) h →
  filter_step record l σ h = (fl, σ', h') →
  fifo_covers hist (σ' l) h' ∧
  (fl = Continue → LogRetainFilter.matches (σ l) record = true →
   logSeq h ∈ LogRetainFilter._index (σ' l)).
Proof.
  intros Hord Hhist Hcls Hcov Hs.
  pose proof (filter_step_inv _ _ _ _ _ _ _ Hs) as [Hσ' _]. cbv zeta in Hσ'. subst σ'.
  rewrite !fn_lookup_insert.
  pose proof Hord as (_ & _ & _ & O4 & _).
  revert Hs. unfold filter_step, LogRetainFilter.filter. rewrite Hcls.
  destruct (LogRetainFilter.matches (σ l) record) eqn:Hm.
  2:{ simpl. intros Heq. simplify_eq. done. }
  destruct (matches_true _ _ Hm) as [Hname Hlvl].
  assert (∀ F, same_key (σ l) (LogRetainFilter.set_index F (σ l))) as Hkey by done.
  case_bool_decide as Hfull.
  - destruct (LogRetainFilter._index (σ l)) as [|x rest] eqn:Hfifo; simpl.
    { intros Heq. simplify_eq. done. }
    assert (∀ hx, (∀ s r q, (s, r) ∈ hist →
                     _retain hx !! LogRetainFilter.level (σ l) = Some q →
                     s ∈ q → s ≠ x ∧ ∃ q0, _retain h !! LogRetainFilter.level (σ l) = Some q0
                                          ∧ s ∈ q0) →
              fifo_covers hist (LogRetainFilter.set_index (rest ++ [logSeq h]) (σ l)) hx)
      as Hstep.
    { intros hx Hx s r q Hs Hm' Hq Hin. simpl in *.
      destruct (Hx s r q Hs Hq Hin) as (Hne & q0 & Hq0 & Hin0).
      rewrite (matches_same_key (σ l) _ _ (Hkey _)) in Hm'.
      pose proof (Hcov s r q0 Hs Hm' Hq0 Hin0) as HF. rewrite Hfifo in HF.
      set_solver. }
    assert (∀ s r q, (s, r) ∈ hist → _retain h !! LogRetainFilter.level (σ l) = Some q →
              s ∈ q → ∃ q0, _retain h !! LogRetainFilter.level (σ l) = Some q0 ∧ s ∈ q0)
      as Hsame by (intros s r q _ Hq Hin; by exists q).
    case_bool_decide as Hx0.
    + case_bool_decide as Hxn.
      * intros Heq. simplify_eq. split; [|done]. apply Hstep. intros s r q Hs Hq Hin.
        split; [|by eapply Hsame]. specialize (Hhist _ _ Hs). lia.
      * rewrite Hlvl. unfold evict.
        destruct (_retain h !! LogRetainFilter.level (σ l)) as [q0|] eqn:Hq0.
        2:{ intros Heq. simplify_eq. split; [|done].
            intros s r q Hs Hm' Hq. simpl in Hq. congruence. }
        destruct (PyList.index x q0) as [i|e] eqn:Hi.
        2:{ intros Heq. simplify_eq. apply index_Raise in Hi as [_ Hnin]. split; [|done].
            apply Hstep. intros s r q Hs Hq Hin. rewrite Hq0 in Hq. injection Hq as <-.
            split; [by intros ->|by exists q0]. }
        rewrite (pop_at_index _ _ _ Hi). simpl.
        destruct (index_Ok _ _ _ Hi) as (l1 & l2 & -> & _ & -> & Hdel). rewrite Hdel.
        pose proof (StronglySorted_lt_NoDup _ (O4 _ _ Hq0)) as Hnd.
        assert (∀ hx, _retain hx = <[LogRetainFilter.level (σ l) := l1 ++ l2]> (_retain h) →
                  fifo_covers hist (LogRetainFilter.set_index (rest ++ [logSeq h]) (σ l)) hx)
          as Hev.
        { intros hx Hret. apply Hstep. intros s r q Hs Hq Hin.
          rewrite Hret, lookup_insert_eq in Hq. injection Hq as <-.
          apply (elem_of_app_middle _ _ x) in Hin as [Hin Hne]; [|done].
          split; [done|]. by exists (l1 ++ x :: l2). }
        destruct (OrderedDict.pop x (_index h)) as [[v d]|e] eqn:Hp; simpl;
          intros Heq; simplify_eq.
        -- split; [by apply Hev|]. intros _ _. simpl. set_solver.
        -- split; [by apply Hev|done].
    + intros Heq. simplify_eq. split.
      * apply Hstep. intros s r q Hs Hq Hin. split; [|by eapply Hsame].
        specialize (Hhist _ _ Hs). lia.
      * intros _ _. simpl. set_solver.
  - simpl. intros Heq. simplify_eq. split.
    + intros s r q Hs Hm' Hq Hin. simpl in *.
      rewrite (matches_same_key (σ l) _ _ (Hkey _)) in Hm'.
      pose proof (Hcov s r q Hs Hm' Hq Hin). set_solver.
    + intros _ _. simpl. set_solver.
Qed.

(** The loop over a chain, which may refer to the followed object any
    number of times. *)
Lemma run_filters_tracks b hist record l f0 fs σ h :
  orderly b h →
  (∀ s r, (s, r) ∈ hist → 0 < s < logSeq h) →
  LogRetainFilter.cls f0 = LogRetainFilter.Retain →
  same_key f0 (σ l) → fifo_bounded (σ l) → fifo_covers hist (σ l) h →
  let r := run_filters record fs σ h in
  same_key f0 (r.1.2 l) ∧ fifo_bounded (r.1.2 l) ∧ fifo_covers hist (r.1.2 l) r.2 ∧
  (r.1.1 = Continue → LogRetainFilter.matches f0 record = true →
   l ∈ fs ∨ logSeq h ∈ LogRetainFilter._index (σ l) →
   logSeq h ∈ LogRetainFilter._index (r.1.2 l)).
Proof.
  intros Hord Hhist Hcls. revert σ h Hord Hhist.
  induction fs as [|l0 fs IH]; intros σ h Hord Hhist Hk Hb Hcov; simpl.
  - split_and!; try done. intros _ _ [Hin|Hin]; [set_solver|done].
  - destruct (filter_step record l0 σ h) as [[fl1 σ1] h1] eqn:Hs.
    pose proof (filter_step_shrinks _ _ _ _ _ _ _ Hs) as Hsh.
    assert (logSeq h1 = logSeq h) as Hn by (by destruct Hsh as (_ & _ & -> & _)).
    pose proof (filter_step_preserves (orderly b) record l0 σ h
                  (λ lvl x h0, evict_orderly b lvl x h0) Hord) as Hord1.
    rewrite Hs in Hord1. simpl in Hord1.
    pose proof (filter_step_heap record l0 σ h) as Hheap. rewrite Hs in Hheap.
    simpl in Hheap.
    assert (same_key f0 (σ1 l) ∧ fifo_bounded (σ1 l) ∧ fifo_covers hist (σ1 l) h1 ∧
            (fl1 = Continue → LogRetainFilter.matches f0 record = true →
             l0 = l ∨ logSeq h ∈ LogRetainFilter._index (σ l) →
             logSeq h ∈ LogRetainFilter._index (σ1 l))) as (Hk1 & Hb1 & Hcov1 & Hnew1).
    { destruct (decide (l0 = l)) as [->|Hne].
      - destruct (filter_step_tracks b hist record l σ h fl1 σ1 h1 Hord Hhist)
          as [Hc Hi]; try done.
        { destruct Hk as (-> & _); done. }
        rewrite Hheap, fn_lookup_insert in Hc, Hi |- *. split_and!.
        + eapply same_key_trans; [exact Hk|apply filter_same_key].
        + by apply filter_fifo_bounded.
        + done.
        + intros Hfl Hm _. apply Hi; [done|].
          by rewrite (matches_same_key _ _ _ Hk).
      - rewrite Hheap, fn_lookup_insert_ne by done. split_and!; try done.
        + by eapply covers_shrinks.
        + intros _ _ [?|?]; done. }
    destruct fl1; simpl; [|done|done].
    specialize (IH σ1 h1 Hord1).
    rewrite Hn in IH. destruct IH as (Hk2 & Hb2 & Hcov2 & Hnew2); try done.
    split_and!; try done.
    intros Hfl Hm Hor. apply Hnew2; [done|done|].
    destruct (decide (l0 = l)) as [->|Hne].
    + right. apply Hnew1; [done|done|by left].
    + destruct Hor as [Hin|Hin]; [left; set_solver|].
      right. apply Hnew1; [done|done|by right].
Qed.

Lemma emit_tracks format l f0 hist σ h record :
  LogRetainFilter.cls f0 = LogRetainFilter.Retain →
  tracks l f0 hist (σ, h) →
  tracks l f0
    (if bool_decide (level h ≤ logging.levelno record)
     then hist ++ [(logSeq h + 1, record)] else hist)
    ((emit format σ h record).1.2, (emit format σ h record).2).
Proof.
  intros Hcls (Hord & H0 & Hhist & Hl & Hkey & Hfb & Hcov). cbn [fst snd] in *.
  pose proof (emit_orderly format σ h record Hord) as Hord'.
  destruct (emit_logSeq format σ h record) as (Hn & _ & Hfs).
  unfold tracks. cbn [fst snd].
  destruct (decide (level h ≤ logging.levelno record)) as [Hle|Hle].
  2:{ rewrite bool_decide_eq_false_2 by done.
      unfold emit. rewrite bool_decide_eq_false_2 by done. simpl. done. }
  rewrite bool_decide_eq_true_2 by done. rewrite bool_decide_eq_true_2 in Hn by done.
  destruct (run_filters record (_filters h) σ (set_logSeq (logSeq h + 1) h))
    as [[fl σ1] h1] eqn:Hr.
  pose proof (run_filters_tracks (logSeq h) hist record l f0 (_filters h) σ
                (set_logSeq (logSeq h + 1) h)) as Ht.
  rewrite Hr in Ht. simpl in Ht.
  destruct Ht as (Hk1 & Hb1 & Hcov1 & Hnew); try done.
  { intros s r Hin. specialize (Hhist _ _ Hin). lia. }
  destruct (run_filters_orderly _ _ _ _ _ _ Hord Hr) as (Hordx & _ & Hnx).
  assert (∀ s q lv, _retain h1 !! lv = Some q → s ∈ q → s ≤ logSeq h) as Hold.
  { intros s q lv Hq Hin. destruct Hordx as (_ & O2 & O3 & _). apply O3, O2. by exists lv, q. }
  assert (∀ s r, (s, r) ∈ hist ++ [(logSeq h + 1, record)] → 0 < s ≤ logSeq h + 1) as Hhist'.
  { intros s r [Hin| [= -> ->]%list_elem_of_singleton]%elem_of_app; [|lia].
    specialize (Hhist _ _ Hin). lia. }
  destruct fl.
  - destruct (retain_record format record h1) as [res h2] eqn:Hrr.
    pose proof (retain_record_extends _ _ _ _ _ Hrr) as (_ & _ & _ & _ & Xq).
    rewrite (emit_run _ _ _ _ _ _ _ Hle Hr), Hrr in Hord', Hn, Hfs |- *.
    cbn [fst snd] in *. rewrite Hn in Hord' |- *. rewrite Hfs.
    split_and!; [done|lia|done|done|done|done|].
    intros s r0 q Hs Hm Hq Hin.
    destruct (Xq _ _ Hq) as (q0 & Hq0 & Hsub).
    apply elem_of_app in Hs as [Hs| [= -> ->]%list_elem_of_singleton].
    + destruct (Hsub _ Hin) as [Hin0| ->].
      * by eapply (Hcov1 s r0 q0).
      * specialize (Hhist _ _ Hs). lia.
    + apply Hnew; [done| |by left]. by rewrite <- (matches_same_key _ _ _ Hk1).
  - rewrite (emit_run _ _ _ _ _ _ _ Hle Hr) in Hord', Hn, Hfs |- *.
    cbn [fst snd] in *. rewrite Hn in Hord' |- *. rewrite Hfs.
    split_and!; [done|lia|done|done|done|done|].
    intros s r0 q Hs Hm Hq Hin.
    apply elem_of_app in Hs as [Hs| [= -> ->]%list_elem_of_singleton].
    + by eapply (Hcov1 s r0 q).
    + specialize (Hold _ _ _ Hq Hin). lia.
  - rewrite (emit_run _ _ _ _ _ _ _ Hle Hr) in Hord', Hn, Hfs |- *.
    cbn [fst snd] in *. rewrite Hn in Hord' |- *. rewrite Hfs.
    split_and!; [done|lia|done|done|done|done|].
    intros s r0 q Hs Hm Hq Hin.
    apply elem_of_app in Hs as [Hs| [= -> ->]%list_elem_of_singleton].
    + by eapply (Hcov1 s r0 q).
    + specialize (Hold _ _ _ Hq Hin). lia.
Qed.

Lemma exec_emits_tracks format l f0 rs :
  LogRetainFilter.cls f0 = LogRetainFilter.Retain →
  ∀ w hist, tracks l f0 hist w →
    tracks l f0 (hist ++ accepted (level w.2) (logSeq w.2) (Emit <$> rs))
      (exec format (Emit <$> rs) w).
Proof.
  intros Hcls. induction rs as [|r rs IH]; intros [σ h] hist Ht; simpl.
  - by rewrite app_nil_r.
  - destruct (emit_logSeq format σ h r) as (Hn & Hl & _).
    pose proof (IH _ _ (emit_tracks format l f0 hist σ h r Hcls Ht)) as Hnext.
    cbn [fst snd] in Hnext. rewrite Hl, Hn in Hnext. clear Hn Hl.
    revert Hnext. case_bool_decide; intros Hnext; [|done].
    by rewrite <- app_assoc in Hnext.
Qed.

Lemma exec_addFilters format fs w :
  exec format (AddFilter <$> fs) w = (w.1, set_filters (_filters w.2 ++ fs) w.2).
Proof.
  revert w. induction fs as [|f fs IH]; intros [σ h]; simpl.
  - rewrite app_nil_r. by destruct h.
  - rewrite IH. unfold addFilter. simpl. by rewrite <- app_assoc.
Qed.

Lemma exec_app format ops1 ops2 w :
  exec format (ops1 ++ ops2) w = exec format ops2 (exec format ops1 w).
Proof. apply foldl_app. Qed.

Lemma accepted_addFilters lvl n fs ops :
  accepted lvl n ((AddFilter <$> fs) ++ ops) = accepted lvl n ops.
Proof. induction fs as [|f fs IH]; simpl; done. Qed.

Lemma exec_emits_frame format rs w :
  _filters (exec format (Emit <$> rs) w).2 = _filters w.2 ∧
  ∀ l, same_key (w.1 l) ((exec format (Emit <$> rs) w).1 l).
Proof.
  revert w. induction rs as [|r rs IH]; intros [σ h].
  - split; [done|]. intros l. apply same_key_refl.
  - change (exec format (Emit <$> r :: rs) (σ, h))
      with (exec format (Emit <$> rs) ((emit format σ h r).1.2, (emit format σ h r).2)).
    destruct (IH ((emit format σ h r).1.2, (emit format σ h r).2)) as [Hfs Hk].
    destruct (emit_logSeq format σ h r) as (_ & _ & Hfs1). cbn [fst snd] in *.
    split; [by rewrite Hfs|]. intros l. eapply same_key_trans; [|apply Hk].
    rewrite emit_heap. case_bool_decide; [apply run_filters_same_key|apply same_key_refl].
Qed.

(** X15: a filter object of class [LogRetainFilter] whose FIFO holds at
    most [max(0, count)] numbers and that is registered, once or several
    times, before the first record limits what is retained for its key.
    After every run the chain is the list of references that were
    registered, the object has its class, name, level and count, its FIFO
    holds at most [max(0, count)] numbers, and every sequence number in
    its level's queue that belongs to an accepted record with the filter's
    name and level is one of the numbers in this FIFO. *)
Theorem filter_limits_its_key format retain lvl h0 σ0 fs rs l :
  init retain lvl = Ok h0 →
  l ∈ fs →
  LogRetainFilter.cls (σ0 l) = LogRetainFilter.Retain →
  fifo_bounded (σ0 l) →
  let ops := (AddFilter <$> fs) ++ (Emit <$> rs) in
  let w := exec format ops (σ0, h0) in
  _filters w.2 = fs ∧ same_key (σ0 l) (w.1 l) ∧ fifo_bounded (w.1 l) ∧
  fifo_covers (accepted lvl 0 ops) (w.1 l) w.2.
Proof.
  intros Hi Hl Hcls Hfifo ops w. subst w ops.
  pose proof (init_orderly _ _ _ Hi) as Hord.
  injection Hi as <-.
  rewrite exec_app, exec_addFilters, accepted_addFilters. cbn [fst snd].
  set (h1 := set_filters _ _).
  destruct (exec_emits_frame format rs (σ0, h1)) as [Hfs _].
  destruct (exec_emits_tracks format l (σ0 l) rs Hcls (σ0, h1) [])
    as (_ & _ & _ & _ & Hk & Hb & Hc).
  - split; [exact Hord|]. split; [done|]. split; [set_solver|].
    split_and!; try done. intros s r q Hs. set_solver.
  - split_and!; try done.
Qed.

Lemma filter_limits_its_key_witness :
  let retain : gmap Z Z := {[logging.INFO := 5]} in
  let h0 := mk retain logging.INFO 0 []
               (map_fold (λ k _ acc, <[k := []]> acc) ∅ retain) [] in
  let σ0 : Heap := λ _, LogRetainFilter.init "task" logging.INFO 2 in
  let r n := logging.mkRecord n logging.INFO "m" in
  let ops := (AddFilter <$> [0; 1; 0]%nat) ++ (Emit <$> [r "task"; r "x"; r "task"; r "task"]) in
  let w := exec logging.plain ops (σ0, h0) in
  _filters w.2 = [0; 1; 0]%nat ∧ same_key (σ0 0%nat) (w.1 0%nat) ∧ fifo_bounded (w.1 0%nat) ∧
  fifo_covers (accepted logging.INFO 0 ops) (w.1 0%nat) w.2.
Proof.
  intros retain h0 σ0 r.
  apply (filter_limits_its_key logging.plain retain logging.INFO h0 σ0 [0; 1; 0]%nat
           [r "task"; r "x"; r "task"; r "task"] 0%nat).
  - reflexivity.
  - constructor.
  - reflexivity.
  - by vm_compute.
Defined.

(** * The chain of filters over a run *)

(** X16: [emit] never adds, removes or reorders the references of the
    chain and never changes the class, name, level or count of a filter
    object: after every run of [emit] calls the chain is the same list of
    references and every object has the key it had, whatever the records
    and the outcomes of the calls. *)
Theorem emit_keeps_filter_chain format rs w :
  _filters (exec format (Emit <$> rs) w).2 = _filters w.2 ∧
  ∀ l, same_key (w.1 l) ((exec format (Emit <$> rs) w).1 l).
Proof. apply exec_emits_frame. Qed.

(** * A suppressed key over a run *)

Lemma nomatch_other_key f g g' record :
  LogRetainFilter.matches f record = true →
  same_key g g' →
  LogRetainFilter.name g ≠ LogRetainFilter.name f
  ∨ LogRetainFilter.level g ≠ LogRetainFilter.level f →
  LogRetainFilter.matches g' record = false.
Proof.
  intros [Hn Hl]%matches_true (_ & Hn' & Hl' & _) Hdiff.
  unfold LogRetainFilter.matches. rewrite Hn', Hl', Hn, Hl.
  apply andb_false_iff. destruct Hdiff as [Hd|Hd]; [left|right];
    apply bool_decide_eq_false_2; congruence.
Qed.

(** [emit] of a record with the key of a [LogRetainSuppress] object that
    no earlier reference of the chain matches. *)
Lemma emit_suppressed format σ h record i l :
  _filters h !! i = Some l →
  LogRetainFilter.cls (σ l) = LogRetainFilter.Suppress →
  LogRetainFilter.matches (σ l) record = true →
  none_matches σ record (take i (_filters h)) →
  0 ≤ logSeq h → level h ≤ logging.levelno record →
  (emit format σ h record).2 = set_logSeq (logSeq h + 1) h.
Proof.
  intros Hi Hcls Hm Hno H0 Hle.
  pose proof (take_drop_middle _ _ _ Hi) as Hsplit.
  destruct (run_filters_nomatch record (take i (_filters h)) σ
              (set_logSeq (logSeq h + 1) h) Hno) as (σ1 & Hr1 & Hsame).
  assert (∃ σ2, run_filters record (take i (_filters h) ++ l :: drop (S i) (_filters h))
                  σ (set_logSeq (logSeq h + 1) h)
                = (Return, σ2, set_logSeq (logSeq h + 1) h)) as [σ2 Hr].
  { rewrite (run_filters_app _ _ _ _ _ _ _ Hr1).
    simpl. unfold filter_step. simpl. rewrite (filter_suppress (σ1 l) _ record).
    - rewrite bool_decide_eq_true_2 by lia. rewrite bool_decide_eq_true_2 by done.
      by eexists.
    - by rewrite Hsame.
    - by rewrite Hsame. }
  rewrite Hsplit in Hr. by rewrite (emit_run _ _ _ _ _ _ _ Hle Hr).
Qed.

Lemma exec_emits_keeps_out format σ0 fs i l rs :
  fs !! i = Some l →
  LogRetainFilter.cls (σ0 l) = LogRetainFilter.Suppress →
  (∀ j g, (j < i)%nat → fs !! j = Some g →
          LogRetainFilter.name (σ0 g) ≠ LogRetainFilter.name (σ0 l)
          ∨ LogRetainFilter.level (σ0 g) ≠ LogRetainFilter.level (σ0 l)) →
  ∀ w hist,
    bounded w.2 → _filters w.2 = fs → (∀ g, same_key (σ0 g) (w.1 g)) →
    (∀ s r, (s, r) ∈ hist → s ≤ logSeq w.2) →
    keeps_out (σ0 l) hist w.2 →
    keeps_out (σ0 l) (hist ++ accepted (level w.2) (logSeq w.2) (Emit <$> rs))
      (exec format (Emit <$> rs) w).2.
Proof.
  intros Hi Hcls Hbefore.
  induction rs as [|r rs IH]; intros [σ h] hist Hb Hfs Hkeys Hhist Hout.
  - simpl. by rewrite app_nil_r.
  - change (exec format (Emit <$> r :: rs) (σ, h))
      with (exec format (Emit <$> rs) ((emit format σ h r).1.2, (emit format σ h r).2)).
    cbn [fst snd] in *.
    change (accepted (level h) (logSeq h) (Emit <$> r :: rs))
      with (if bool_decide (level h ≤ logging.levelno r)
            then (logSeq h + 1, r) :: accepted (level h) (logSeq h + 1) (Emit <$> rs)
            else accepted (level h) (logSeq h) (Emit <$> rs)).
    destruct (emit_logSeq format σ h r) as (Hn & Hl & Hfs').
    pose proof (apply_op_bounded format (σ, h) (Emit r) Hb) as Hb'.
    cbn [apply_op fst snd] in Hb'.
    assert (∀ g, same_key (σ0 g) ((emit format σ h r).1.2 g)) as Hkeys'.
    { intros g. eapply same_key_trans; [apply Hkeys|].
      rewrite emit_heap. case_bool_decide; [apply run_filters_same_key|apply same_key_refl]. }
    pose proof Hb as (H0 & Hk & Hq).
    specialize (IH ((emit format σ h r).1.2, (emit format σ h r).2)
                  (if bool_decide (level h ≤ logging.levelno r)
                   then hist ++ [(logSeq h + 1, r)] else hist) Hb').
    cbn [fst snd] in IH. specialize (IH ltac:(congruence) Hkeys').
    rewrite Hl, Hn in IH. clear Hn Hl.
    destruct (decide (level h ≤ logging.levelno r)) as [Hle|Hle].
    + rewrite !bool_decide_eq_true_2 in IH by done. rewrite bool_decide_eq_true_2 by done.
      rewrite <- app_assoc in IH. apply IH.
      * intros s r0 [Hin| [= -> ->]%list_elem_of_singleton]%elem_of_app; [|lia].
        specialize (Hhist _ _ Hin). lia.
      * intros s r0 Hs Hm.
        apply elem_of_app in Hs as [Hs| [= -> ->]%list_elem_of_singleton].
        -- destruct (Hout _ _ Hs Hm) as [Hnk Hnq]. specialize (Hhist _ _ Hs).
           pose proof (emit_extends format σ h r) as Hx. cbv zeta in Hx.
           destruct Hx as [->|[(_ & _ & _ & Xk & Xq) _]]; [done|].
           split.
           ++ intros Hin. destruct (Xk _ Hin) as [?| ->]; [done|lia].
           ++ intros (lv & q' & Hq' & Hin). destruct (Xq _ _ Hq') as (q0 & Hq0 & Hsub).
              destruct (Hsub _ Hin) as [?| ->]; [|lia]. apply Hnq. by exists lv, q0.
        -- rewrite (emit_suppressed format σ h r i l); try done.
           ++ split.
              ** intros Hin. apply Hk in Hin. lia.
              ** intros (lv & q' & Hq' & Hin). specialize (Hq _ _ _ Hq' Hin). lia.
           ++ by rewrite Hfs.
           ++ destruct (Hkeys l) as (-> & _). done.
           ++ by rewrite (matches_same_key _ _ _ (Hkeys l)).
           ++ apply Forall_forall. intros g Hg.
              apply list_elem_of_lookup in Hg as [j Hj].
              apply lookup_take_Some in Hj as [Hj Hlt]. rewrite Hfs in Hj.
              eapply nomatch_other_key; [exact Hm|apply Hkeys|]. by eapply Hbefore.
    + rewrite !bool_decide_eq_false_2 in IH by done. rewrite bool_decide_eq_false_2 by done.
      apply IH; [done|].
      unfold emit. by rewrite bool_decide_eq_false_2.
Qed.

(** X17: a [LogRetainSuppress] object, registered before the first record
    and with no earlier reference of the chain to an object with the same
    name and level, keeps its key out for a whole run: no record with the
    filter's name and level that was emitted in the run is in the index or
    in a queue at the end, whatever else was emitted, whatever the other
    filters did and whatever the formatter does. *)
Theorem suppressed_key_never_retained format retain lvl h0 σ0 fs rs i l s record :
  init retain lvl = Ok h0 →
  fs !! i = Some l →
  LogRetainFilter.cls (σ0 l) = LogRetainFilter.Suppress →
  (∀ j g, (j < i)%nat → fs !! j = Some g →
          LogRetainFilter.name (σ0 g) ≠ LogRetainFilter.name (σ0 l)
          ∨ LogRetainFilter.level (σ0 g) ≠ LogRetainFilter.level (σ0 l)) →
  let ops := (AddFilter <$> fs) ++ (Emit <$> rs) in
  (s, record) ∈ accepted lvl 0 ops →
  LogRetainFilter.matches (σ0 l) record = true →
  (s ∉ (getLogEntries (exec format ops (σ0, h0)).2).*1)
  ∧ ¬ queued (exec format ops (σ0, h0)).2 s.
Proof.
  intros Hinit Hi Hcls Hbefore ops. subst ops.
  rewrite exec_app, exec_addFilters, accepted_addFilters.
  pose proof (init_bounded _ _ _ Hinit) as Hb. injection Hinit as <-.
  intros Hs Hm. cbn [fst snd].
  set (h1 := set_filters _ _).
  assert (bounded h1) as Hb1 by exact Hb.
  pose proof (exec_emits_keeps_out format σ0 fs i l rs Hi Hcls Hbefore (σ0, h1) [] Hb1
                eq_refl (λ g, same_key_refl (σ0 g))) as Hout.
  cbn [fst snd] in Hout.
  apply (Hout ltac:(set_solver) ltac:(intros ???; set_solver) s record); done.
Qed.

Lemma suppressed_key_never_retained_witness :
  let retain : gmap Z Z := {[logging.INFO := 5]} in
  let h0 := mk retain logging.INFO 0 []
               (map_fold (λ k _ acc, <[k := []]> acc) ∅ retain) [] in
  let σ0 : Heap := λ l, if decide (l = 0%nat)
                        then LogRetainFilter.init "a" logging.INFO 1
                        else LogRetainFilter.init_suppress "noisy" logging.INFO 10 in
  let r n := logging.mkRecord n logging.INFO "m" in
  let ops := (AddFilter <$> [0; 1; 0]%nat) ++ (Emit <$> [r "a"; r "noisy"; r "a"]) in
  (2 ∉ (getLogEntries (exec logging.plain ops (σ0, h0)).2).*1)
  ∧ ¬ queued (exec logging.plain ops (σ0, h0)).2 2.
Proof.
  intros retain h0 σ0 r.
  apply (suppressed_key_never_retained logging.plain retain logging.INFO h0 σ0
           [0; 1; 0]%nat [r "a"; r "noisy"; r "a"] 1%nat 1%nat 2 (r "noisy")).
  - reflexivity.
  - reflexivity.
  - reflexivity.
  - intros j g Hj Hg. destruct j as [|j]; [|lia]. injection Hg as <-.
    left. by vm_compute.
  - vm_compute. right. left.
  - reflexivity.
Defined.

(** * Bounded memory *)

Lemma length_join_queues (L : list (Z * list Z)) :
  length (mjoin (L.*2)) = sum_list_with (λ p, length p.2) L.
Proof.
  induction L as [|[l q] L IH]; [done|]. csimpl. rewrite length_app, IH. done.
Qed.

Lemma keys_le_queues (ks : list Z) (ret : gmap Z (list Z)) :
  NoDup ks →
  (∀ s, s ∈ ks → ∃ l q, ret !! l = Some q ∧ s ∈ q) →
  (length ks ≤ sum_list_with (λ p, length p.2) (map_to_list ret))%nat.
Proof.
  intros Hnd Hin. rewrite <- length_join_queues. apply submseteq_length.
  apply NoDup_submseteq; [done|]. intros s Hs.
  destruct (Hin s Hs) as (l & q & Hq & Hsq).
  apply list_elem_of_join. exists q. split; [done|].
  apply list_elem_of_fmap. exists (l, q). split; [done|]. by apply elem_of_map_to_list.
Qed.

Lemma queues_le_caps (ret : gmap Z (list Z)) :
  ∀ cfg : gmap Z Z,
    dom ret = dom cfg →
    (∀ l q c, ret !! l = Some q → cfg !! l = Some c → (length q ≤ Z.to_nat c)%nat) →
    (sum_list_with (λ p, length p.2) (map_to_list ret)
     ≤ sum_list_with (λ p, Z.to_nat p.2) (map_to_list cfg))%nat.
Proof.
  induction ret as [|k q ret Hk IH] using map_ind; intros cfg Hdom Hle.
  - rewrite map_to_list_empty. simpl. lia.
  - assert (is_Some (cfg !! k)) as [c Hc].
    { apply elem_of_dom. rewrite <- Hdom. apply elem_of_dom. rewrite lookup_insert_eq. by eexists. }
    rewrite (map_to_list_insert ret k q Hk), <- (map_to_list_delete cfg k c Hc). simpl.
    assert (length q ≤ Z.to_nat c)%nat as Hq.
    { apply (Hle k q c); [by rewrite lookup_insert_eq|done]. }
    assert (sum_list_with (λ p, length p.2) (map_to_list ret)
            ≤ sum_list_with (λ p, Z.to_nat p.2) (map_to_list (delete k cfg)))%nat as Hrest.
    { apply IH.
      - rewrite dom_delete_L, <- Hdom, dom_insert_L.
        apply not_elem_of_dom in Hk. set_solver.
      - intros l q0 c0 Hq0 Hc0.
        destruct (decide (l = k)) as [->|Hne]; [congruence|].
        rewrite lookup_delete_ne in Hc0 by done.
        apply (Hle l q0 c0); [by rewrite lookup_insert_ne|done]. }
    lia.
Qed.

(** X18: bounded memory.  When every capacity is at least 1 and every
    emitted record has a configured level, the number of entries that
    [getLogEntries] yields never exceeds the sum of the capacities,
    however long the run and whatever the filters and the formatter
    do. *)
Theorem retained_count_bounded format retain lvl h0 σ0 ops :
  init retain lvl = Ok h0 →
  (∀ k c, retain !! k = Some c → 1 ≤ c) →
  levels_configured retain ops →
  (length (getLogEntries (exec format ops (σ0, h0)).2) ≤ total_capacity retain)%nat.
Proof.
  intros Hi Hcaps Hcfg.
  pose proof (init_coherent _ _ _ Hi Hcaps) as Hc0.
  pose proof (exec_capacity format ops (σ0, h0) (init_capacity _ _ _ Hi)) as Hcap.
  assert (retainSetup h0 = retain) as Hs by (by injection Hi as <-).
  rewrite <- Hs in Hcfg.
  destruct (exec_coherent format ops (σ0, h0) Hc0 Hcfg) as (C1 & C2 & _ & _ & _ & C6 & C7).
  destruct (exec_config format ops (σ0, h0)) as (Hs' & _ & _).
  cbn [fst snd] in *. rewrite Hs' in *. rewrite Hs in *.
  unfold total_capacity, getLogEntries.
  set (hN := (exec format ops (σ0, h0)).2) in *.
  etrans; [|apply (queues_le_caps (_retain hN) retain C6)].
  - replace (length (_index hN)) with (length (index_keys hN))
      by (unfold index_keys, OrderedDict.keys; by rewrite length_fmap).
    apply keys_le_queues; [by apply StronglySorted_lt_NoDup|].
    intros s Hin. by apply C2.
  - intros l q c Hq Hc. specialize (Hcap l q c Hq). rewrite Hs' in Hcap.
    specialize (Hcap Hc (C7 _ _ Hc)). unfold PyList.len in Hcap. lia.
Qed.

Lemma retained_count_bounded_witness :
  let retain : gmap Z Z := {[logging.INFO := 1; logging.ERROR := 2]} in
  let h0 := mk retain logging.INFO 0 []
               (map_fold (λ k _ acc, <[k := []]> acc) ∅ retain) [] in
  let σ0 : Heap := λ _, LogRetainFilter.init "a" logging.INFO 1 in
  let r l := Emit (logging.mkRecord "a" l "m") in
  (length (getLogEntries
             (exec logging.plain [r logging.INFO; AddFilter 0%nat; r logging.ERROR;
                                  r logging.INFO; AddFilter 0%nat; r logging.ERROR;
                                  r logging.ERROR] (σ0, h0)).2)
   ≤ total_capacity retain)%nat.
Proof.
  intros retain h0 σ0 r.
  apply (retained_count_bounded logging.plain retain logging.INFO h0 σ0).
  - reflexivity.
  - intros k c Hk. unfold retain in Hk.
    apply lookup_insert_Some in Hk as [[_ <-]|[_ Hk]]; [lia|].
    apply lookup_singleton_Some in Hk as [_ <-]. lia.
  - repeat constructor; by eexists.
Defined.

(** * The order inside a filter *)

Lemma fifo_sorted_mono b b' f : b ≤ b' → fifo_sorted b f → fifo_sorted b' f.
Proof. intros Hb [H1 H2]. split; [done|]. intros s Hs. specialize (H2 s Hs). lia. Qed.

Lemma filter_fifo_sorted b f record :
  fifo_sorted b f → fifo_sorted (b + 1) (LogRetainFilter.filter f (b + 1) record).2.
Proof.
  intros Hf. pose proof (fifo_sorted_mono b (b + 1) f ltac:(lia) Hf) as Hmono.
  destruct Hf as [Hs Hb]. unfold LogRetainFilter.filter.
  destruct (LogRetainFilter.cls f); [|by destruct (LogRetainFilter.matches f record)].
  destruct (LogRetainFilter.matches f record); [|done].
  case_bool_decide.
  - destruct (LogRetainFilter._index f) as [|x rest] eqn:Hi; simpl; [done|].
    apply StronglySorted_cons in Hs as [_ Hs]. split; simpl.
    + apply StronglySorted_snoc; [done|]. intros s Hin.
      assert (s ≤ b) by (apply Hb; set_solver). lia.
    + intros s [Hin| ->%list_elem_of_singleton]%elem_of_app; [|lia].
      assert (s ≤ b) by (apply Hb; set_solver). lia.
  - simpl. split; simpl.
    + apply StronglySorted_snoc; [done|]. intros s Hin. specialize (Hb s Hin). lia.
    + intros s [Hin| ->%list_elem_of_singleton]%elem_of_app; [|lia].
      specialize (Hb s Hin). lia.
Qed.

Lemma occurrences_cons l l0 fs :
  occurrences l (l0 :: fs)
  = ((if decide (l0 = l) then 1 else 0) + occurrences l fs)%nat.
Proof. unfold occurrences. rewrite filter_cons. by case_decide. Qed.

Lemma occurrences_app l fs1 fs2 :
  occurrences l (fs1 ++ fs2) = (occurrences l fs1 + occurrences l fs2)%nat.
Proof. unfold occurrences. by rewrite filter_app, length_app. Qed.

Lemma occurrences_zero l fs : occurrences l fs = 0%nat → l ∉ fs.
Proof.
  unfold occurrences. intros Hz Hin.
  assert (l ∈ filter (λ l', l' = l) fs) as Hf by (by apply list_elem_of_filter).
  apply nil_length_inv in Hz. rewrite Hz in Hf. set_solver.
Qed.

Lemma occurrences_pos l fs : (1 ≤ occurrences l fs)%nat → l ∈ fs.
Proof.
  unfold occurrences. intros Hp.
  destruct (filter (λ l', l' = l) fs) as [|x rest] eqn:Hf; [simpl in Hp; lia|].
  assert (x ∈ filter (λ l', l' = l) fs) as Hx by (rewrite Hf; set_solver).
  apply list_elem_of_filter in Hx as [-> Hx]. done.
Qed.

Lemma run_filters_fifo_sorted b record l fs σ h :
  logSeq h = b + 1 →
  fifo_sorted b (σ l) →
  (occurrences l fs ≤ 1)%nat →
  fifo_sorted (b + 1) ((run_filters record fs σ h).1.2 l).
Proof.
  revert σ h. induction fs as [|l0 fs IH]; intros σ h Hn Hf Hocc; simpl.
  - apply (fifo_sorted_mono b); [lia|done].
  - rewrite occurrences_cons in Hocc.
    pose proof (filter_step_heap record l0 σ h) as Hheap.
    destruct (filter_step record l0 σ h) as [[fl1 σ1] h1] eqn:Hs. simpl in Hheap.
    apply filter_step_shrinks in Hs as (_ & _ & Hn1 & _).
    destruct (decide (l0 = l)) as [->|Hne].
    + assert (l ∉ fs) as Hnin by (apply occurrences_zero; lia).
      assert (fifo_sorted (b + 1) (σ1 l)) as Hf1.
      { rewrite Hheap, fn_lookup_insert, Hn. by apply filter_fifo_sorted. }
      destruct fl1; simpl; [|done|done].
      by rewrite run_filters_frame.
    + assert (σ1 l = σ l) as Heq by (by rewrite Hheap, fn_lookup_insert_ne).
      destruct fl1; simpl.
      * apply IH; [congruence|by rewrite Heq|lia].
      * rewrite Heq. apply (fifo_sorted_mono b); [lia|done].
      * rewrite Heq. apply (fifo_sorted_mono b); [lia|done].
Qed.

Lemma exec_fifo_sorted format l ops w :
  fifo_sorted (logSeq w.2) (w.1 l) →
  (occurrences l (_filters w.2) + registrations l ops ≤ 1)%nat →
  fifo_sorted (logSeq (exec format ops w).2) ((exec format ops w).1 l).
Proof.
  revert w. induction ops as [|op ops IH]; intros [σ h] Hf Hocc; [done|].
  change (exec format (op :: ops) (σ, h)) with (exec format ops (apply_op format (σ, h) op)).
  cbn [fst snd] in *.
  destruct op as [record|l']; cbn [apply_op registrations fst snd] in *.
  - destruct (emit_logSeq format σ h record) as (Hn & _ & Hfs).
    apply IH; cbn [fst snd].
    + rewrite Hn, emit_heap.
      destruct (decide (level h ≤ logging.levelno record)).
      * rewrite !bool_decide_eq_true_2 by done.
        apply run_filters_fifo_sorted; [done|done|lia].
      * rewrite !bool_decide_eq_false_2 by done. done.
    + rewrite Hfs. lia.
  - apply IH; cbn [fst snd]; [done|].
    unfold addFilter. cbn [_filters set_filters].
    rewrite occurrences_app, occurrences_cons.
    change (occurrences l []) with 0%nat. lia.
Qed.

(** X19: the FIFO of a filter object that is new when the handler is
    constructed and that the run registers at most once is in strictly
    increasing order after every run and holds no number above the
    counter: the number that [self._index.pop(0)] takes out of the full
    FIFO is the oldest one the object holds.  Other objects may be
    registered any number of times. *)
Theorem filter_fifos_oldest_first format retain lvl h0 σ0 ops l :
  init retain lvl = Ok h0 →
  LogRetainFilter._index (σ0 l) = [] →
  (registrations l ops ≤ 1)%nat →
  let w := exec format ops (σ0, h0) in
  fifo_sorted (logSeq w.2) (w.1 l).
Proof.
  intros [= <-] Hnew Hreg w. subst w.
  apply exec_fifo_sorted; cbn [fst snd _filters logSeq].
  - unfold fifo_sorted. rewrite Hnew. split; [constructor|set_solver].
  - change (occurrences l []) with 0%nat. lia.
Qed.

Lemma filter_fifos_oldest_first_witness :
  let h0 := mk {[logging.INFO := 5]} logging.INFO 0 [] {[logging.INFO := []]} [] in
  let σ0 : Heap := λ _, LogRetainFilter.init "a" logging.INFO 2 in
  let r := logging.mkRecord "a" logging.INFO "m" in
  let w := exec logging.plain
             [AddFilter 1%nat; AddFilter 0%nat; AddFilter 1%nat;
              Emit r; Emit r; Emit r; Emit r] (σ0, h0) in
  fifo_sorted (logSeq w.2) (w.1 0%nat).
Proof.
  intros h0 σ0 r.
  apply (filter_fifos_oldest_first logging.plain {[logging.INFO := 5]} logging.INFO h0 σ0).
  - reflexivity.
  - reflexivity.
  - vm_compute. lia.
Defined.

(** * A filter object that is registered twice *)

Lemma filter_count_one f n record :
  LogRetainFilter.cls f = LogRetainFilter.Retain →
  LogRetainFilter.count f = 1 →
  LogRetainFilter.matches f record = true →
  fifo_bounded f →
  LogRetainFilter._index (LogRetainFilter.filter f n record).2 = [n].
Proof.
  intros Hcls Hc Hm Hb. unfold fifo_bounded, PyList.len in Hb. rewrite Hc in Hb.
  unfold LogRetainFilter.filter. rewrite Hcls, Hm, Hc. unfold PyList.len.
  destruct (LogRetainFilter._index f) as [|x [|y rest]] eqn:Hf; simpl in *.
  - done.
  - done.
  - lia.
Qed.

(** The loop when it comes back to an object of count 1 that it has
    visited already for this record. *)
Lemma run_filters_revisit record l fs σ h :
  LogRetainFilter.cls (σ l) = LogRetainFilter.Retain →
  LogRetainFilter.count (σ l) = 1 →
  LogRetainFilter.matches (σ l) record = true →
  LogRetainFilter._index (σ l) = [logSeq h] →
  logSeq h ≠ 0 →
  l ∈ fs →
  (run_filters record fs σ h).1.1 ≠ Continue.
Proof.
  revert σ h. induction fs as [|l0 fs IH]; intros σ h Hcls Hc Hm Hfifo H0 Hin; [set_solver|].
  simpl. destruct (decide (l0 = l)) as [->|Hne].
  - unfold filter_step, LogRetainFilter.filter. rewrite Hcls, Hm, Hc, Hfifo.
    unfold PyList.len. simpl.
    rewrite bool_decide_eq_true_2 by done. rewrite bool_decide_eq_true_2 by done. done.
  - destruct (filter_step record l0 σ h) as [[fl1 σ1] h1] eqn:Hs.
    pose proof (filter_step_heap record l0 σ h) as Hheap. rewrite Hs in Hheap.
    simpl in Hheap.
    pose proof (filter_step_shrinks _ _ _ _ _ _ _ Hs) as (_ & _ & Hn & _).
    assert (σ1 l = σ l) as Heq by (by rewrite Hheap, fn_lookup_insert_ne).
    destruct fl1; [|done|done].
    apply IH; rewrite ?Heq, ?Hn; try done. set_solver.
Qed.

Lemma run_filters_twice record l fs σ h :
  LogRetainFilter.cls (σ l) = LogRetainFilter.Retain →
  LogRetainFilter.count (σ l) = 1 →
  LogRetainFilter.matches (σ l) record = true →
  fifo_bounded (σ l) →
  logSeq h ≠ 0 →
  (2 ≤ occurrences l fs)%nat →
  (run_filters record fs σ h).1.1 ≠ Continue.
Proof.
  revert σ h. induction fs as [|l0 fs IH]; intros σ h Hcls Hc Hm Hb H0 Hocc.
  - unfold occurrences in Hocc. simpl in Hocc. lia.
  - rewrite occurrences_cons in Hocc. simpl.
    destruct (filter_step record l0 σ h) as [[fl1 σ1] h1] eqn:Hs.
    pose proof (filter_step_heap record l0 σ h) as Hheap. rewrite Hs in Hheap.
    simpl in Hheap.
    pose proof (filter_step_shrinks _ _ _ _ _ _ _ Hs) as (_ & _ & Hn & _).
    destruct fl1; [|done|done].
    destruct (decide (l0 = l)) as [->|Hne].
    + assert (l ∈ fs) as Hin by (apply occurrences_pos; lia).
      pose proof (filter_same_key (σ l) (logSeq h) record) as (Hk1 & _ & _ & Hk4).
      pose proof (matches_same_key _ _ record (filter_same_key (σ l) (logSeq h) record))
        as Hm'.
      apply (run_filters_revisit record l); rewrite ?Hheap, ?fn_lookup_insert, ?Hn; try done.
      * congruence.
      * congruence.
      * congruence.
      * by apply filter_count_one.
    + assert (σ1 l = σ l) as Heq by (by rewrite Hheap, fn_lookup_insert_ne).
      apply IH; rewrite ?Heq, ?Hn; done.
Qed.

(** X22: filter objects are shared by reference.  When the chain refers
    at least twice to one object of class [LogRetainFilter] with count 1
    whose FIFO holds at most one number, no record with the filter's name
    and level is retained: the second visit finds the record's own number
    in the FIFO and returns it, so the call leaves [emit] in the loop, by
    [return] or by an exception, and the record's number is not a key of
    the index. *)
Theorem filter_registered_twice_suppresses format σ h record l :
  reachable format h →
  level h ≤ logging.levelno record →
  LogRetainFilter.cls (σ l) = LogRetainFilter.Retain →
  LogRetainFilter.count (σ l) = 1 →
  fifo_bounded (σ l) →
  LogRetainFilter.matches (σ l) record = true →
  (2 ≤ occurrences l (_filters h))%nat →
  (emit format σ h record).1.1 ≠ Ok Retained ∧
  logSeq (emit format σ h record).2 = logSeq h + 1 ∧
  logSeq h + 1 ∉ index_keys (emit format σ h record).2.
Proof.
  intros Hreach Hle Hcls Hc Hb Hm Hocc.
  destruct (reachable_bounded _ _ Hreach) as (H0 & Hk & _).
  pose proof (run_filters_twice record l (_filters h) σ (set_logSeq (logSeq h + 1) h)
                Hcls Hc Hm Hb) as Hne.
  destruct (run_filters record (_filters h) σ (set_logSeq (logSeq h + 1) h))
    as [[fl σ1] h1] eqn:Hr.
  pose proof (run_filters_shrinks _ _ _ _ _ _ _ Hr) as (_ & _ & Hn & _ & _ & Hsub & _).
  rewrite (emit_run _ _ _ _ _ _ _ Hle Hr).
  assert (logSeq h + 1 ∉ index_keys h1) as Hnin.
  { intros Hin. unfold index_keys, OrderedDict.keys in Hin.
    eapply elem_of_sublist in Hin; [|by apply fmap_sublist].
    apply Hk in Hin. lia. }
  destruct fl; cbn [fst snd].
  - exfalso. apply Hne; [simpl; lia|done|done].
  - done.
  - done.
Qed.

Lemma filter_registered_twice_suppresses_witness :
  let h0 := mk {[logging.INFO := 5]} logging.INFO 0 [] {[logging.INFO := []]} [] in
  let σ0 : Heap := λ _, LogRetainFilter.init "a" logging.INFO 1 in
  let r := logging.mkRecord "a" logging.INFO "m" in
  let w := exec logging.plain [AddFilter 0%nat; AddFilter 0%nat; Emit r] (σ0, h0) in
  (emit logging.plain w.1 w.2 r).1.1 ≠ Ok Retained ∧
  logSeq (emit logging.plain w.1 w.2 r).2 = logSeq w.2 + 1 ∧
  logSeq w.2 + 1 ∉ index_keys (emit logging.plain w.1 w.2 r).2.
Proof.
  intros h0 σ0 r w.
  apply (filter_registered_twice_suppresses logging.plain w.1 w.2 r 0%nat).
  - exists {[logging.INFO := 5]}, logging.INFO, h0, σ0,
      [AddFilter 0%nat; AddFilter 0%nat; Emit r]. split; reflexivity.
  - by vm_compute.
  - reflexivity.
  - reflexivity.
  - by vm_compute.
  - reflexivity.
  - vm_compute. lia.
Defined.

(** * What [emit] raises *)

Lemma evict_no_KeyError b lvl x h : orderly b h → (evict lvl x h).1 ≠ Raise KeyError.
Proof.
  intros (_ & O2 & _). unfold evict.
  destruct (_retain h !! lvl) as [q|] eqn:Hq; [|done].
  destruct (PyList.index x q) as [i|e] eqn:Hi.
  2:{ apply index_Raise in Hi as [-> _]. done. }
  rewrite (pop_at_index _ _ _ Hi). simpl.
  destruct (OrderedDict.pop x (_index h)) as [[v d]|e] eqn:Hp; [done|].
  apply odpop_Raise in Hp as [_ Hnin]. exfalso. apply Hnin. apply O2.
  exists lvl, q. split; [done|].
  apply index_Ok in Hi as (l1 & l2 & -> & _). set_solver.
Qed.

Lemma filter_raises_IndexError f n record e :
  (LogRetainFilter.filter f n record).1 = Raise e → e = IndexError.
Proof.
  unfold LogRetainFilter.filter.
  destruct (LogRetainFilter.cls f); destruct (LogRetainFilter.matches f record); try done.
  case_bool_decide; [|done].
  destruct (LogRetainFilter._index f); simpl; [|done]. by intros [= <-].
Qed.

Lemma run_filters_no_KeyError b record fs σ h :
  orderly b h → (run_filters record fs σ h).1.1 ≠ Throw KeyError.
Proof.
  revert σ h. induction fs as [|l fs IH]; intros σ h Hord; simpl; [done|].
  assert ((filter_step record l σ h).1.1 ≠ Throw KeyError
          ∧ orderly b (filter_step record l σ h).2) as [Hne Hord1].
  { split.
    2:{ apply (filter_step_preserves (orderly b)); [|done].
        intros lvl x h0. apply evict_orderly. }
    unfold filter_step.
    pose proof (filter_raises_IndexError (σ l) (logSeq h) record) as Hf.
    destruct (LogRetainFilter.filter (σ l) (logSeq h) record) as [[[x|]|e] f0]; simpl in *.
    - repeat case_bool_decide; simpl; try done.
      pose proof (evict_no_KeyError b (logging.levelno record) x h Hord) as Hev.
      destruct (evict _ _ _) as [[[]|e] h1]; simpl in *; [done|]. congruence.
    - done.
    - intros [= ->]. by specialize (Hf _ eq_refl). }
  destruct (filter_step record l σ h) as [[fl1 σ1] h1]. simpl in *.
  destruct fl1; simpl; [|done|done].
  by apply IH.
Qed.

Lemma retain_record_KeyError format record h :
  orderly (logSeq h - 1) h →
  (retain_record format record h).1 = Raise KeyError → format record = Raise KeyError.
Proof.
  intros (O1 & O2 & O3 & _).
  assert (logSeq h ∉ OrderedDict.keys (_index h)) as Hfresh.
  { intros Hin. specialize (O3 _ Hin). lia. }
  unfold retain_record, append_seq.
  destruct (format record) as [text|e]; [|by simpl; intros [= ->]].
  simpl. rewrite (setitem_fresh _ _ _ Hfresh).
  destruct (_retain h !! logging.levelno record) as [q|] eqn:Hq; [|done].
  destruct (retainSetup h !! logging.levelno record) as [cap|]; [|done].
  case_bool_decide; [|done].
  destruct q as [|rm q']; [done|]. simpl.
  assert (rm ∈ index_keys h) as Hrm.
  { apply O2. exists (logging.levelno record), (rm :: q'). split; [done|set_solver]. }
  destruct (odpop_present _ _ Hrm) as (v' & d' & Hp).
  by rewrite (odpop_app_l _ _ _ _ _ Hp).
Qed.

Lemma emit_KeyError format σ h record :
  orderly (logSeq h) h →
  (emit format σ h record).1.1 = Raise KeyError → format record = Raise KeyError.
Proof.
  intros Hord. rewrite emit_outcome. case_bool_decide as Hle; [|done]. cbv zeta.
  destruct (run_filters record (_filters h) σ (set_logSeq (logSeq h + 1) h))
    as [[fl σ1] h1] eqn:Hr.
  pose proof (run_filters_no_KeyError (logSeq h) record (_filters h) σ
                (set_logSeq (logSeq h + 1) h) Hord) as Hne.
  rewrite Hr in Hne.
  destruct (run_filters_orderly _ _ _ _ _ _ Hord Hr) as (_ & Hord1 & _).
  simpl in *. destruct fl; [|done|congruence].
  by apply retain_record_KeyError.
Qed.

Lemma calls_KeyError format ops w record :
  orderly (logSeq w.2) w.2 →
  (record, Raise KeyError) ∈ calls format ops w → format record = Raise KeyError.
Proof.
  revert w. induction ops as [|op ops IH]; intros [σ h] Hord Hin; cbn [calls] in Hin.
  - set_solver.
  - destruct op as [r|l]; cbn [apply_op fst snd] in *.
    + apply elem_of_cons in Hin as [[= -> Heq]|Hin].
      * by eapply emit_KeyError.
      * apply (IH ((emit format σ h r).1.2, (emit format σ h r).2)
                 (emit_orderly format σ h r Hord) Hin).
    + by apply (IH (σ, addFilter h l)).
Qed.

(** X20: in a run on a fresh handler a call of [emit] raises [KeyError]
    only when [self.format] raised it for that record: both calls of
    [self._index.pop] find their key, because every number that is taken
    out of a queue is a key of the index. *)
Theorem emit_never_raises_KeyError format retain lvl h0 σ0 ops record :
  init retain lvl = Ok h0 →
  (record, Raise KeyError) ∈ calls format ops (σ0, h0) →
  format record = Raise KeyError.
Proof.
  intros Hi. apply calls_KeyError. by apply (init_orderly retain lvl).
Qed.

Lemma emit_never_raises_KeyError_witness :
  let retain : gmap Z Z := {[logging.INFO := 2]} in
  let h0 := mk retain logging.INFO 0 [] {[logging.INFO := []]} [] in
  let σ0 : Heap := λ _, LogRetainFilter.init "a" logging.INFO 1 in
  let a := logging.mkRecord "a" logging.INFO "m" in
  let b := logging.mkRecord "b" logging.INFO "m" in
  let bad := logging.mkRecord "a" logging.INFO "%(x)s" in
  let format := logging.failing "%(x)s" KeyError in
  let ops := [AddFilter 0%nat; Emit b; Emit a; Emit b; Emit a; Emit bad] in
  calls format ops (σ0, h0)
  = [(b, Ok Retained); (a, Ok Retained); (b, Ok Retained); (a, Ok Retained);
     (bad, Raise KeyError)]
  ∧ getLogEntries (exec format ops (σ0, h0)).2 = [(3, "m")]
  ∧ format bad = Raise KeyError.
Proof.
  intros retain h0 σ0 a b bad format ops.
  split; [reflexivity|]. split; [reflexivity|].
  apply (emit_never_raises_KeyError format retain logging.INFO h0 σ0 ops bad).
  - reflexivity.
  - vm_compute. do 4 right. left.
Defined.

